(** * Synthetic multispectral raster, pixel spectrum, NDVI and band statistics

  A shallow embedding of [synthetic_raster_spectral_signature.py].

  Reflectances, coordinates and every other Python [float] / NumPy [float64]
  are binary64 numbers: Rocq's primitive [float], whose operations are the
  IEEE-754 ones (round to nearest, ties to even) that CPython and NumPy use.
  Decimal literals are read as the nearest binary64 value, as Python reads
  them.  Integers (band wavelengths, indices) are [Z] or [nat]; a Python
  exception is [None].

  NumPy and pandas are libraries outside the repository.  The few library
  functions the script calls are modelled in [Module Np] and [Module Pd] from
  their documented behaviour; the random generator and the floating-point
  mean are parameters. *)

From Stdlib Require Import Floats ZArith String Bool Lia List.
From Stdlib Require Import Sorting.Sorted Sorting.Permutation.
Import ListNotations.

Set Warnings "-inexact-float".

(** ** Errors: a computation that may raise *)

Definition bind {A B : Type} (x : option A) (f : A -> option B) : option B :=
  match x with
  | Some a => f a
  | None => None
  end.

Notation "x <- e ;; k" := (bind e (fun x => k))
  (at level 61, e at next level, right associativity).

Fixpoint mapM {A B : Type} (f : A -> option B) (l : list A) : option (list B) :=
  match l with
  | [] => Some []
  | a :: t => b <- f a ;; bs <- mapM f t ;; Some (b :: bs)
  end.

(** ** Lists as arrays *)

(** [l[i] = v] for an index in range; the loop of the script never leaves it. *)
Fixpoint set_nth {A : Type} (i : nat) (v : A) (l : list A) {struct l}
  : list A :=
  match l, i with
  | [], _ => []
  | _ :: t, O => v :: t
  | a :: t, S j => a :: set_nth j v t
  end.

Fixpoint map2 {A B C : Type} (f : A -> B -> C) (l : list A) (m : list B) : list C :=
  match l, m with
  | a :: l', b :: m' => f a b :: map2 f l' m'
  | _, _ => []
  end.

(** A two-dimensional array, one list per row; the raster is a list of them,
    one per band. *)
Definition grid := list (list float).

(** ** The NumPy functions the script calls *)

Module Np.

Local Open Scope float_scope.

(** An [int64] element of [np.arange], or a small Python [int], promoted to
    [float64]; for [0 <= i < 2^63], which the indices of the script are. *)
Definition float_of_Z (i : Z) : float := of_uint63 (Uint63.of_Z i).

Definition arange (n : nat) : list Z := map Z.of_nat (seq 0 n).

(** [a * x] for an integer array [a] and a Python float [x]. *)
Definition scale (a : list Z) (x : float) : list float :=
  map (fun i => float_of_Z i * x) a.

(** [u.reshape(-1, 1) + v]: a column broadcast against a row. *)
Definition outer_add (u v : list float) : grid :=
  map (fun a => map (fun b => a + b) v) u.

(** [x + g] for a scalar [x], and [g + h] for two arrays of one shape. *)
Definition scalar_add (x : float) (g : grid) : grid :=
  map (map (fun v => x + v)) g.

Definition grid_add (g h : grid) : grid :=
  map2 (map2 (fun a b => a + b)) g h.

Definition zeros (rows cols : nat) : grid := repeat (repeat 0 cols) rows.

Definition zeros3 (bands rows cols : nat) : list grid :=
  repeat (zeros rows cols) bands.

(** [np.clip] on one element: [minimum (maximum x lo) hi], where a NaN
    element stays a NaN. *)
Definition clip_max (x lo : float) : float :=
  if is_nan x then x else if lo <? x then x else lo.

Definition clip_min (x hi : float) : float :=
  if is_nan x then x else if x <? hi then x else hi.

Definition clip1 (lo hi x : float) : float := clip_min (clip_max x lo) hi.

Definition clip (a : list grid) (lo hi : float) : list grid :=
  map (map (map (clip1 lo hi))) a.

(** Indexing one axis with a Python integer: a negative index counts from
    the end, anything else out of range raises [IndexError]. *)
Definition index {A : Type} (l : list A) (i : Z) : option A :=
  let n := Z.of_nat (List.length l) in
  if ((0 <=? i) && (i <? n))%Z then nth_error l (Z.to_nat i)
  else if ((- n <=? i) && (i <? 0))%Z then nth_error l (Z.to_nat (n + i))
  else None.

(** [a[:, row, col]]. *)
Definition slice_pixel (a : list grid) (row col : Z) : option (list float) :=
  mapM (fun band => r <- index band row ;; index r col) a.

(** The [minimum] and [maximum] reductions over a whole array, in memory
    order; a NaN propagates, an empty array raises [ValueError]. *)
Definition minimum (a b : float) : float :=
  if (a <=? b) || is_nan a then a else b.

Definition maximum (a b : float) : float :=
  if (b <=? a) || is_nan a then a else b.

Definition reduce (f : float -> float -> float) (g : grid) : option float :=
  match concat g with
  | [] => None
  | x :: xs => Some (fold_left f xs x)
  end.

Definition min (g : grid) : option float := reduce minimum g.
Definition max (g : grid) : option float := reduce maximum g.

(** The random generator ([np.random.Generator]) as the script sees it: a
    state, its seeding from an integer, and one draw of [normal(loc, scale)],
    which returns the sample and the advanced state. *)
Record Generator : Type := mkGenerator {
  state : Type;
  seed_state : Z -> state;
  normal1 : float -> float -> state -> float * state
}.

(** [np.random.default_rng(seed)]: an integer seed fixes the initial state;
    without one ([None]) the state comes from fresh entropy of the operating
    system, [os_entropy] in this run. *)
Definition default_rng (G : Generator) (seed : option Z) (os_entropy : Z)
  : state G :=
  seed_state G (match seed with Some n => n | None => os_entropy end).

(** [rng.normal(loc, scale, size=n)] and [size=(rows, cols)]: the samples fill
    the array in row-major order, each draw advancing the state. *)
Fixpoint normal_row (G : Generator) (loc scale : float) (n : nat) (g : state G)
  : list float * state G :=
  match n with
  | O => ([], g)
  | S k =>
      let (x, g1) := normal1 G loc scale g in
      let (xs, g2) := normal_row G loc scale k g1 in
      (x :: xs, g2)
  end.

Fixpoint normal (G : Generator) (loc scale : float) (rows cols : nat)
  (g : state G) : grid * state G :=
  match rows with
  | O => ([], g)
  | S k =>
      let (r, g1) := normal_row G loc scale cols g in
      let (rs, g2) := normal G loc scale k cols g1 in
      (r :: rs, g2)
  end.

End Np.

(** ** The pandas functions the script calls *)

Module Pd.

Record Row : Type := mkRow {
  Band : string;
  Wavelength_nm : Z;
  Reflectance : float
}.

Definition DataFrame := list Row.

(** [pd.DataFrame({...})] from three columns; columns of different lengths
    raise [ValueError]. *)
Fixpoint from_columns (bands : list string) (wl : list Z) (refl : list float)
  : option DataFrame :=
  match bands, wl, refl with
  | [], [], [] => Some []
  | b :: bs, w :: ws, r :: rs =>
      rest <- from_columns bs ws rs ;; Some (mkRow b w r :: rest)
  | _, _, _ => None
  end.

(** [sort_values("Wavelength_nm")]: ascending by the key; rows of equal key
    keep their order. *)
Fixpoint insert (r : Row) (d : DataFrame) : DataFrame :=
  match d with
  | [] => [r]
  | h :: t =>
      if (Wavelength_nm r <? Wavelength_nm h)%Z then r :: h :: t
      else h :: insert r t
  end.

Definition sort_values (d : DataFrame) : DataFrame :=
  fold_left (fun sorted r => insert r sorted) d [].

(** [df.loc[df["Band"] == name, "Reflectance"]]. *)
Definition loc_reflectance (d : DataFrame) (name : string) : list float :=
  map Reflectance (filter (fun r => String.eqb (Band r) name) d).

(** [.iloc[0]]: the first element, [IndexError] on an empty selection. *)
Definition iloc0 (s : list float) : option float := hd_error s.

End Pd.

(** ** 1) Band metadata *)

Definition BANDS : list string :=
  ["Blue"; "Green"; "Red"; "NIR"; "SWIR1"; "SWIR2"]%string.

Definition WAVELENGTH_NM : list Z := [490; 560; 665; 865; 1610; 2200]%Z.

Definition N_BANDS : nat := List.length BANDS.
Definition ROWS : nat := 3.
Definition COLS : nat := 3.

(** ** 2) The synthetic raster stack, shape (bands, rows, cols) *)

Definition BASE : list float := [0.12; 0.18; 0.22; 0.46; 0.31; 0.27]%float.

(** [grad] is recomputed in every iteration of the loop, to the same value. *)
Definition grad : grid :=
  Np.outer_add (Np.scale (Np.arange ROWS) 0.01%float)
               (Np.scale (Np.arange COLS) 0.005%float).

(** One iteration of [for b in range(N_BANDS)]: draw the noise, then assign
    [raster[b] = BASE[b] + grad + noise]. *)
Definition fill_band (G : Np.Generator) (st : Np.state G * list grid) (b : nat)
  : Np.state G * list grid :=
  let (g, raster) := st in
  let (noise, g') := Np.normal G 0%float 0.002%float ROWS COLS g in
  (g', set_nth b (Np.grid_add (Np.scalar_add (nth b BASE 0%float) grad) noise)
               raster).

Definition rng (G : Np.Generator) (os_entropy : Z) : Np.state G :=
  Np.default_rng G (Some 42%Z) os_entropy.

Definition raster_filled (G : Np.Generator) (os_entropy : Z) : list grid :=
  snd (fold_left (fill_band G) (seq 0 N_BANDS)
         (rng G os_entropy, Np.zeros3 N_BANDS ROWS COLS)).

Definition raster (G : Np.Generator) (os_entropy : Z) : list grid :=
  Np.clip (raster_filled G os_entropy) 0%float 1%float.

(** The shape of an array of two axes, and of three. *)
Definition grid_shape (rows cols : nat) (g : grid) : Prop :=
  List.length g = rows /\ Forall (fun r => List.length r = cols) g.

Definition has_shape (bands rows cols : nat) (a : list grid) : Prop :=
  List.length a = bands /\ Forall (grid_shape rows cols) a.

(** A property of every element of the raster. *)
Definition all_elements (P : float -> Prop) (a : list grid) : Prop :=
  Forall (Forall (Forall P)) a.

(** ** 3) Georeferencing *)

Definition CRS : string := "EPSG:4326"%string.
Definition X0 : float := (-59.0)%float.
Definition Y0 : float := 15.0%float.
Definition XRES : float := 0.01%float.
Definition YRES : float := 0.01%float.

(** [row] and [col] are Python numbers; an [int] argument is promoted to
    [float] by the first arithmetic operation it meets ([col + 0.5],
    [col * xres]), so the embedding takes them as floats already. *)
Definition rowcol_to_xy (row col x0 y0 xres yres : float) (center : bool)
  : float * float :=
  if center then
    (x0 + (col + 0.5) * xres, y0 - (row + 0.5) * yres)%float
  else
    (x0 + col * xres, y0 - row * yres)%float.

(** [|a - b| < tol], the comparison of a tolerance test. *)
Definition within (tol a b : float) : bool := (abs (a - b) <? tol)%float.

(** ** 4) The pixel spectrum *)

Definition row : Z := 1.
Definition col : Z := 2.

(** The table of one pixel, any pixel: the slice across the bands, the three
    columns, the sort. *)
Definition spectrum_table (a : list grid) (r c : Z) : option Pd.DataFrame :=
  pixel_spectrum <- Np.slice_pixel a r c ;;
  d <- Pd.from_columns BANDS WAVELENGTH_NM pixel_spectrum ;;
  Some (Pd.sort_values d).

Definition pixel_spectrum (G : Np.Generator) (os_entropy : Z)
  : option (list float) :=
  Np.slice_pixel (raster G os_entropy) row col.

Definition lon_lat : float * float :=
  rowcol_to_xy (Np.float_of_Z row) (Np.float_of_Z col) X0 Y0 XRES YRES true.

Definition df (G : Np.Generator) (os_entropy : Z) : option Pd.DataFrame :=
  spectrum_table (raster G os_entropy) row col.

(** ** 6) NDVI *)

(** The quotient is one of [numpy.float64] scalars: a zero denominator gives
    the IEEE result (and a warning), not [ZeroDivisionError]. *)
Definition ndvi_formula (nir red : float) : float :=
  ((nir - red) / (nir + red))%float.

Definition ndvi_of_table (d : Pd.DataFrame) : option float :=
  nir <- Pd.iloc0 (Pd.loc_reflectance d "NIR") ;;
  red <- Pd.iloc0 (Pd.loc_reflectance d "Red") ;;
  Some (ndvi_formula nir red).

Definition ndvi (G : Np.Generator) (os_entropy : Z) : option float :=
  d <- df G os_entropy ;; ndvi_of_table d.

(** ** 7) Raster band statistics *)

Record BandStatistic : Type := mkStat {
  stat_band : string;
  stat_min : float;
  stat_max : float;
  stat_mean : float
}.

(** [for b, band_name in enumerate(BANDS)]: one line per band.  [mean] is
    NumPy's floating-point mean of a whole band, a parameter here. *)
Definition band_statistics (mean : grid -> float) (a : list grid)
  : option (list BandStatistic) :=
  mapM (fun '(b, band_name) =>
          band_data <- nth_error a b ;;
          mn <- Np.min band_data ;;
          mx <- Np.max band_data ;;
          Some (mkStat band_name mn mx (mean band_data)))
       (combine (seq 0 (List.length BANDS)) BANDS).

(** A value of the closed interval [0, 1]. *)
Definition in_unit (x : float) : bool := ((0 <=? x) && (x <=? 1))%float.

(** [a[b, r, c]]: one element of the raster. *)
Definition pixel_value (a : list grid) (b : nat) (r c : Z) : option float :=
  band <- nth_error a b ;; rw <- Np.index band r ;; Np.index rw c.

(** A point moved by half a pixel: east by [0.5 * xres], south by
    [0.5 * yres]. *)
Definition shift_half_pixel (xy : float * float) (xres yres : float)
  : float * float :=
  (fst xy + 0.5 * xres, snd xy - 0.5 * yres)%float.

(** The sort by wavelength changes the order of the rows of the table built
    from the registry and a reflectance column. *)
Definition sort_reorders_rows (refl : list float) : Prop :=
  exists d, Pd.from_columns BANDS WAVELENGTH_NM refl = Some d /\
            Pd.sort_values d <> d.

(** Ascending order of the rows by wavelength, weak and strict. *)
Definition key_le (x y : Pd.Row) : Prop :=
  (Pd.Wavelength_nm x <= Pd.Wavelength_nm y)%Z.

Definition ascending_by_wavelength (d : Pd.DataFrame) : Prop :=
  StronglySorted (fun x y => (Pd.Wavelength_nm x < Pd.Wavelength_nm y)%Z) d.

(** The sorted table of the registry and a reflectance column of six
    values; empty when the column has another length. *)
Definition table_of (refl : list float) : Pd.DataFrame :=
  match Pd.from_columns BANDS WAVELENGTH_NM refl with
  | Some d => Pd.sort_values d
  | None => []
  end.

(** A generator to run the script on: two states, the samples alternate
    between one and a half scales above [loc] and three quarters below. *)
Definition square_wave : Np.Generator :=
  Np.mkGenerator bool Z.odd
    (fun loc scale g =>
       ((loc + scale * (if g then 1.5 else -0.75))%float, negb g)).


(** ** Notions for the rounding of binary64

    [between m l N D]: the number [N / D] lies in [m, m + 1), and strictly
    above [m] when the location [l] says the mantissa is inexact. *)
Definition between (m : Z) (l : location) (N D : Z) : Prop :=
  (0 < D /\ m * D <= N < (m + 1) * D /\ (l <> loc_Exact -> m * D < N))%Z.

(** The exponent function of binary64. *)
Definition fexp64 (x : Z) : Z := Z.max (x - 53) (-1074).

(** The mantissa of 1.0, which is [2^52 * 2^-52]. *)
Definition one_mantissa : positive := 4503599627370496.

(** Zero or a positive finite number. *)
Definition nonneg_finite (x : spec_float) : Prop :=
  match x with
  | S754_zero _ | S754_finite false _ _ => True
  | _ => False
  end.

(** A number of magnitude at most one, in the canonical representation. *)
Definition magnitude_le_one (x : spec_float) : Prop :=
  match x with
  | S754_zero _ => True
  | S754_finite _ m e =>
      (e <= -52 /\ Zpos m <= Zpos one_mantissa * 2 ^ (-52 - e))%Z
  | _ => False
  end.

(** ** Notions for the synthesis loop *)

(** The samples the synthesis consumes, in the order of the draws. *)
Definition noise_stream (G : Np.Generator) (os_entropy : Z) : list float :=
  fst (Np.normal_row G 0%float 0.002%float (N_BANDS * ROWS * COLS)
         (rng G os_entropy)).

(** The first [n] samples of [normal(0, 0.002)] of a generator that starts
    from the integer [seed]: what a run of NumPy reproduces from the seed. *)
Definition seeded_samples (G : Np.Generator) (seed : Z) (n : nat)
  : list float :=
  fst (Np.normal_row G 0%float 0.002%float n (Np.seed_state G seed)).

(** The value the loop assigns to [raster[b, r, c]], before the clip: the
    base reflectance, the gradient [r * 0.01 + c * 0.005] and the sample
    number [9 * b + 3 * r + c]. *)
Definition synthetic_value (G : Np.Generator) (os_entropy : Z) (b r c : nat)
  : float :=
  (nth b BASE 0
   + (Np.float_of_Z (Z.of_nat r) * 0.01 + Np.float_of_Z (Z.of_nat c) * 0.005)
   + nth (9 * b + 3 * r + c) (noise_stream G os_entropy) 0)%float.

(** The band the loop assigns to [raster[b]] when the generator is in the
    state [g]. *)
Definition synthetic_band (G : Np.Generator) (b : nat) (g : Np.state G)
  : grid :=
  Np.grid_add (Np.scalar_add (nth b BASE 0%float) grad)
              (fst (Np.normal G 0%float 0.002%float ROWS COLS g)).

(** A generator with the samples of [square_wave] and a state of its own:
    a counter of the draws. *)
Definition square_wave_counter : Np.Generator :=
  Np.mkGenerator nat Z.to_nat
    (fun loc scale n =>
       ((loc + scale * (if Nat.odd n then 1.5 else -0.75))%float, S n)).

(** A sample of [-0.1, 0.5]; a base-plus-gradient value that such a sample
    keeps strictly inside (0, 1); a value strictly inside (0, 1). *)
Definition small_noise (s : float) : Prop :=
  (-0.1 <=? s)%float = true /\ (s <=? 0.5)%float = true.

Definition room_for_noise (x : float) : bool :=
  (is_finite x && (0 <? x + -0.1) && (x + 0.5 <? 1))%float.

Definition strictly_inside (v : float) : Prop :=
  (0 <? v)%float = true /\ (v <? 1)%float = true.

(** A mean to run the statistics on: the terms added one after the other,
    the sum divided by their number. *)
Definition chain_mean (g : grid) : float :=
  (fold_left add (concat g) 0
   / Np.float_of_Z (Z.of_nat (List.length (concat g))))%float.

(** The statistics of an array; none when the loop raises. *)
Definition statistics_of (mean : grid -> float) (a : list grid)
  : list BandStatistic :=
  match band_statistics mean a with
  | Some stats => stats
  | None => []
  end.

(** ** Notions for the monotonicity of binary64 arithmetic

    [inbetween m l N D]: the number [N / D] is [m] when the location is
    exact, and otherwise lies strictly between [m] and [m + 1], below, at or
    above the middle as the location says. *)
Definition inbetween (m : Z) (l : location) (N D : Z) : Prop :=
  (0 < D)%Z /\
  match l with
  | loc_Exact => N = (m * D)%Z
  | loc_Inexact c =>
      (m * D < N < (m + 1) * D)%Z /\ (2 * N ?= (2 * m + 1) * D)%Z = c
  end.

(** The last step of a rounding: a mantissa [mr] of at most 54 digits at
    the exponent [c] becomes a float, the 54-digit one [2^53] moving to the
    next exponent. *)
Definition finalize (s : bool) (mr c : Z) : spec_float :=
  let (m', c') :=
    if (mr <? 2 * Zpos one_mantissa)%Z then (mr, c)
    else (Zpos one_mantissa, (c + 1)%Z) in
  match m' with
  | Z0 => S754_zero s
  | Zpos p => if (c' <=? 971)%Z then S754_finite s p c' else S754_infinity s
  | Zneg _ => S754_nan
  end.

(** The integer [x * 2^1074] of a finite float [x]; 0 for the others. *)
Definition scaled (x : spec_float) : Z :=
  match x with
  | S754_finite s m e => (cond_Zopp s (Zpos m) * 2 ^ (e + 1074))%Z
  | _ => 0%Z
  end.

(** A zero or a finite float. *)
Definition finite_or_zero (x : spec_float) : Prop :=
  match x with
  | S754_zero _ | S754_finite _ _ _ => True
  | _ => False
  end.

(** * Properties *)

(** ** Binary64 facts, from the specification of the primitive operations *)

Lemma SFcompare_refl (f : spec_float) :
  f <> S754_nan -> SFcompare f f = Some Eq.
Proof.
  destruct f as [s | s | | s m e]; simpl; try congruence; intros _.
  - destruct s; reflexivity.
  - rewrite Z.compare_refl, Pos.compare_cont_refl. destruct s; reflexivity.
Qed.

Lemma is_nan_true (x : float) : is_nan x = true <-> Prim2SF x = S754_nan.
Proof.
  unfold is_nan. rewrite FloatAxioms.eqb_spec. unfold SFeqb. split.
  - destruct (Prim2SF x) eqn:E; try reflexivity;
      rewrite SFcompare_refl by discriminate; discriminate.
  - intros ->. reflexivity.
Qed.

Lemma is_nan_false (x : float) : is_nan x = false <-> Prim2SF x <> S754_nan.
Proof.
  rewrite <- is_nan_true. destruct (is_nan x); split; congruence.
Qed.

Lemma ltb_leb (x y : float) : (x <? y)%float = true -> (x <=? y)%float = true.
Proof.
  rewrite FloatAxioms.ltb_spec, FloatAxioms.leb_spec. unfold SFltb, SFleb.
  destruct (SFcompare (Prim2SF x) (Prim2SF y)) as [[ | | ] | ]; congruence.
Qed.

Lemma leb_not_nan_l (x y : float) : (x <=? y)%float = true -> is_nan x = false.
Proof.
  rewrite FloatAxioms.leb_spec, is_nan_false. unfold SFleb.
  destruct (Prim2SF x); simpl; congruence.
Qed.

Lemma leb_not_nan_r (x y : float) : (x <=? y)%float = true -> is_nan y = false.
Proof.
  rewrite FloatAxioms.leb_spec, is_nan_false. unfold SFleb.
  destruct (Prim2SF x), (Prim2SF y); simpl; congruence.
Qed.

(** Rounding never invents a NaN: the mantissa stays non-negative through the
    shifts. *)
Lemma iter_pos_invariant {A : Type} (P : A -> Prop) (f : A -> A) :
  (forall a, P a -> P (f a)) -> forall n a, P a -> P (SpecFloat.iter_pos f n a).
Proof.
  intros Hf. induction n as [n IH | n IH | ]; simpl; intros a Ha; auto.
Qed.

Lemma shr_1_nonneg (mrs : shr_record) :
  (0 <= shr_m mrs)%Z -> (0 <= shr_m (shr_1 mrs))%Z.
Proof.
  destruct mrs as [m r s]. simpl.
  destruct m as [ | [p | p | ] | p]; simpl; lia.
Qed.

Lemma shr_nonneg (mrs : shr_record) (e n : Z) :
  (0 <= shr_m mrs)%Z -> (0 <= shr_m (fst (shr mrs e n)))%Z.
Proof.
  intros H. destruct n; simpl; auto.
  apply iter_pos_invariant with (P := fun r => (0 <= shr_m r)%Z); auto.
  apply shr_1_nonneg.
Qed.

Lemma shr_fexp_nonneg (m e : Z) (l : location) :
  (0 <= m)%Z -> (0 <= shr_m (fst (shr_fexp prec emax m e l)))%Z.
Proof.
  intros H. unfold shr_fexp. apply shr_nonneg.
  destruct l as [ | [ | | ]]; exact H.
Qed.

Lemma round_nearest_even_nonneg (m : Z) (l : location) :
  (0 <= m)%Z -> (0 <= round_nearest_even m l)%Z.
Proof.
  destruct l as [ | [ | | ]]; simpl; try lia.
  destruct (Z.even m); lia.
Qed.

Lemma binary_round_aux_not_nan (s : bool) (m e : Z) (l : location) :
  (0 <= m)%Z -> binary_round_aux prec emax s m e l <> S754_nan.
Proof.
  intros H. unfold binary_round_aux.
  pose proof (shr_fexp_nonneg m e l H) as H1.
  destruct (shr_fexp prec emax m e l) as [mrs' e'].
  pose proof (shr_fexp_nonneg
                (round_nearest_even (shr_m mrs') (loc_of_shr_record mrs')) e'
                loc_Exact (round_nearest_even_nonneg _ _ H1)) as H2.
  destruct (shr_fexp prec emax _ e' loc_Exact) as [mrs'' e''].
  simpl in H2. destruct (shr_m mrs''); try lia; try discriminate.
  destruct (e'' <=? emax - prec)%Z; discriminate.
Qed.

Lemma binary_normalize_not_nan (m e : Z) (sz : bool) :
  binary_normalize prec emax m e sz <> S754_nan.
Proof.
  destruct m; simpl; try discriminate; unfold binary_round;
    destruct (shl_align _ _ _); apply binary_round_aux_not_nan; lia.
Qed.

(** A sum is a NaN only when a term is one, or the terms are the two
    infinities. *)
Lemma SF64add_not_nan (x y : spec_float) :
  x <> S754_nan -> y <> S754_nan ->
  (forall s, x <> S754_infinity s) ->
  SF64add x y <> S754_nan.
Proof.
  intros Hx Hy Hi. unfold SF64add, SFadd.
  destruct x as [sx | sx | | sx mx ex]; try congruence;
    try (exfalso; exact (Hi sx eq_refl));
    destruct y as [sy | sy | | sy my ey]; try congruence; try discriminate.
  - destruct sx, sy; discriminate.
  - apply binary_normalize_not_nan.
Qed.

Lemma is_finite_true (x : float) :
  is_finite x = true ->
  Prim2SF x <> S754_nan /\ forall s, Prim2SF x <> S754_infinity s.
Proof.
  unfold is_finite. rewrite negb_true_iff, orb_false_iff.
  intros [Hn Hi]. split; [apply is_nan_false, Hn | ].
  intros s E. unfold is_infinity in Hi.
  rewrite FloatAxioms.eqb_spec, FloatAxioms.abs_spec, E in Hi. discriminate.
Qed.

Lemma add_not_nan (x y : float) :
  is_finite x = true -> is_nan y = false -> is_nan (x + y) = false.
Proof.
  intros Hx Hy. apply is_finite_true in Hx. destruct Hx as [Hn Hi].
  apply is_nan_false. rewrite FloatAxioms.add_spec.
  apply SF64add_not_nan; auto. apply is_nan_false, Hy.
Qed.

(** ** Binary64 rounding against representable bounds *)

Section Rounding.

Local Open Scope Z_scope.

(** *** Number of binary digits *)

Lemma digits2_pos_bounds (p : positive) :
  2 ^ (Zpos (digits2_pos p) - 1) <= Zpos p < 2 ^ Zpos (digits2_pos p).
Proof.
  induction p as [p IH | p IH | ]; simpl digits2_pos;
    [change (Zpos p~1) with (2 * Zpos p + 1)
    | change (Zpos p~0) with (2 * Zpos p) | simpl; lia].
  all: rewrite Pos2Z.inj_succ.
  all: replace (Z.succ (Zpos (digits2_pos p)) - 1)
         with (Z.succ (Zpos (digits2_pos p) - 1)) by lia.
  all: rewrite !Z.pow_succ_r by lia.
  all: revert IH; generalize (2 ^ (Zpos (digits2_pos p) - 1));
       generalize (2 ^ Zpos (digits2_pos p)); intros; lia.
Qed.

Lemma Zdigits2_bounds (m : Z) :
  0 < m -> 2 ^ (Zdigits2 m - 1) <= m < 2 ^ Zdigits2 m.
Proof.
  destruct m as [ | p | p]; try lia. intros _. apply digits2_pos_bounds.
Qed.

Lemma Zdigits2_pos (m : Z) : 0 < m -> 0 < Zdigits2 m.
Proof. destruct m; simpl; lia. Qed.

(** The digits of a positive number are pinned by the powers around it. *)
Lemma Zdigits2_le_of_lt_pow (m k : Z) : 0 <= k -> 0 < m -> m < 2 ^ k -> Zdigits2 m <= k.
Proof.
  intros Hk Hm Hlt. pose proof (Zdigits2_bounds m Hm) as [Hlo _].
  pose proof (Zdigits2_pos m Hm) as Hd.
  destruct (Z.le_gt_cases (Zdigits2 m) k) as [ | Hgt]; [assumption | exfalso].
  assert (2 ^ k <= 2 ^ (Zdigits2 m - 1)) by (apply Z.pow_le_mono_r; lia).
  lia.
Qed.

Lemma Zdigits2_gt_of_pow_le (m k : Z) : 0 <= k -> 2 ^ k <= m -> k < Zdigits2 m.
Proof.
  intros Hk Hle.
  assert (0 < m) as Hm by (pose proof (Z.pow_pos_nonneg 2 k); lia).
  pose proof (Zdigits2_bounds m Hm) as [_ Hhi].
  pose proof (Zdigits2_pos m Hm) as Hd.
  destruct (Z.lt_ge_cases k (Zdigits2 m)) as [ | Hge]; [assumption | exfalso].
  assert (2 ^ Zdigits2 m <= 2 ^ k) by (apply Z.pow_le_mono_r; lia).
  lia.
Qed.

(** A bound by a shifted mantissa bounds the digits. *)
Lemma Zdigits2_le_shifted (m mF j : Z) :
  0 < m -> 0 < mF -> 0 <= j -> m <= mF * 2 ^ j -> Zdigits2 m <= Zdigits2 mF + j.
Proof.
  intros Hm HF Hj Hle. pose proof (Zdigits2_bounds mF HF) as [_ Hhi].
  pose proof (Zdigits2_pos mF HF) as Hd.
  apply Zdigits2_le_of_lt_pow; try lia.
  rewrite Z.pow_add_r by lia.
  pose proof (Z.pow_pos_nonneg 2 j). nia.
Qed.

Lemma Zdigits2_ge_shifted (m mF j : Z) :
  0 < mF -> 0 <= j -> mF * 2 ^ j <= m -> Zdigits2 mF + j <= Zdigits2 m.
Proof.
  intros HF Hj Hle. pose proof (Zdigits2_bounds mF HF) as [Hlo _].
  pose proof (Zdigits2_pos mF HF) as Hd.
  assert (Zdigits2 mF - 1 + j < Zdigits2 m); [ | lia].
  apply Zdigits2_gt_of_pow_le; try lia.
  rewrite Z.pow_add_r by lia.
  pose proof (Z.pow_pos_nonneg 2 j). nia.
Qed.

Lemma Zdigits2_shift (m j : Z) : 0 < m -> 0 <= j -> Zdigits2 (m * 2 ^ j) = Zdigits2 m + j.
Proof.
  intros Hm Hj. pose proof (Z.pow_pos_nonneg 2 j).
  apply Z.le_antisymm.
  - apply Zdigits2_le_shifted; lia.
  - apply Zdigits2_ge_shifted; lia.
Qed.

(** *** Shifting a mantissa right *)

Lemma shr_1_between (mrs : shr_record) (N D : Z) :
  0 <= shr_m mrs /\ between (shr_m mrs) (loc_of_shr_record mrs) N D ->
  0 <= shr_m (shr_1 mrs) /\
  between (shr_m (shr_1 mrs)) (loc_of_shr_record (shr_1 mrs)) N (2 * D).
Proof.
  unfold between. destruct mrs as [m r s].
  destruct m as [ | [p | p | ] | p]; destruct r, s;
    cbn [shr_1 shr_m loc_of_shr_record orb];
    try change (Zpos p~1) with (2 * Zpos p + 1);
    try change (Zpos p~0) with (2 * Zpos p);
    intros (Hm & HD & Hb & Hl); try lia;
    (split; [lia | split; [lia | split; [lia | ]]]);
    intros H; try congruence;
    try (assert (loc_Inexact Lt <> loc_Exact) as H1 by discriminate;
         specialize (Hl H1));
    try (assert (loc_Inexact Eq <> loc_Exact) as H2 by discriminate;
         specialize (Hl H2));
    try (assert (loc_Inexact Gt <> loc_Exact) as H3 by discriminate;
         specialize (Hl H3));
    lia.
Qed.

Lemma iter_pos_count {A : Type} (f : A -> A) (Q : Z -> A -> Prop) :
  (forall k a, 0 <= k -> Q k a -> Q (k + 1) (f a)) ->
  forall p k a, 0 <= k -> Q k a -> Q (k + Zpos p) (SpecFloat.iter_pos f p a).
Proof.
  intros Hf. induction p as [p IH | p IH | ]; intros k a Hk Ha; simpl.
  - replace (k + Zpos p~1) with (k + 1 + Zpos p + Zpos p) by lia.
    apply IH; [lia | ]. apply IH; [lia | ]. apply Hf; assumption.
  - replace (k + Zpos p~0) with (k + Zpos p + Zpos p) by lia.
    apply IH; [lia | ]. apply IH; assumption.
  - apply Hf; assumption.
Qed.

Lemma shr_between (mrs : shr_record) (e n : Z) (N D : Z) :
  0 <= shr_m mrs -> between (shr_m mrs) (loc_of_shr_record mrs) N D ->
  snd (shr mrs e n) = e + Z.max 0 n /\
  0 <= shr_m (fst (shr mrs e n)) /\
  between (shr_m (fst (shr mrs e n)))
          (loc_of_shr_record (fst (shr mrs e n))) N (2 ^ Z.max 0 n * D).
Proof.
  intros Hm Hb. destruct n as [ | p | p]; unfold shr; cbn [fst snd].
  - change (Z.max 0 0) with 0. change (2 ^ 0) with 1. rewrite Z.mul_1_l.
    split; [lia | ]. split; assumption.
  - change (Z.max 0 (Zpos p)) with (0 + Zpos p). split; [lia | ].
    apply (iter_pos_count shr_1
      (fun k r => 0 <= shr_m r /\
                  between (shr_m r) (loc_of_shr_record r) N (2 ^ k * D))).
    + intros k a Hk Ha.
      replace (2 ^ (k + 1) * D) with (2 * (2 ^ k * D)).
      * apply shr_1_between. exact Ha.
      * rewrite Z.pow_add_r by lia. change (2 ^ 1) with 2. lia.
    + lia.
    + change (2 ^ 0) with 1. rewrite Z.mul_1_l. split; assumption.
  - change (Z.max 0 (Zneg p)) with 0. change (2 ^ 0) with 1. rewrite Z.mul_1_l.
    split; [lia | ]. split; assumption.
Qed.

Lemma shr_record_of_loc_m (m : Z) (l : location) :
  shr_m (shr_record_of_loc m l) = m.
Proof. destruct l as [ | [ | | ]]; reflexivity. Qed.

Lemma loc_of_shr_record_of_loc (m : Z) (l : location) :
  loc_of_shr_record (shr_record_of_loc m l) = l.
Proof. destruct l as [ | [ | | ]]; reflexivity. Qed.

Lemma fexp_fexp64 (x : Z) : fexp prec emax x = fexp64 x.
Proof. reflexivity. Qed.

Lemma shr_fexp_between (m e : Z) (l : location) (N D : Z) :
  0 <= m -> between m l N D ->
  forall mrs e1, shr_fexp prec emax m e l = (mrs, e1) ->
  e1 = Z.max e (fexp64 (Zdigits2 m + e)) /\
  0 <= shr_m mrs /\
  between (shr_m mrs) (loc_of_shr_record mrs) N (2 ^ (e1 - e) * D).
Proof.
  intros Hm Hb mrs e1 E. unfold shr_fexp in E. rewrite fexp_fexp64 in E.
  pose proof (shr_between (shr_record_of_loc m l) e
                (fexp64 (Zdigits2 m + e) - e) N D) as H.
  rewrite shr_record_of_loc_m, loc_of_shr_record_of_loc in H.
  specialize (H Hm Hb). rewrite E in H. cbn [fst snd] in H.
  destruct H as (He & Hm1 & Hb1).
  assert (e1 - e = Z.max 0 (fexp64 (Zdigits2 m + e) - e)) as Hk by lia.
  rewrite Hk. split; [lia | ]. split; assumption.
Qed.

Lemma round_nearest_even_range (m : Z) (l : location) :
  m <= round_nearest_even m l <= m + 1 /\
  (l = loc_Exact -> round_nearest_even m l = m).
Proof.
  destruct l as [ | [ | | ]]; simpl; try destruct (Z.even m);
    (split; [lia | ]); intros H; try discriminate H; reflexivity.
Qed.

Lemma bounded_canonical (mF : positive) (eF : Z) :
  bounded prec emax mF eF = true ->
  fexp64 (Zdigits2 (Zpos mF) + eF) = eF /\ eF <= 971.
Proof.
  unfold bounded, canonical_mantissa. rewrite fexp_fexp64.
  intros H. apply andb_true_iff in H. destruct H as [H1 H2].
  apply Z.eqb_eq in H1. apply Z.leb_le in H2. split; [exact H1 | exact H2].
Qed.

Lemma pow2_split (a b c : Z) :
  a <= b -> b <= c -> 2 ^ (c - a) = 2 ^ (c - b) * 2 ^ (b - a).
Proof.
  intros Hab Hbc. rewrite <- Z.pow_add_r by lia. f_equal. lia.
Qed.

Lemma pow2_pos (k : Z) : 0 <= k -> 0 < 2 ^ k.
Proof. intros Hk. apply Z.pow_pos_nonneg; lia. Qed.

(** *** Rounding stays below a representable bound

    The number [N / D * 2^e], of mantissa [m] and location [l], is at most
    the float [mF * 2^eF]: so is the rounded result, which is then zero or
    finite. *)
Lemma binary_round_aux_upper (s : bool) (m e : Z) (l : location) (N D : Z)
  (mF : positive) (eF : Z) :
  0 <= m -> between m l N D ->
  bounded prec emax mF eF = true ->
  e <= eF -> N <= Zpos mF * 2 ^ (eF - e) * D ->
  match binary_round_aux prec emax s m e l with
  | S754_zero s' => s' = s
  | S754_finite s' m2 e2 =>
      s' = s /\ e2 <= eF /\ Zpos m2 <= Zpos mF * 2 ^ (eF - e2)
  | _ => False
  end.
Proof.
  intros Hm Hb HF He HN.
  destruct (bounded_canonical mF eF HF) as [Hcan Hmax].
  pose proof (Zdigits2_pos (Zpos mF) eq_refl) as HdF.
  unfold binary_round_aux.
  destruct (shr_fexp prec emax m e l) as [mrs1 e1] eqn:E1.
  destruct (shr_fexp_between m e l N D Hm Hb mrs1 e1 E1) as (He1 & Hm1 & Hb1).
  set (m1 := shr_m mrs1) in *. set (l1 := loc_of_shr_record mrs1) in *.
  (* the bound is on the grid of the shifted mantissa *)
  assert (e1 <= eF) as He1F.
  { assert (Zdigits2 m + e <= Zdigits2 (Zpos mF) + eF) as Hd.
    { destruct (Z.eq_dec m 0) as [-> | Hne];
        [change (Zdigits2 0) with 0; lia | ].
      assert (Zdigits2 m <= Zdigits2 (Zpos mF) + (eF - e)); [ | lia].
      apply Zdigits2_le_shifted; try lia.
      destruct Hb as (HD & [Hlo _] & _).
      pose proof (pow2_pos (eF - e)). nia. }
    unfold fexp64 in *. lia. }
  assert (e <= e1) as Hee1 by lia.
  assert (N <= Zpos mF * 2 ^ (eF - e1) * (2 ^ (e1 - e) * D)) as HN1.
  { rewrite (pow2_split e e1 eF) in HN by assumption. lia. }
  pose proof (round_nearest_even_range m1 l1) as [[Hr1 Hr2] Hr3].
  set (mr := round_nearest_even m1 l1) in *.
  assert (mr <= Zpos mF * 2 ^ (eF - e1)) as Hmr.
  { destruct Hb1 as (HD1 & [Hlo Hhi] & Hstrict).
    destruct l1 as [ | c] eqn:El.
    - rewrite Hr3 by reflexivity. nia.
    - assert (m1 * (2 ^ (e1 - e) * D) < N) by (apply Hstrict; discriminate).
      assert (m1 < Zpos mF * 2 ^ (eF - e1)) by nia. lia. }
  destruct (shr_fexp prec emax mr e1 loc_Exact) as [mrs2 e2] eqn:E2.
  assert (between mr loc_Exact mr 1) as Hbr.
  { unfold between. split; [lia | ]. split; [lia | ]. intros H. congruence. }
  destruct (shr_fexp_between mr e1 loc_Exact mr 1 ltac:(lia) Hbr mrs2 e2 E2)
    as (He2 & Hm2 & Hb2).
  set (m2 := shr_m mrs2) in *.
  assert (e2 <= eF) as He2F.
  { assert (Zdigits2 mr + e1 <= Zdigits2 (Zpos mF) + eF) as Hd.
    { destruct (Z.eq_dec mr 0) as [Hz | Hne];
        [rewrite Hz; change (Zdigits2 0) with 0; lia | ].
      assert (Zdigits2 mr <= Zdigits2 (Zpos mF) + (eF - e1)); [ | lia].
      apply Zdigits2_le_shifted; lia. }
    unfold fexp64 in *. lia. }
  assert (m2 <= Zpos mF * 2 ^ (eF - e2)) as Hm2F.
  { destruct Hb2 as (_ & [Hlo _] & _).
    rewrite (pow2_split e1 e2 eF) in Hmr by lia.
    pose proof (pow2_pos (e2 - e1)). pose proof (pow2_pos (eF - e2)). nia. }
  destruct m2 as [ | p | p] eqn:Em2; try lia.
  - reflexivity.
  - replace (e2 <=? emax - prec) with true
      by (symmetry; apply Z.leb_le; unfold emax, prec; lia).
    auto.
Qed.

(** *** Rounding stays above a representable bound

    The mantissa [m] at exponent [e], aligned for rounding, is at least the
    float [mF * 2^eF]: so is the rounded result, finite or infinite. *)
Lemma binary_round_aux_lower (m e : Z) (mF : positive) (eF : Z) :
  0 < m -> e <= fexp64 (Zdigits2 m + e) ->
  bounded prec emax mF eF = true ->
  (e <= eF -> Zpos mF * 2 ^ (eF - e) <= m) ->
  match binary_round_aux prec emax false m e loc_Exact with
  | S754_infinity false => True
  | S754_finite false m2 e2 => eF <= e2 /\ Zpos mF <= Zpos m2 * 2 ^ (e2 - eF)
  | _ => False
  end.
Proof.
  intros Hm Hal HF HN.
  destruct (bounded_canonical mF eF HF) as [Hcan Hmax].
  pose proof (Zdigits2_pos (Zpos mF) eq_refl) as HdF.
  pose proof (Zdigits2_bounds (Zpos mF) eq_refl) as [_ HmF].
  assert (Zdigits2 (Zpos mF) <= 53) as HdF53 by (unfold fexp64 in Hcan; lia).
  assert (Zpos mF < 2 ^ 53) as HmF53.
  { eapply Z.lt_le_trans; [exact HmF | ]. apply Z.pow_le_mono_r; lia. }
  assert (-1074 <= eF) as HeFmin by (unfold fexp64 in Hcan; lia).
  pose proof (Zdigits2_bounds m Hm) as [Hdlo Hdhi].
  pose proof (Zdigits2_pos m Hm) as Hd.
  unfold binary_round_aux.
  destruct (shr_fexp prec emax m e loc_Exact) as [mrs1 e1] eqn:E1.
  assert (between m loc_Exact m 1) as Hb.
  { unfold between. split; [lia | ]. split; [lia | ]. intros H. congruence. }
  destruct (shr_fexp_between m e loc_Exact m 1 ltac:(lia) Hb mrs1 e1 E1)
    as (He1 & Hm1 & Hb1).
  set (m1 := shr_m mrs1) in *. set (l1 := loc_of_shr_record mrs1) in *.
  assert (e1 = fexp64 (Zdigits2 m + e)) as He1' by lia.
  assert (e <= e1) as Hee1 by lia.
  destruct Hb1 as (_ & [Hlo1 Hhi1] & _). rewrite Z.mul_1_r in Hlo1, Hhi1.
  pose proof (pow2_pos (e1 - e) ltac:(lia)) as Hpk.
  (* either the bound sits at the exponent of the result, below its
     mantissa, or the result has a larger exponent and a full mantissa *)
  assert ((eF = e1 /\ Zpos mF <= m1) \/ (eF < e1 /\ 2 ^ 52 <= m1)) as Hcase.
  { destruct (Z.lt_ge_cases eF e1) as [Hlt | Hge].
    - right. split; [exact Hlt | ].
      assert (e1 - e = Zdigits2 m - 53) as Hk by (unfold fexp64 in *; lia).
      assert (2 ^ (Zdigits2 m - 1) = 2 ^ 52 * 2 ^ (e1 - e)) as Hsplit.
      { rewrite <- Z.pow_add_r by lia. f_equal. lia. }
      nia.
    - assert (Zpos mF * 2 ^ (eF - e1) <= m1) as HG.
      { specialize (HN ltac:(lia)).
        rewrite (pow2_split e e1 eF) in HN by lia.
        pose proof (pow2_pos (eF - e1) ltac:(lia)). nia. }
      assert (0 < m1) as Hm1pos.
      { pose proof (pow2_pos (eF - e1) ltac:(lia)). nia. }
      assert (Zdigits2 (Zpos mF) + (eF - e1) <= Zdigits2 m1) as Hd1
        by (apply Zdigits2_ge_shifted; lia).
      assert (Zdigits2 m1 + (e1 - e) <= Zdigits2 m) as Hd2
        by (apply Zdigits2_ge_shifted; lia).
      assert (eF = e1) as Heq by (unfold fexp64 in *; lia).
      left. split; [exact Heq | ].
      rewrite Heq, Z.sub_diag in HG. change (2 ^ 0) with 1 in HG. lia. }
  pose proof (round_nearest_even_range m1 l1) as [[Hr1 Hr2] _].
  set (mr := round_nearest_even m1 l1) in *.
  assert (0 < mr) as Hmrpos.
  { pose proof (pow2_pos 52 ltac:(lia)) as Hp52.
    destruct Hcase as [[_ H] | [_ H]]; lia. }
  destruct (shr_fexp prec emax mr e1 loc_Exact) as [mrs2 e2] eqn:E2.
  assert (between mr loc_Exact mr 1) as Hbr.
  { unfold between. split; [lia | ]. split; [lia | ]. intros H. congruence. }
  destruct (shr_fexp_between mr e1 loc_Exact mr 1 ltac:(lia) Hbr mrs2 e2 E2)
    as (He2 & Hm2 & Hb2).
  set (m2 := shr_m mrs2) in *.
  destruct Hb2 as (_ & [Hlo2 Hhi2] & _). rewrite Z.mul_1_r in Hlo2, Hhi2.
  pose proof (Zdigits2_bounds mr Hmrpos) as [Hrlo Hrhi].
  assert ((e2 = eF /\ Zpos mF <= m2) \/ (eF < e2 /\ 2 ^ 52 <= m2)) as Hres.
  { destruct (Z.eq_dec e2 e1) as [Heq | Hne].
    - rewrite Heq, Z.sub_diag in Hlo2, Hhi2. change (2 ^ 0) with 1 in *.
      assert (m2 = mr) as -> by lia.
      destruct Hcase as [[H1 H2] | [H1 H2]]; [left | right]; split; lia.
    - right.
      assert (e1 < e2) as Hlt by lia.
      assert (e2 - e1 = Zdigits2 mr - 53) as Hk by (unfold fexp64 in *; lia).
      assert (2 ^ (Zdigits2 mr - 1) = 2 ^ 52 * 2 ^ (e2 - e1)) as Hsplit.
      { rewrite <- Z.pow_add_r by lia. f_equal. lia. }
      pose proof (pow2_pos (e2 - e1) ltac:(lia)).
      split; [destruct Hcase as [[H1 _] | [H1 _]]; lia | nia]. }
  assert (0 < m2) as Hm2pos.
  { pose proof (pow2_pos 52 ltac:(lia)) as Hp52.
    destruct Hres as [[_ H] | [_ H]]; lia. }
  destruct m2 as [ | p | p] eqn:Em2; try lia.
  destruct (e2 <=? emax - prec); [ | exact I].
  destruct Hres as [[H1 H2] | [H1 H2]].
  - split; [lia | ]. rewrite H1, Z.sub_diag. change (2 ^ 0) with 1. lia.
  - split; [lia | ].
    assert (2 ^ 1 <= 2 ^ (e2 - eF)) by (apply Z.pow_le_mono_r; lia).
    change (2 ^ 1) with 2 in *. change (2 ^ 53) with (2 * 2 ^ 52) in HmF53.
    nia.
Qed.

(** *** Aligning a mantissa to a smaller exponent *)

Lemma pos_iter_xO (m d : positive) :
  Zpos (Pos.iter xO m d) = Zpos m * 2 ^ Zpos d.
Proof.
  induction d as [ | d IH] using Pos.peano_ind.
  - simpl. lia.
  - rewrite Pos.iter_succ, Pos2Z.inj_succ, Z.pow_succ_r by lia.
    change (Zpos (Pos.iter xO m d)~0) with (2 * Zpos (Pos.iter xO m d)).
    rewrite IH. lia.
Qed.

Lemma shl_align_spec (mx : positive) (ex ex' : Z) :
  snd (shl_align mx ex ex') = Z.min ex ex' /\
  Zpos (fst (shl_align mx ex ex')) = Zpos mx * 2 ^ (ex - Z.min ex ex').
Proof.
  unfold shl_align. destruct (ex' - ex) as [ | d | d] eqn:E; cbn [fst snd].
  - replace (Z.min ex ex') with ex by lia. rewrite Z.sub_diag.
    change (2 ^ 0) with 1. lia.
  - replace (Z.min ex ex') with ex by lia. rewrite Z.sub_diag.
    change (2 ^ 0) with 1. lia.
  - replace (Z.min ex ex') with ex' by lia. split; [reflexivity | ].
    rewrite pos_iter_xO. f_equal. f_equal. lia.
Qed.

Lemma between_exact (m : Z) : between m loc_Exact m 1.
Proof.
  unfold between. split; [lia | ]. split; [lia | ]. intros H. congruence.
Qed.

Lemma binary_round_upper (s : bool) (m : positive) (e : Z)
  (mF : positive) (eF : Z) :
  bounded prec emax mF eF = true ->
  e <= eF -> Zpos m <= Zpos mF * 2 ^ (eF - e) ->
  match binary_round prec emax s m e with
  | S754_zero s' => s' = s
  | S754_finite s' m2 e2 =>
      s' = s /\ e2 <= eF /\ Zpos m2 <= Zpos mF * 2 ^ (eF - e2)
  | _ => False
  end.
Proof.
  intros HF He Hm. unfold binary_round. rewrite fexp_fexp64.
  pose proof (shl_align_spec m e (fexp64 (Zpos (digits2_pos m) + e)))
    as [Hez Hmz].
  destruct (shl_align m e (fexp64 (Zpos (digits2_pos m) + e))) as [mz ez].
  cbn [fst snd] in Hez, Hmz.
  apply binary_round_aux_upper with (N := Zpos mz) (D := 1);
    [lia | apply between_exact | exact HF | lia | ].
  rewrite Hmz, Z.mul_1_r.
  rewrite (pow2_split ez e eF) by lia.
  pose proof (pow2_pos (e - ez) ltac:(lia)).
  rewrite <- Hez. nia.
Qed.

Lemma binary_round_lower (m : positive) (e : Z) (mF : positive) (eF : Z) :
  bounded prec emax mF eF = true ->
  e <= eF -> Zpos mF * 2 ^ (eF - e) <= Zpos m ->
  match binary_round prec emax false m e with
  | S754_infinity false => True
  | S754_finite false m2 e2 => eF <= e2 /\ Zpos mF <= Zpos m2 * 2 ^ (e2 - eF)
  | _ => False
  end.
Proof.
  intros HF He Hm. unfold binary_round. rewrite fexp_fexp64.
  pose proof (shl_align_spec m e (fexp64 (Zpos (digits2_pos m) + e)))
    as [Hez Hmz].
  destruct (shl_align m e (fexp64 (Zpos (digits2_pos m) + e))) as [mz ez].
  cbn [fst snd] in Hez, Hmz.
  apply binary_round_aux_lower; [lia | | exact HF | ].
  - rewrite Hmz, Zdigits2_shift by lia.
    replace (Zdigits2 (Zpos m) + (e - Z.min e (fexp64 (Zpos (digits2_pos m) + e))) + ez)
      with (Zpos (digits2_pos m) + e) by (simpl Zdigits2; lia).
    lia.
  - intros _. rewrite Hmz, <- Hez.
    rewrite (pow2_split ez e eF) by lia.
    pose proof (pow2_pos (e - ez) ltac:(lia)). nia.
Qed.

(** *** A quotient of magnitude at most one *)

Lemma new_location_zero (n : Z) : new_location n 0 = loc_Exact.
Proof.
  unfold new_location, new_location_even, new_location_odd.
  destruct (Z.even n); reflexivity.
Qed.

Lemma SFdiv_le_one (sx : bool) (mx : positive) (ex : Z)
  (sy : bool) (my : positive) (ey : Z) :
  ex <= ey -> Zpos mx <= Zpos my * 2 ^ (ey - ex) ->
  match SF64div (S754_finite sx mx ex) (S754_finite sy my ey) with
  | S754_zero _ => True
  | S754_finite _ m e => e <= -52 /\ Zpos m <= Zpos one_mantissa * 2 ^ (-52 - e)
  | _ => False
  end.
Proof.
  intros He Hm. unfold SF64div, SFdiv, SFdiv_core_binary.
  rewrite fexp_fexp64.
  set (e' := Z.min (fexp64 (Zdigits2 (Zpos mx) + ex - (Zdigits2 (Zpos my) + ey)))
                   (ex - ey)).
  assert (Zdigits2 (Zpos mx) <= Zdigits2 (Zpos my) + (ey - ex)) as Hd
    by (apply Zdigits2_le_shifted; lia).
  assert (e' <= -53) as He' by (unfold e', fexp64; lia).
  assert (0 <= ex - ey - e') as Hs by (unfold e'; lia).
  set (m' := match ex - ey - e' with
             | 0 => Zpos mx
             | Zpos _ => Z.shiftl (Zpos mx) (ex - ey - e')
             | Zneg _ => 0
             end).
  assert (m' = Zpos mx * 2 ^ (ex - ey - e')) as Hm'.
  { unfold m'. destruct (ex - ey - e') as [ | p | p] eqn:E; try lia.
    apply Z.shiftl_mul_pow2. lia. }
  pose proof (Z_div_mod m' (Zpos my) eq_refl) as Hdiv.
  destruct (Z.div_eucl m' (Zpos my)) as [q r]. destruct Hdiv as [Hq Hr].
  pose proof (pow2_pos (ex - ey - e') Hs) as Hp.
  assert (0 <= q) as Hq0 by nia.
  assert (between q (new_location (Zpos my) r) m' (Zpos my)) as Hb.
  { unfold between. split; [lia | ]. split; [lia | ].
    intros Hl. destruct (Z.eq_dec r 0) as [Hz | Hne]; [ | lia].
    rewrite Hz, new_location_zero in Hl. congruence. }
  assert (m' <= Zpos one_mantissa * 2 ^ (-52 - e') * Zpos my) as HN.
  { rewrite Hm'.
    replace (Zpos one_mantissa * 2 ^ (-52 - e'))
      with (2 ^ (ey - ex) * 2 ^ (ex - ey - e')).
    - pose proof (pow2_pos (ey - ex) ltac:(lia)). nia.
    - change (Zpos one_mantissa) with (2 ^ 52).
      rewrite <- !Z.pow_add_r by lia. f_equal. lia. }
  pose proof (binary_round_aux_upper (xorb sx sy) q e'
                (new_location (Zpos my) r) m' (Zpos my) one_mantissa (-52)
                Hq0 Hb eq_refl ltac:(lia) HN) as H.
  destruct (binary_round_aux prec emax (xorb sx sy) q e'
              (new_location (Zpos my) r)) as [s | s | | s m e];
    try exact H; try exact I.
  destruct H as (_ & H1 & H2). split; assumption.
Qed.

(** *** The normalised difference of two non-negative finite numbers *)

Lemma SF64div_by_infinity (x : spec_float) (s : bool) :
  match x with S754_zero _ | S754_finite _ _ _ => True | _ => False end ->
  magnitude_le_one (SF64div x (S754_infinity s)).
Proof. destruct x; simpl; auto. Qed.

Lemma normalised_difference_bound (A B : spec_float) :
  nonneg_finite A -> nonneg_finite B ->
  valid_binary A = true -> valid_binary B = true ->
  SFltb (S754_zero false) (SF64add A B) = true ->
  magnitude_le_one (SF64div (SF64sub A B) (SF64add A B)).
Proof.
  destruct A as [sa | sa | | [ | ] ma ea]; try contradiction;
    destruct B as [sb | sb | | [ | ] mb eb]; try contradiction;
    intros _ _ HA HB Hpos.
  - (* both zero: the sum is no positive number *)
    destruct sa, sb; discriminate Hpos.
  - (* 0 and b: the quotient is -b / b *)
    change (SF64add (S754_zero sa) (S754_finite false mb eb))
      with (S754_finite false mb eb).
    change (SF64sub (S754_zero sa) (S754_finite false mb eb))
      with (S754_finite true mb eb).
    apply SFdiv_le_one; [lia | ]. rewrite Z.sub_diag. change (2 ^ 0) with 1. lia.
  - (* a and 0: the quotient is a / a *)
    change (SF64add (S754_finite false ma ea) (S754_zero sb))
      with (S754_finite false ma ea).
    change (SF64sub (S754_finite false ma ea) (S754_zero sb))
      with (S754_finite false ma ea).
    apply SFdiv_le_one; [lia | ]. rewrite Z.sub_diag. change (2 ^ 0) with 1. lia.
  - (* two positive numbers *)
    clear Hpos. simpl in HA, HB.
    unfold SF64add, SFadd, SF64sub, SFsub. cbn [cond_Zopp].
    set (ez := Z.min ea eb).
    destruct (shl_align_spec ma ea ez) as [_ Hpa].
    destruct (shl_align_spec mb eb ez) as [_ Hpb].
    replace (Z.min ea ez) with ez in Hpa by (unfold ez; lia).
    replace (Z.min eb ez) with ez in Hpb by (unfold ez; lia).
    set (pa := fst (shl_align ma ea ez)) in *.
    set (pb := fst (shl_align mb eb ez)) in *.
    pose proof (pow2_pos (ea - ez) ltac:(unfold ez; lia)) as Hpea.
    pose proof (pow2_pos (eb - ez) ltac:(unfold ez; lia)) as Hpeb.
    change (Zpos pa + Zpos pb) with (Zpos (pa + pb)).
    cbn [binary_normalize].
    (* the sum is at least a and at least b *)
    pose proof (binary_round_lower (pa + pb) ez ma ea HA
                  ltac:(unfold ez; lia) ltac:(lia)) as HSa.
    pose proof (binary_round_lower (pa + pb) ez mb eb HB
                  ltac:(unfold ez; lia) ltac:(lia)) as HSb.
    destruct (binary_round prec emax false (pa + pb) ez)
      as [sS | sS | | sS mS eS] eqn:ES; try contradiction.
    + (* the sum overflows *)
      apply SF64div_by_infinity.
      destruct (Zpos pa - Zpos pb) as [ | p | p] eqn:E; cbn [binary_normalize].
      * exact I.
      * pose proof (binary_round_upper false p ez ma ea HA
                      ltac:(unfold ez; lia) ltac:(lia)) as HN.
        destruct (binary_round prec emax false p ez); auto.
      * pose proof (binary_round_upper true p ez mb eb HB
                      ltac:(unfold ez; lia) ltac:(lia)) as HN.
        destruct (binary_round prec emax true p ez); auto.
    + destruct sS; try contradiction.
      destruct HSa as [HeSa HmSa]. destruct HSb as [HeSb HmSb].
      destruct (Zpos pa - Zpos pb) as [ | p | p] eqn:E; cbn [binary_normalize].
      * exact I.
      * pose proof (binary_round_upper false p ez ma ea HA
                      ltac:(unfold ez; lia) ltac:(lia)) as HN.
        destruct (binary_round prec emax false p ez)
          as [sN | sN | | sN mN eN]; try contradiction; [exact I | ].
        destruct HN as (_ & HeN & HmN).
        apply SFdiv_le_one; [lia | ].
        rewrite (pow2_split eN ea eS) by lia.
        pose proof (pow2_pos (ea - eN) ltac:(lia)).
        pose proof (pow2_pos (eS - ea) ltac:(lia)). nia.
      * pose proof (binary_round_upper true p ez mb eb HB
                      ltac:(unfold ez; lia) ltac:(lia)) as HN.
        destruct (binary_round prec emax true p ez)
          as [sN | sN | | sN mN eN]; try contradiction; [exact I | ].
        destruct HN as (_ & HeN & HmN).
        apply SFdiv_le_one; [lia | ].
        rewrite (pow2_split eN eb eS) by lia.
        pose proof (pow2_pos (eb - eN) ltac:(lia)).
        pose proof (pow2_pos (eS - eb) ltac:(lia)). nia.
Qed.

(** Below a bound in the canonical representation, below it in the order
    of the floats, whatever the sign. *)
Lemma magnitude_bound_leb (x : spec_float) (mF : positive) (eF : Z) :
  match x with
  | S754_zero _ => True
  | S754_finite _ m e => e <= eF /\ Zpos m <= Zpos mF * 2 ^ (eF - e)
  | _ => False
  end ->
  SFleb (S754_finite true mF eF) x = true /\
  SFleb x (S754_finite false mF eF) = true.
Proof.
  destruct x as [s | s | | s m e]; try contradiction.
  - intros _. split; reflexivity.
  - intros [He Hm]. unfold SFleb, SFcompare.
    destruct (Z.eq_dec e eF) as [Heq | Hne].
    + rewrite Heq in *. rewrite Z.sub_diag, Z.pow_0_r, Z.mul_1_r in Hm.
      rewrite Z.compare_refl.
      assert (m <= mF)%positive as Hle by exact Hm.
      pose proof (proj2 (Pos.compare_le_iff m mF) Hle) as Hc1.
      pose proof (proj2 (Pos.compare_ge_iff mF m) Hle) as Hc2.
      unfold Pos.compare in Hc1, Hc2.
      destruct (Pos.compare_cont Eq m mF); try congruence;
        destruct (Pos.compare_cont Eq mF m); try congruence;
        destruct s; split; reflexivity.
    + assert (e < eF) as Hlt by lia.
      rewrite (proj2 (Z.compare_lt_iff e eF) Hlt).
      rewrite (proj2 (Z.compare_gt_iff eF e) Hlt).
      destruct s; split; reflexivity.
Qed.

Lemma Prim2SF_one : Prim2SF 1%float = S754_finite false one_mantissa (-52).
Proof. vm_compute. reflexivity. Qed.

Lemma Prim2SF_minus_one :
  Prim2SF (-1)%float = S754_finite true one_mantissa (-52).
Proof. vm_compute. reflexivity. Qed.

Lemma Prim2SF_zero : Prim2SF 0%float = S754_zero false.
Proof. vm_compute. reflexivity. Qed.

Lemma Prim2SF_infinity : Prim2SF infinity = S754_infinity false.
Proof. vm_compute. reflexivity. Qed.

Lemma nonneg_finite_of_float (a : float) :
  (0 <=? a)%float = true -> is_finite a = true -> nonneg_finite (Prim2SF a).
Proof.
  intros H0 Hf. rewrite FloatAxioms.leb_spec, Prim2SF_zero in H0.
  unfold is_finite in Hf. apply negb_true_iff, orb_false_iff in Hf.
  destruct Hf as [_ Hinf]. unfold is_infinity in Hinf.
  rewrite FloatAxioms.eqb_spec, FloatAxioms.abs_spec, Prim2SF_infinity in Hinf.
  destruct (Prim2SF a) as [s | s | | s m e]; cbn in *; try exact I;
    try discriminate.
  destruct s; [discriminate | exact I].
Qed.

End Rounding.

(** ** Lists as arrays *)

Lemma forallb_Forall {A : Type} (p : A -> bool) (l : list A) :
  forallb p l = true -> Forall (fun x => p x = true) l.
Proof.
  intros H. apply Forall_forall. apply (proj1 (forallb_forall p l)). exact H.
Qed.

Lemma set_nth_length {A : Type} (i : nat) (v : A) (l : list A) :
  List.length (set_nth i v l) = List.length l.
Proof.
  revert i. induction l as [ | a t IH]; intros [ | j]; simpl; auto.
Qed.

Lemma set_nth_Forall {A : Type} (P : A -> Prop) (i : nat) (v : A) (l : list A) :
  P v -> Forall P l -> Forall P (set_nth i v l).
Proof.
  intros Hv. revert i. induction l as [ | a t IH]; intros i H; simpl.
  - constructor.
  - inversion H; subst. destruct i; constructor; auto.
Qed.

Lemma set_nth_nth_error {A : Type} (i : nat) (v : A) (l : list A) :
  i < List.length l -> nth_error (set_nth i v l) i = Some v.
Proof.
  revert i. induction l as [ | a t IH]; intros [ | j] H; simpl in *;
    try lia; auto. apply IH. lia.
Qed.

Lemma map2_length {A B C : Type} (f : A -> B -> C) (l : list A) (m : list B) :
  List.length l = List.length m -> List.length (map2 f l m) = List.length l.
Proof.
  revert m. induction l as [ | a t IH]; intros [ | b m] H; simpl in *;
    try discriminate; auto.
Qed.

Lemma map2_Forall {A B C : Type} (f : A -> B -> C)
  (P : A -> Prop) (Q : B -> Prop) (R : C -> Prop) :
  (forall a b, P a -> Q b -> R (f a b)) ->
  forall l m, Forall P l -> Forall Q m -> Forall R (map2 f l m).
Proof.
  intros Hf. induction l as [ | a t IH]; intros m Hl Hm; simpl.
  - constructor.
  - destruct m as [ | b m]; [constructor | ].
    inversion Hl; inversion Hm; subst. constructor; auto.
Qed.

(** ** The generator: shape of a draw, and what every sample satisfies *)

Section Draws.

Variable G : Np.Generator.
Variables loc scale : float.
Variable P : float -> Prop.
Hypothesis sample_ok : forall g, P (fst (Np.normal1 G loc scale g)).

Lemma normal_row_length (n : nat) (g : Np.state G) :
  List.length (fst (Np.normal_row G loc scale n g)) = n.
Proof.
  revert g. induction n as [ | k IH]; intros g; simpl; auto.
  destruct (Np.normal1 G loc scale g) as [x g1].
  specialize (IH g1). destruct (Np.normal_row G loc scale k g1) as [xs g2].
  simpl in *. congruence.
Qed.

Lemma normal_row_Forall (n : nat) (g : Np.state G) :
  Forall P (fst (Np.normal_row G loc scale n g)).
Proof.
  revert g. induction n as [ | k IH]; intros g; simpl; [constructor | ].
  pose proof (sample_ok g) as Hx.
  destruct (Np.normal1 G loc scale g) as [x g1].
  specialize (IH g1). destruct (Np.normal_row G loc scale k g1) as [xs g2].
  simpl in *. constructor; assumption.
Qed.

Lemma normal_shape (rows cols : nat) (g : Np.state G) :
  grid_shape rows cols (fst (Np.normal G loc scale rows cols g)).
Proof.
  revert g. induction rows as [ | k IH]; intros g; simpl.
  - split; [reflexivity | constructor].
  - pose proof (normal_row_length cols g) as Hr.
    destruct (Np.normal_row G loc scale cols g) as [r g1].
    specialize (IH g1). destruct (Np.normal G loc scale k cols g1) as [rs g2].
    destruct IH as [IH1 IH2]. simpl in *. split.
    + simpl. congruence.
    + constructor; assumption.
Qed.

Lemma normal_Forall (rows cols : nat) (g : Np.state G) :
  Forall (Forall P) (fst (Np.normal G loc scale rows cols g)).
Proof.
  revert g. induction rows as [ | k IH]; intros g; simpl; [constructor | ].
  pose proof (normal_row_Forall cols g) as Hr.
  destruct (Np.normal_row G loc scale cols g) as [r g1].
  specialize (IH g1). destruct (Np.normal G loc scale k cols g1) as [rs g2].
  simpl in *. constructor; assumption.
Qed.

End Draws.

(** ** Clipping *)

Lemma clip1_in_unit (x : float) :
  is_nan x = false -> in_unit (Np.clip1 0 1 x) = true.
Proof.
  intros Hx. unfold Np.clip1, Np.clip_max. rewrite Hx.
  destruct (0 <? x)%float eqn:H0; unfold Np.clip_min.
  - rewrite Hx. destruct (x <? 1)%float eqn:H1; [ | reflexivity].
    unfold in_unit. rewrite (ltb_leb _ _ H0), (ltb_leb _ _ H1). reflexivity.
  - reflexivity.
Qed.

Lemma clip_shape (bands rows cols : nat) (a : list grid) (lo hi : float) :
  has_shape bands rows cols a -> has_shape bands rows cols (Np.clip a lo hi).
Proof.
  unfold has_shape, grid_shape, Np.clip. intros [Hn Hb]. split.
  - rewrite length_map. exact Hn.
  - apply Forall_map. eapply Forall_impl; [ | exact Hb].
    intros band [Hr Hc]. split.
    + rewrite length_map. exact Hr.
    + apply Forall_map. eapply Forall_impl; [ | exact Hc].
      intros r Hlen. rewrite length_map. exact Hlen.
Qed.

Lemma clip_in_unit (a : list grid) :
  all_elements (fun v => is_nan v = false) a ->
  all_elements (fun v => in_unit v = true) (Np.clip a 0 1).
Proof.
  unfold all_elements, Np.clip. intros H.
  apply Forall_map. eapply Forall_impl; [ | exact H].
  intros band Hband. apply Forall_map. eapply Forall_impl; [ | exact Hband].
  intros r Hr. apply Forall_map. eapply Forall_impl; [ | exact Hr].
  intros v Hv. apply clip1_in_unit, Hv.
Qed.

(** ** The synthesis loop *)

Lemma grad_shape : grid_shape ROWS COLS grad.
Proof. split; [reflexivity | repeat constructor]. Qed.

Lemma scalar_add_shape (x : float) (rows cols : nat) (g : grid) :
  grid_shape rows cols g -> grid_shape rows cols (Np.scalar_add x g).
Proof.
  unfold grid_shape, Np.scalar_add. intros [Hr Hc]. split.
  - rewrite length_map. exact Hr.
  - apply Forall_map. eapply Forall_impl; [ | exact Hc].
    intros r Hlen. rewrite length_map. exact Hlen.
Qed.

Lemma grid_add_shape (rows cols : nat) (g h : grid) :
  grid_shape rows cols g -> grid_shape rows cols h ->
  grid_shape rows cols (Np.grid_add g h).
Proof.
  unfold grid_shape, Np.grid_add. intros [Hg Hgc] [Hh Hhc]. split.
  - rewrite map2_length; congruence.
  - apply map2_Forall with (P := fun r => List.length r = cols)
                           (Q := fun r => List.length r = cols); auto.
    intros a b Ha Hb. rewrite map2_length; congruence.
Qed.

Lemma forallb2_Forall (p : float -> bool) (g : grid) :
  forallb (forallb p) g = true -> Forall (Forall (fun v => p v = true)) g.
Proof.
  intros H. apply forallb_Forall in H.
  eapply Forall_impl; [ | exact H].
  intros r. apply forallb_Forall.
Qed.

(** [BASE[b] + grad] is a finite number everywhere, for each of the bands. *)
Lemma base_plus_grad_finite (b : nat) :
  Forall (Forall (fun v => is_finite v = true))
         (Np.scalar_add (nth b BASE 0%float) grad).
Proof.
  apply forallb2_Forall.
  do 6 (destruct b as [ | b]; [vm_compute; reflexivity | ]).
  destruct b; vm_compute; reflexivity.
Qed.

Section Synthesis.

Variable G : Np.Generator.

(** What holds of the zero array and is kept by every assignment
    [raster[b] = ...] holds of the filled raster. *)
Lemma fold_fill_band (I : list grid -> Prop) :
  (forall st b, I (snd st) -> I (snd (fill_band G st b))) ->
  forall bs st, I (snd st) -> I (snd (fold_left (fill_band G) bs st)).
Proof.
  intros Hstep. induction bs as [ | b bs IH]; intros st Hst; simpl.
  - exact Hst.
  - apply IH, Hstep, Hst.
Qed.

Lemma fill_band_shape (st : Np.state G * list grid) (b : nat) :
  has_shape N_BANDS ROWS COLS (snd st) ->
  has_shape N_BANDS ROWS COLS (snd (fill_band G st b)).
Proof.
  destruct st as [g a]. unfold fill_band.
  pose proof (normal_shape G 0%float 0.002%float ROWS COLS g) as Hn.
  destruct (Np.normal G 0%float 0.002%float ROWS COLS g) as [noise g'].
  cbn [fst snd] in *. intros [Hlen Hall]. split.
  - rewrite set_nth_length. exact Hlen.
  - apply set_nth_Forall; [ | exact Hall].
    apply grid_add_shape; [ | exact Hn].
    apply scalar_add_shape, grad_shape.
Qed.

Lemma zeros3_shape (bands rows cols : nat) :
  has_shape bands rows cols (Np.zeros3 bands rows cols).
Proof.
  unfold has_shape, grid_shape, Np.zeros3, Np.zeros. split.
  - apply repeat_length.
  - apply Forall_forall. intros band Hin. apply repeat_spec in Hin. subst.
    split; [apply repeat_length | ].
    apply Forall_forall. intros r Hin. apply repeat_spec in Hin. subst.
    apply repeat_length.
Qed.

Lemma raster_filled_shape (os_entropy : Z) :
  has_shape N_BANDS ROWS COLS (raster_filled G os_entropy).
Proof.
  unfold raster_filled. apply fold_fill_band.
  - apply fill_band_shape.
  - apply zeros3_shape.
Qed.

Lemma raster_shape (os_entropy : Z) :
  has_shape N_BANDS ROWS COLS (raster G os_entropy).
Proof. apply clip_shape, raster_filled_shape. Qed.

(** The generator hands out numbers, never a NaN. *)
Hypothesis normal_not_nan :
  forall g, is_nan (fst (Np.normal1 G 0%float 0.002%float g)) = false.

Lemma fill_band_not_nan (st : Np.state G * list grid) (b : nat) :
  all_elements (fun v => is_nan v = false) (snd st) ->
  all_elements (fun v => is_nan v = false) (snd (fill_band G st b)).
Proof.
  destruct st as [g a]. unfold fill_band, all_elements.
  pose proof (normal_Forall G 0%float 0.002%float
                (fun v => is_nan v = false) normal_not_nan ROWS COLS g) as Hn.
  destruct (Np.normal G 0%float 0.002%float ROWS COLS g) as [noise g'].
  cbn [fst snd] in *. intros Hall. apply set_nth_Forall; [ | exact Hall].
  unfold Np.grid_add.
  eapply map2_Forall; [ | apply base_plus_grad_finite | exact Hn].
  intros r n Hr Hnoise.
  eapply map2_Forall; [ | exact Hr | exact Hnoise].
  intros x y Hx Hy. apply add_not_nan; assumption.
Qed.

Lemma zeros3_not_nan (bands rows cols : nat) :
  all_elements (fun v => is_nan v = false) (Np.zeros3 bands rows cols).
Proof.
  unfold all_elements, Np.zeros3, Np.zeros.
  apply Forall_forall. intros band Hb. apply repeat_spec in Hb. subst.
  apply Forall_forall. intros r Hr. apply repeat_spec in Hr. subst.
  apply Forall_forall. intros v Hv. apply repeat_spec in Hv. subst.
  reflexivity.
Qed.

Lemma raster_filled_not_nan (os_entropy : Z) :
  all_elements (fun v => is_nan v = false) (raster_filled G os_entropy).
Proof.
  unfold raster_filled. apply fold_fill_band.
  - apply fill_band_not_nan.
  - apply zeros3_not_nan.
Qed.

Lemma raster_all_in_unit (os_entropy : Z) :
  all_elements (fun v => in_unit v = true) (raster G os_entropy).
Proof. apply clip_in_unit, raster_filled_not_nan. Qed.

End Synthesis.

(** C2.  After synthesis (base reflectance plus gradient plus noise, then
    clipping) the raster has shape (6, 3, 3) and every element lies in
    [0, 1]; the raster is a value that nothing later changes.  The generator
    is any one whose samples are numbers. *)
Theorem raster_values_in_unit_interval (G : Np.Generator)
  (normal_not_nan :
     forall g, is_nan (fst (Np.normal1 G 0%float 0.002%float g)) = false)
  (os_entropy : Z) :
  has_shape 6 3 3 (raster G os_entropy) /\
  all_elements (fun v => (0 <=? v)%float = true /\ (v <=? 1)%float = true)
               (raster G os_entropy).
Proof.
  split.
  - apply raster_shape.
  - pose proof (raster_all_in_unit G normal_not_nan os_entropy) as H.
    unfold all_elements in *.
    eapply Forall_impl; [ | exact H]. intros band Hband.
    eapply Forall_impl; [ | exact Hband]. intros r Hr.
    eapply Forall_impl; [ | exact Hr]. intros v Hv.
    unfold in_unit in Hv. apply andb_true_iff in Hv. exact Hv.
Qed.

(** The same for the [square_wave] generator, whose two samples are numbers. *)
Lemma raster_values_in_unit_interval_witness :
  has_shape 6 3 3 (raster square_wave 0) /\
  all_elements (fun v => (0 <=? v)%float = true /\ (v <=? 1)%float = true)
               (raster square_wave 0).
Proof.
  apply (raster_values_in_unit_interval square_wave).
  intros [ | ]; reflexivity.
Defined.

(** ** Georeferencing *)

(** C3.  With [center] the transform returns
    [(x0 + (col + 0.5) * xres, y0 - (row + 0.5) * yres)], without it
    [(x0 + col * xres, y0 - row * yres)]; at the script's pixel and
    georeference the centred coordinates are within 1e-5 of
    (-58.975, 14.985). *)
Theorem rowcol_to_xy_spec (row col x0 y0 xres yres : float) :
  rowcol_to_xy row col x0 y0 xres yres true =
    ((x0 + (col + 0.5) * xres)%float, (y0 - (row + 0.5) * yres)%float) /\
  rowcol_to_xy row col x0 y0 xres yres false =
    ((x0 + col * xres)%float, (y0 - row * yres)%float) /\
  (let (lon, lat) :=
     rowcol_to_xy 1 2 (-59.0) 15.0 0.01 0.01 true in
   within 1e-5 lon (-58.97500) = true /\ within 1e-5 lat 14.98500 = true) /\
  lon_lat = rowcol_to_xy 1 2 (-59.0) 15.0 0.01 0.01 true.
Proof.
  split; [reflexivity | ]. split; [reflexivity | ].
  split; [ | reflexivity].
  vm_compute. split; reflexivity.
Qed.

(** C10, as claimed, fails in binary64: at the script's own pixel and
    georeference the centred longitude and the uncentred one moved east by
    [0.5 * xres] differ in the last place. *)
Lemma half_pixel_shift_counterexample :
  rowcol_to_xy 1 2 (-59.0) 15.0 0.01 0.01 true <>
  shift_half_pixel (rowcol_to_xy 1 2 (-59.0) 15.0 0.01 0.01 false) 0.01 0.01.
Proof.
  intros H.
  apply (f_equal (fun xy => (fst xy =? -58.974999999999994)%float)) in H.
  vm_compute in H. discriminate H.
Qed.

(** C10, amended.  The centred transform at (row, col) is the uncentred one
    at (row + 0.5, col + 0.5), exactly; the uncentred result moved by half a
    pixel agrees with it up to rounding only (to 1e-14 at the script's
    pixel). *)
Theorem centered_is_uncentered_at_half (row col x0 y0 xres yres : float) :
  rowcol_to_xy row col x0 y0 xres yres true =
    rowcol_to_xy (row + 0.5) (col + 0.5) x0 y0 xres yres false /\
  (let c := rowcol_to_xy 1 2 X0 Y0 XRES YRES true in
   let u := shift_half_pixel (rowcol_to_xy 1 2 X0 Y0 XRES YRES false)
                             XRES YRES in
   within 1e-14 (fst c) (fst u) = true /\ within 1e-14 (snd c) (snd u) = true).
Proof.
  split; [reflexivity | ].
  vm_compute. split; reflexivity.
Qed.

(** ** NDVI *)

Lemma eqb_zero (y : float) :
  (y =? 0)%float = true -> exists s, Prim2SF y = S754_zero s.
Proof.
  rewrite FloatAxioms.eqb_spec.
  change (Prim2SF 0%float) with (S754_zero false). unfold SFeqb.
  destruct (Prim2SF y) as [s | s | | s m e]; simpl.
  - intros _. exists s. reflexivity.
  - destruct s; discriminate.
  - discriminate.
  - destruct s; discriminate.
Qed.

Lemma is_infinity_true (x : float) (s : bool) :
  Prim2SF x = S754_infinity s -> is_infinity x = true.
Proof.
  intros H. unfold is_infinity.
  rewrite FloatAxioms.eqb_spec, FloatAxioms.abs_spec, H. reflexivity.
Qed.

(** A quotient by zero is a NaN or an infinity, whatever the numerator. *)
Lemma div_by_zero (x y : float) :
  (y =? 0)%float = true ->
  is_nan (x / y) = true \/ is_infinity (x / y) = true.
Proof.
  intros Hy. destruct (eqb_zero y Hy) as [s Hs].
  pose proof (FloatAxioms.div_spec x y) as Hd. rewrite Hs in Hd.
  unfold SF64div, SFdiv in Hd.
  destruct (Prim2SF x) as [sx | sx | | sx mx ex].
  - left. apply is_nan_true. exact Hd.
  - right. apply is_infinity_true with (s := xorb sx s). exact Hd.
  - left. apply is_nan_true. exact Hd.
  - right. apply is_infinity_true with (s := xorb sx s). exact Hd.
Qed.

(** C8.  The division is not guarded: when [nir + red] is exactly zero the
    index is still computed, without any error or check, and its value is the
    IEEE quotient by zero, an infinity or a NaN. *)
Theorem ndvi_zero_denominator (d : Pd.DataFrame) (nir red : float) :
  Pd.iloc0 (Pd.loc_reflectance d "NIR") = Some nir ->
  Pd.iloc0 (Pd.loc_reflectance d "Red") = Some red ->
  (nir + red =? 0)%float = true ->
  ndvi_of_table d = Some ((nir - red) / (nir + red))%float /\
  (is_nan ((nir - red) / (nir + red)) = true \/
   is_infinity ((nir - red) / (nir + red)) = true).
Proof.
  intros Hnir Hred Hzero. split.
  - unfold ndvi_of_table. rewrite Hnir, Hred. reflexivity.
  - apply div_by_zero, Hzero.
Qed.

(** A pixel clipped to zero in every band: the index is 0 / 0. *)
Lemma ndvi_zero_denominator_witness :
  ndvi_of_table (table_of [0; 0; 0; 0; 0; 0]%float)
    = Some ((0 - 0) / (0 + 0))%float /\
  (is_nan ((0 - 0) / (0 + 0)) = true \/
   is_infinity ((0 - 0) / (0 + 0)) = true).
Proof.
  apply (ndvi_zero_denominator (table_of [0; 0; 0; 0; 0; 0]%float) 0 0);
    reflexivity.
Defined.

(** ** Sorting by wavelength *)

Lemma insert_perm (r : Pd.Row) (d : Pd.DataFrame) :
  Permutation (Pd.insert r d) (r :: d).
Proof.
  induction d as [ | h t IH]; simpl.
  - apply Permutation_refl.
  - destruct (Pd.Wavelength_nm r <? Pd.Wavelength_nm h)%Z.
    + apply Permutation_refl.
    + apply perm_trans with (h :: r :: t).
      * apply perm_skip, IH.
      * apply perm_swap.
Qed.

Lemma insert_sorted (r : Pd.Row) (d : Pd.DataFrame) :
  StronglySorted key_le d -> StronglySorted key_le (Pd.insert r d).
Proof.
  induction d as [ | h t IH]; simpl; intros Hs.
  - repeat constructor.
  - inversion Hs as [ | ? ? Ht Hh]; subst.
    destruct (Pd.Wavelength_nm r <? Pd.Wavelength_nm h)%Z eqn:E.
    + apply Z.ltb_lt in E. constructor; [exact Hs | ].
      constructor; [unfold key_le; lia | ].
      eapply Forall_impl; [ | exact Hh]. unfold key_le. intros; lia.
    + apply Z.ltb_ge in E. constructor; [apply IH, Ht | ].
      apply (Permutation_Forall (Permutation_sym (insert_perm r t))).
      constructor; [exact E | exact Hh].
Qed.

Lemma fold_insert_perm (d acc : Pd.DataFrame) :
  Permutation (fold_left (fun sorted r => Pd.insert r sorted) d acc) (d ++ acc).
Proof.
  revert acc. induction d as [ | r t IH]; intros acc; simpl.
  - apply Permutation_refl.
  - eapply perm_trans; [apply IH | ].
    eapply perm_trans; [apply Permutation_app_head, insert_perm | ].
    apply Permutation_sym, Permutation_middle.
Qed.

Lemma fold_insert_sorted (d acc : Pd.DataFrame) :
  StronglySorted key_le acc ->
  StronglySorted key_le (fold_left (fun sorted r => Pd.insert r sorted) d acc).
Proof.
  revert acc. induction d as [ | r t IH]; intros acc H; simpl.
  - exact H.
  - apply IH, insert_sorted, H.
Qed.

Lemma sort_values_perm (d : Pd.DataFrame) : Permutation (Pd.sort_values d) d.
Proof.
  unfold Pd.sort_values. rewrite <- (app_nil_r d) at 2. apply fold_insert_perm.
Qed.

Lemma sort_values_sorted (d : Pd.DataFrame) :
  StronglySorted key_le (Pd.sort_values d).
Proof. apply fold_insert_sorted. constructor. Qed.

(** Sorted rows of distinct keys ascend strictly. *)
Lemma sorted_distinct_ascending (d : Pd.DataFrame) :
  StronglySorted key_le d -> NoDup (map Pd.Wavelength_nm d) ->
  ascending_by_wavelength d.
Proof.
  unfold ascending_by_wavelength.
  induction d as [ | h t IH]; intros Hs Hd; [constructor | ].
  inversion Hs as [ | ? ? Ht Hh]; subst. simpl in Hd.
  inversion Hd as [ | ? ? Hnotin Hnodup]; subst.
  constructor; [apply IH; assumption | ].
  apply Forall_forall. intros y Hy.
  pose proof (proj1 (Forall_forall _ _) Hh y Hy) as Hle. unfold key_le in Hle.
  assert (Pd.Wavelength_nm h <> Pd.Wavelength_nm y) as Hne.
  { intros E. apply Hnotin. rewrite E. apply in_map, Hy. }
  lia.
Qed.

Lemma from_columns_columns (bands : list string) (wl : list Z)
  (refl : list float) (d : Pd.DataFrame) :
  Pd.from_columns bands wl refl = Some d ->
  map Pd.Band d = bands /\ map Pd.Wavelength_nm d = wl /\
  map Pd.Reflectance d = refl.
Proof.
  revert wl refl d.
  induction bands as [ | b bs IH]; intros [ | w ws] [ | r rs] d; simpl;
    try discriminate.
  - intros [= <-]. auto.
  - destruct (Pd.from_columns bs ws rs) as [rest | ] eqn:E; simpl;
      [ | discriminate].
    intros [= <-]. destruct (IH ws rs rest E) as (H1 & H2 & H3).
    simpl. repeat split; congruence.
Qed.

Lemma from_columns_total (bands : list string) (wl : list Z)
  (refl : list float) :
  List.length wl = List.length bands -> List.length refl = List.length bands ->
  exists d, Pd.from_columns bands wl refl = Some d.
Proof.
  revert wl refl.
  induction bands as [ | b bs IH]; intros [ | w ws] [ | r rs]; simpl;
    try discriminate; intros Hw Hr.
  - eexists. reflexivity.
  - destruct (IH ws rs) as [rest E]; [congruence | congruence | ].
    rewrite E. eexists. reflexivity.
Qed.

Lemma WAVELENGTH_NM_distinct : NoDup WAVELENGTH_NM.
Proof.
  unfold WAVELENGTH_NM.
  repeat (constructor; [simpl; intuition discriminate | ]). constructor.
Qed.

(** ** Slicing one pixel out of the raster *)

Lemma index_in_range {A : Type} (l : list A) (i : Z) :
  (- Z.of_nat (List.length l) <= i < Z.of_nat (List.length l))%Z ->
  exists x, Np.index l i = Some x /\ In x l.
Proof.
  intros Hi. unfold Np.index.
  destruct ((0 <=? i) && (i <? Z.of_nat (List.length l)))%Z eqn:E.
  - apply andb_true_iff in E. destruct E as [E1 E2].
    apply Z.leb_le in E1. apply Z.ltb_lt in E2.
    destruct (nth_error l (Z.to_nat i)) as [x | ] eqn:N.
    + exists x. split; [reflexivity | eapply nth_error_In, N].
    + apply nth_error_None in N. lia.
  - assert (i < 0)%Z as Hneg.
    { apply andb_false_iff in E. destruct E as [E | E].
      - apply Z.leb_gt in E. exact E.
      - apply Z.ltb_ge in E. lia. }
    replace ((- Z.of_nat (List.length l) <=? i) && (i <? 0))%Z with true
      by (symmetry; apply andb_true_iff; split;
          [apply Z.leb_le | apply Z.ltb_lt]; lia).
    destruct (nth_error l (Z.to_nat (Z.of_nat (List.length l) + i)))
      as [x | ] eqn:N.
    + exists x. split; [reflexivity | eapply nth_error_In, N].
    + apply nth_error_None in N. lia.
Qed.

Lemma mapM_Forall2 {A B : Type} (f : A -> option B) (l : list A) (m : list B) :
  mapM f l = Some m -> Forall2 (fun a b => f a = Some b) l m.
Proof.
  revert m. induction l as [ | a t IH]; intros m; simpl.
  - intros [= <-]. constructor.
  - destruct (f a) as [b | ] eqn:E; simpl; [ | discriminate].
    destruct (mapM f t) as [bs | ] eqn:Et; simpl; [ | discriminate].
    intros [= <-]. constructor; auto.
Qed.

Lemma mapM_total {A B : Type} (f : A -> option B) (l : list A) :
  Forall (fun a => exists b, f a = Some b) l -> exists m, mapM f l = Some m.
Proof.
  induction 1 as [ | a t [b Hb] _ [bs IH]]; simpl.
  - eexists. reflexivity.
  - rewrite Hb, IH. eexists. reflexivity.
Qed.

(** Inside the raster every slice across the bands succeeds, with one value
    per band. *)
Lemma slice_pixel_in_range (bands rows cols : nat) (a : list grid) (r c : Z) :
  has_shape bands rows cols a ->
  (- Z.of_nat rows <= r < Z.of_nat rows)%Z ->
  (- Z.of_nat cols <= c < Z.of_nat cols)%Z ->
  exists vs, Np.slice_pixel a r c = Some vs /\ List.length vs = bands /\
             forall b, nth_error vs b = pixel_value a b r c.
Proof.
  intros [Hlen Hall] Hr Hc.
  assert (exists vs, Np.slice_pixel a r c = Some vs) as [vs Hvs].
  { apply mapM_total. eapply Forall_impl; [ | exact Hall].
    intros band [Hrows Hcols].
    destruct (index_in_range band r) as (rw & Erw & Hin); [lia | ].
    rewrite Erw. simpl.
    pose proof (proj1 (Forall_forall _ _) Hcols rw Hin) as Hrw.
    cbv beta in Hrw.
    destruct (index_in_range rw c) as (v & Ev & _); [lia | ].
    exists v. exact Ev. }
  exists vs. split; [exact Hvs | ].
  apply mapM_Forall2 in Hvs. split.
  - apply Forall2_length in Hvs. rewrite <- Hvs. exact Hlen.
  - clear Hlen Hall. unfold pixel_value.
    induction Hvs as [ | band v a' vs' Hv _ IH]; intros [ | b]; simpl; auto.
Qed.

(** ** The pixel spectrum *)

(** C4.  For any pixel of the raster (a negative index counting from the
    end, as NumPy reads it) the table is produced, has 6 rows, one per band,
    and its rows ascend strictly by wavelength. *)
Theorem spectrum_table_six_ascending (G : Np.Generator) (os_entropy : Z)
  (r c : Z) :
  (-3 <= r < 3)%Z -> (-3 <= c < 3)%Z ->
  exists d, spectrum_table (raster G os_entropy) r c = Some d /\
            List.length d = 6 /\ ascending_by_wavelength d.
Proof.
  intros Hr Hc.
  destruct (slice_pixel_in_range N_BANDS ROWS COLS (raster G os_entropy) r c)
    as (vs & Hvs & Hlen & _);
    [apply raster_shape | exact Hr | exact Hc | ].
  destruct (from_columns_total BANDS WAVELENGTH_NM vs) as [d0 Hd0];
    [reflexivity | exact Hlen | ].
  exists (Pd.sort_values d0). split; [ | split].
  - unfold spectrum_table. rewrite Hvs. cbn [bind]. rewrite Hd0. reflexivity.
  - rewrite (Permutation_length (sort_values_perm d0)).
    apply from_columns_columns in Hd0. destruct Hd0 as (Hb & _ & _).
    rewrite <- (length_map Pd.Band), Hb. reflexivity.
  - apply sorted_distinct_ascending; [apply sort_values_sorted | ].
    apply from_columns_columns in Hd0. destruct Hd0 as (_ & Hw & _).
    apply (Permutation_NoDup
             (Permutation_map Pd.Wavelength_nm
                (Permutation_sym (sort_values_perm d0)))).
    rewrite Hw. apply WAVELENGTH_NM_distinct.
Qed.

(** The script's pixel, under the [square_wave] generator. *)
Lemma spectrum_table_six_ascending_witness :
  exists d, spectrum_table (raster square_wave 0) 1 2 = Some d /\
            List.length d = 6 /\ ascending_by_wavelength d.
Proof.
  apply (spectrum_table_six_ascending square_wave 0 1 2); lia.
Defined.

(** C7, as claimed, fails: the wavelengths are declared in ascending order
    already, so the sort leaves the rows of the table where they are (here
    with the base reflectances as the third column). *)
Lemma band_order_counterexample : ~ sort_reorders_rows BASE.
Proof.
  intros (d & Hd & Hne). apply Hne.
  vm_compute in Hd. injection Hd as <-. reflexivity.
Qed.

(** C7, amended.  The declaration order of the 6 bands is their
    ascending-wavelength order: the wavelengths ascend strictly as declared,
    and the sort by wavelength returns the table unchanged, rows in the order
    of the registry. *)
Theorem sort_keeps_declaration_order (refl : list float) (d : Pd.DataFrame) :
  Pd.from_columns BANDS WAVELENGTH_NM refl = Some d ->
  StronglySorted Z.lt WAVELENGTH_NM /\
  Pd.sort_values d = d /\
  map Pd.Band (Pd.sort_values d) = BANDS.
Proof.
  intros Hd. split; [repeat constructor | ].
  destruct refl as [ | v0 [ | v1 [ | v2 [ | v3 [ | v4 [ | v5 [ | v6 t]]]]]]];
    try discriminate Hd.
  injection Hd as <-. split; reflexivity.
Qed.

(** The table whose reflectance column is [BASE]. *)
Lemma sort_keeps_declaration_order_witness :
  StronglySorted Z.lt WAVELENGTH_NM /\
  Pd.sort_values (table_of BASE) = table_of BASE /\
  map Pd.Band (Pd.sort_values (table_of BASE)) = BANDS.
Proof.
  apply (sort_keeps_declaration_order BASE (table_of BASE)). reflexivity.
Defined.

(** C1.  The index of the script is computed from the sorted table of pixel
    (row=1, col=2): exactly one row is named NIR and exactly one Red, they
    hold the raster's values of bands 3 and 2 at that pixel, and the index
    is (nir - red) / (nir + red) of these two values. *)
Theorem ndvi_from_nir_and_red_rows (G : Np.Generator) (os_entropy : Z) :
  exists d nir red,
    df G os_entropy = Some d /\
    pixel_value (raster G os_entropy) 3 1 2 = Some nir /\
    pixel_value (raster G os_entropy) 2 1 2 = Some red /\
    Pd.loc_reflectance d "NIR" = [nir] /\
    Pd.loc_reflectance d "Red" = [red] /\
    ndvi G os_entropy = Some ((nir - red) / (nir + red))%float.
Proof.
  destruct (slice_pixel_in_range N_BANDS ROWS COLS (raster G os_entropy)
              row col) as (vs & Hvs & Hlen & Hnth);
    [apply raster_shape | unfold row, ROWS; lia | unfold col, COLS; lia | ].
  destruct vs as [ | v0 [ | v1 [ | v2 [ | v3 [ | v4 [ | v5 [ | v6 t]]]]]]];
    try discriminate Hlen.
  assert (df G os_entropy = Some (table_of [v0; v1; v2; v3; v4; v5])) as Hdf.
  { unfold df, spectrum_table. rewrite Hvs. reflexivity. }
  exists (table_of [v0; v1; v2; v3; v4; v5]), v3, v2.
  unfold row, col in Hnth.
  split; [exact Hdf | ].
  split; [rewrite <- (Hnth 3); reflexivity | ].
  split; [rewrite <- (Hnth 2); reflexivity | ].
  split; [reflexivity | ]. split; [reflexivity | ].
  unfold ndvi. rewrite Hdf. reflexivity.
Qed.

(** ** The range of the index *)

Lemma ndvi_formula_range (nir red : float) :
  (0 <=? nir)%float = true -> is_finite nir = true ->
  (0 <=? red)%float = true -> is_finite red = true ->
  (0 <? nir + red)%float = true ->
  (-1 <=? ndvi_formula nir red)%float = true /\
  (ndvi_formula nir red <=? 1)%float = true.
Proof.
  intros Hn Hnf Hr Hrf Hpos.
  pose proof (normalised_difference_bound (Prim2SF nir) (Prim2SF red)
                (nonneg_finite_of_float nir Hn Hnf)
                (nonneg_finite_of_float red Hr Hrf)
                (Prim2SF_valid nir) (Prim2SF_valid red)) as H.
  rewrite FloatAxioms.ltb_spec, FloatAxioms.add_spec, Prim2SF_zero in Hpos.
  specialize (H Hpos).
  apply (magnitude_bound_leb _ one_mantissa (-52)) in H.
  unfold ndvi_formula.
  rewrite !FloatAxioms.leb_spec, FloatAxioms.div_spec, FloatAxioms.sub_spec,
    FloatAxioms.add_spec, Prim2SF_one, Prim2SF_minus_one.
  exact H.
Qed.

(** A value of the clipped raster is a non-negative finite number. *)
Lemma in_unit_nonneg_finite (x : float) :
  in_unit x = true -> (0 <=? x)%float = true /\ is_finite x = true.
Proof.
  unfold in_unit. intros H. apply andb_true_iff in H. destruct H as [H0 H1].
  split; [exact H0 | ].
  unfold is_finite. rewrite (leb_not_nan_l _ _ H1). simpl.
  unfold is_infinity.
  rewrite FloatAxioms.eqb_spec, FloatAxioms.abs_spec, Prim2SF_infinity.
  rewrite FloatAxioms.leb_spec, Prim2SF_one in H1.
  pose proof H0 as H0'. rewrite FloatAxioms.leb_spec, Prim2SF_zero in H0'.
  destruct (Prim2SF x) as [s | s | | s m e]; try reflexivity.
  destruct s; discriminate.
Qed.

(** C9.  For every table whose NIR and Red reflectances are non-negative
    numbers (as the values of the clipped raster are) with nir + red > 0,
    the index (nir - red) / (nir + red), as binary64 arithmetic computes it,
    lies in [-1, 1]. *)
Theorem ndvi_between_minus_one_and_one (d : Pd.DataFrame) (nir red : float) :
  Pd.iloc0 (Pd.loc_reflectance d "NIR") = Some nir ->
  Pd.iloc0 (Pd.loc_reflectance d "Red") = Some red ->
  (0 <=? nir)%float = true -> is_finite nir = true ->
  (0 <=? red)%float = true -> is_finite red = true ->
  (0 <? nir + red)%float = true ->
  exists v, ndvi_of_table d = Some v /\
            v = ((nir - red) / (nir + red))%float /\
            (-1 <=? v)%float = true /\ (v <=? 1)%float = true.
Proof.
  intros Hnir Hred Hn Hnf Hr Hrf Hpos.
  exists (ndvi_formula nir red). split; [ | split; [reflexivity | ]].
  - unfold ndvi_of_table. rewrite Hnir, Hred. reflexivity.
  - apply ndvi_formula_range; assumption.
Qed.

(** A vegetated pixel: NIR 0.488, Red 0.24. *)
Lemma ndvi_between_minus_one_and_one_witness :
  exists v,
    ndvi_of_table (table_of [0.144; 0.202; 0.24; 0.488; 0.336; 0.294]%float)
      = Some v /\
    v = ((0.488 - 0.24) / (0.488 + 0.24))%float /\
    (-1 <=? v)%float = true /\ (v <=? 1)%float = true.
Proof.
  apply (ndvi_between_minus_one_and_one
           (table_of [0.144; 0.202; 0.24; 0.488; 0.336; 0.294]%float)
           0.488 0.24); reflexivity.
Defined.

(** ** Band statistics *)

Lemma fold_left_choice {A : Type} (f : A -> A -> A) :
  (forall a b, f a b = a \/ f a b = b) ->
  forall xs x, In (fold_left f xs x) (x :: xs).
Proof.
  intros Hf. induction xs as [ | y ys IH]; intros x; simpl.
  - left. reflexivity.
  - destruct (IH (f x y)) as [H | H].
    + destruct (Hf x y) as [E | E]; [left | right; left];
        rewrite <- H; symmetry; exact E.
    + right. right. exact H.
Qed.

Lemma minimum_choice (a b : float) : Np.minimum a b = a \/ Np.minimum a b = b.
Proof. unfold Np.minimum. destruct ((a <=? b)%float || is_nan a); auto. Qed.

Lemma maximum_choice (a b : float) : Np.maximum a b = a \/ Np.maximum a b = b.
Proof. unfold Np.maximum. destruct ((b <=? a)%float || is_nan a); auto. Qed.

(** The reduction of a non-empty band by a choice function returns one of
    its elements. *)
Lemma reduce_choice (f : float -> float -> float) (P : float -> Prop)
  (rows cols : nat) (band : grid) :
  (forall a b, f a b = a \/ f a b = b) ->
  grid_shape (S rows) (S cols) band -> Forall (Forall P) band ->
  exists v, Np.reduce f band = Some v /\ P v.
Proof.
  intros Hf [Hr Hc] HP. unfold Np.reduce.
  assert (Forall P (concat band)) as Hall.
  { clear Hr Hc. induction HP as [ | r rs Hr' _ IH]; simpl.
    - constructor.
    - apply Forall_app. split; assumption. }
  destruct band as [ | r rs]; [discriminate Hr | ].
  inversion Hc as [ | ? ? Hlen _]; subst.
  destruct r as [ | x xs]; [discriminate Hlen | ].
  simpl in *. exists (fold_left f (xs ++ concat rs) x). split; [reflexivity | ].
  apply (proj1 (Forall_forall _ _) Hall).
  apply (fold_left_choice f Hf).
Qed.

(** One record per band, in the order of the registry, with a minimum and a
    maximum inside [0, 1]; nothing is said of the mean, which is NumPy's. *)
Lemma band_statistics_names_and_range (G : Np.Generator)
  (normal_not_nan :
     forall g, is_nan (fst (Np.normal1 G 0%float 0.002%float g)) = false)
  (mean : grid -> float) (os_entropy : Z) :
  exists stats,
    band_statistics mean (raster G os_entropy) = Some stats /\
    map stat_band stats = BANDS /\
    Forall (fun st => in_unit (stat_min st) = true /\
                      in_unit (stat_max st) = true) stats.
Proof.
  pose proof (raster_shape G os_entropy) as [Hlen Hshape].
  pose proof (raster_all_in_unit G normal_not_nan os_entropy) as Hunit.
  unfold all_elements in Hunit.
  destruct (raster G os_entropy)
    as [ | b0 [ | b1 [ | b2 [ | b3 [ | b4 [ | b5 [ | b6 t]]]]]]];
    try discriminate Hlen.
  assert (forall band, In band [b0; b1; b2; b3; b4; b5] ->
            exists mn mx, Np.min band = Some mn /\ Np.max band = Some mx /\
                          in_unit mn = true /\ in_unit mx = true) as Hband.
  { intros band Hin.
    pose proof (proj1 (Forall_forall _ _) Hshape band Hin) as Hs.
    pose proof (proj1 (Forall_forall _ _) Hunit band Hin) as Hu.
    destruct (reduce_choice Np.minimum (fun v => in_unit v = true) 2 2 band
                minimum_choice Hs Hu) as (mn & Emn & Pmn).
    destruct (reduce_choice Np.maximum (fun v => in_unit v = true) 2 2 band
                maximum_choice Hs Hu) as (mx & Emx & Pmx).
    exists mn, mx. auto. }
  destruct (Hband b0 ltac:(simpl; tauto)) as (n0 & x0 & En0 & Ex0 & Pn0 & Px0).
  destruct (Hband b1 ltac:(simpl; tauto)) as (n1 & x1 & En1 & Ex1 & Pn1 & Px1).
  destruct (Hband b2 ltac:(simpl; tauto)) as (n2 & x2 & En2 & Ex2 & Pn2 & Px2).
  destruct (Hband b3 ltac:(simpl; tauto)) as (n3 & x3 & En3 & Ex3 & Pn3 & Px3).
  destruct (Hband b4 ltac:(simpl; tauto)) as (n4 & x4 & En4 & Ex4 & Pn4 & Px4).
  destruct (Hband b5 ltac:(simpl; tauto)) as (n5 & x5 & En5 & Ex5 & Pn5 & Px5).
  eexists. split; [ | split].
  - unfold band_statistics. cbn [BANDS List.length seq combine mapM nth_error bind].
    rewrite En0, Ex0, En1, Ex1, En2, Ex2, En3, Ex3, En4, Ex4, En5, Ex5.
    cbn [bind]. reflexivity.
  - reflexivity.
  - repeat constructor; assumption.
Qed.

(** In binary64 an average can leave the range of its terms: nine copies of
    [x = 1 - 15 * 2^-53], a value of [0, 1], sum to a number whose ninth is
    above [x], whether they are added in pairs or one after the other. *)
Example average_of_equal_values_exceeds :
  let x := (1 - 15 * 0x1p-53)%float in
  let pairs := ((((x + x) + (x + x)) + ((x + x) + (x + x))) + x)%float in
  let chain := (((((((((0 + x) + x) + x) + x) + x) + x) + x) + x) + x)%float in
  in_unit x = true /\
  (x <? pairs / 9)%float = true /\ (x <? chain / 9)%float = true.
Proof. vm_compute. repeat split. Qed.

(** ** The index of a pixel of the raster *)

Lemma index_In {A : Type} (l : list A) (i : Z) (x : A) :
  Np.index l i = Some x -> In x l.
Proof.
  unfold Np.index.
  destruct ((0 <=? i) && (i <? Z.of_nat (List.length l)))%Z;
    [apply nth_error_In | ].
  destruct ((- Z.of_nat (List.length l) <=? i) && (i <? 0))%Z;
    [apply nth_error_In | discriminate].
Qed.

Lemma pixel_value_element (P : float -> Prop) (a : list grid) (b : nat)
  (r c : Z) (v : float) :
  all_elements P a -> pixel_value a b r c = Some v -> P v.
Proof.
  unfold all_elements, pixel_value. intros Hall.
  destruct (nth_error a b) as [band | ] eqn:Eb; [ | discriminate].
  cbn [bind]. destruct (Np.index band r) as [rw | ] eqn:Er; [ | discriminate].
  cbn [bind]. intros Ev.
  apply nth_error_In in Eb. apply index_In in Er. apply index_In in Ev.
  pose proof (proj1 (Forall_forall _ _) Hall band Eb) as Hband.
  pose proof (proj1 (Forall_forall _ _) Hband rw Er) as Hrow.
  exact (proj1 (Forall_forall _ _) Hrow v Ev).
Qed.

(** ** The table of any array: index and length errors *)

Lemma index_out_of_range {A : Type} (l : list A) (i : Z) :
  ~ (- Z.of_nat (List.length l) <= i < Z.of_nat (List.length l))%Z ->
  Np.index l i = None.
Proof.
  intros Hi. unfold Np.index.
  destruct ((0 <=? i) && (i <? Z.of_nat (List.length l)))%Z eqn:E.
  - apply andb_true_iff in E. destruct E as [E1 E2].
    apply Z.leb_le in E1. apply Z.ltb_lt in E2. lia.
  - destruct ((- Z.of_nat (List.length l) <=? i) && (i <? 0))%Z eqn:E'.
    + apply andb_true_iff in E'. destruct E' as [E1 E2].
      apply Z.leb_le in E1. apply Z.ltb_lt in E2. lia.
    + reflexivity.
Qed.

Lemma index_wrap {A : Type} (l : list A) (i : Z) :
  (0 <= i < Z.of_nat (List.length l))%Z ->
  Np.index l (i - Z.of_nat (List.length l)) = Np.index l i.
Proof.
  intros Hi. unfold Np.index.
  replace ((0 <=? i) && (i <? Z.of_nat (List.length l)))%Z with true
    by (symmetry; apply andb_true_iff; split;
        [apply Z.leb_le | apply Z.ltb_lt]; lia).
  replace ((0 <=? i - Z.of_nat (List.length l)) &&
           (i - Z.of_nat (List.length l) <? Z.of_nat (List.length l)))%Z
    with false
    by (symmetry; apply andb_false_iff; left; apply Z.leb_gt; lia).
  replace ((- Z.of_nat (List.length l) <=? i - Z.of_nat (List.length l)) &&
           (i - Z.of_nat (List.length l) <? 0))%Z with true
    by (symmetry; apply andb_true_iff; split;
        [apply Z.leb_le | apply Z.ltb_lt]; lia).
  f_equal. f_equal. lia.
Qed.

Lemma mapM_ext_Forall {A B : Type} (f g : A -> option B) (l : list A) :
  Forall (fun a => f a = g a) l -> mapM f l = mapM g l.
Proof.
  induction 1 as [ | a t Ha _ IH]; simpl; [reflexivity | ].
  rewrite Ha, IH. reflexivity.
Qed.

(** Outside the raster the slice raises, whatever the bands hold. *)
Lemma slice_pixel_out_of_range (bands rows cols : nat) (a : list grid)
  (r c : Z) :
  has_shape (S bands) rows cols a ->
  ~ ((- Z.of_nat rows <= r < Z.of_nat rows)%Z /\
     (- Z.of_nat cols <= c < Z.of_nat cols)%Z) ->
  Np.slice_pixel a r c = None.
Proof.
  intros [Hlen Hall] Hout.
  destruct a as [ | band a']; [discriminate Hlen | ].
  inversion Hall as [ | ? ? [Hrows Hcols] _]; subst.
  unfold Np.slice_pixel. cbn [mapM].
  destruct (Np.index band r) as [rw | ] eqn:Er; [ | reflexivity].
  cbn [bind].
  assert (- Z.of_nat (List.length band) <= r < Z.of_nat (List.length band))%Z
    as Hr.
  { destruct (Z_le_dec (- Z.of_nat (List.length band)) r) as [H1 | H1];
      [destruct (Z_lt_dec r (Z.of_nat (List.length band))) as [H2 | H2] | ];
      [lia | | ]; rewrite index_out_of_range in Er by lia; discriminate Er. }
  apply index_In in Er.
  pose proof (proj1 (Forall_forall _ _) Hcols rw Er) as Hrw. cbv beta in Hrw.
  rewrite (index_out_of_range rw c); [reflexivity | ]. lia.
Qed.

Lemma from_columns_length (bands : list string) (wl : list Z)
  (refl : list float) :
  List.length refl <> List.length bands ->
  Pd.from_columns bands wl refl = None.
Proof.
  revert wl refl.
  induction bands as [ | b bs IH]; intros [ | w ws] [ | r rs] H; simpl in *;
    try reflexivity; try congruence.
  rewrite IH by congruence. reflexivity.
Qed.

Lemma slice_pixel_length (a : list grid) (r c : Z) (vs : list float) :
  Np.slice_pixel a r c = Some vs -> List.length vs = List.length a.
Proof.
  intros H. apply mapM_Forall2 in H. symmetry. eapply Forall2_length, H.
Qed.

(** X1.  For an array of shape (bands, rows, cols) the pixel table is
    produced exactly when the array has 6 bands and the pixel index lies
    inside it (a negative index counting from the end); otherwise the slice
    raises an index error or the columns of the table differ in length. *)
Theorem spectrum_table_defined (bands rows cols : nat) (a : list grid)
  (r c : Z) :
  has_shape bands rows cols a ->
  (spectrum_table a r c = None <->
   ~ (bands = 6 /\ (- Z.of_nat rows <= r < Z.of_nat rows)%Z /\
      (- Z.of_nat cols <= c < Z.of_nat cols)%Z)).
Proof.
  intros Hs. split.
  - intros Hnone (Hb & Hr & Hc).
    destruct (slice_pixel_in_range bands rows cols a r c Hs Hr Hc)
      as (vs & Hvs & Hlen & _).
    destruct (from_columns_total BANDS WAVELENGTH_NM vs) as [d0 Hd0];
      [reflexivity | rewrite Hlen; exact Hb | ].
    unfold spectrum_table in Hnone. rewrite Hvs in Hnone. cbn [bind] in Hnone.
    rewrite Hd0 in Hnone. discriminate Hnone.
  - intros Hout. unfold spectrum_table.
    destruct (Nat.eq_dec bands 6) as [-> | Hne].
    + rewrite (slice_pixel_out_of_range 5 rows cols a r c Hs); [reflexivity | ].
      tauto.
    + destruct (Np.slice_pixel a r c) as [vs | ] eqn:E; [ | reflexivity].
      cbn [bind]. rewrite from_columns_length; [reflexivity | ].
      rewrite (slice_pixel_length a r c vs E). destruct Hs as [Hlen _].
      rewrite Hlen. exact Hne.
Qed.

(** The script's raster and pixel, under the [square_wave] generator. *)
Lemma spectrum_table_defined_witness :
  spectrum_table (raster square_wave 0) 1 2 = None <->
  ~ (6 = 6 /\ (- Z.of_nat 3 <= 1 < Z.of_nat 3)%Z /\
     (- Z.of_nat 3 <= 2 < Z.of_nat 3)%Z).
Proof.
  apply (spectrum_table_defined 6 3 3 (raster square_wave 0) 1 2).
  apply raster_shape.
Defined.

(** ** Negative indices *)

Lemma slice_pixel_wrap (bands rows cols : nat) (a : list grid)
  (r c r' c' : Z) :
  has_shape bands rows cols a ->
  (0 <= r < Z.of_nat rows)%Z -> (0 <= c < Z.of_nat cols)%Z ->
  r' = r \/ r' = (r - Z.of_nat rows)%Z ->
  c' = c \/ c' = (c - Z.of_nat cols)%Z ->
  Np.slice_pixel a r' c' = Np.slice_pixel a r c.
Proof.
  intros [_ Hall] Hr Hc Hr' Hc'. unfold Np.slice_pixel.
  apply mapM_ext_Forall. eapply Forall_impl; [ | exact Hall].
  intros band [Hrows Hcols].
  assert (Np.index band r' = Np.index band r) as ->.
  { destruct Hr' as [-> | ->]; [reflexivity | ].
    rewrite <- Hrows. apply index_wrap. lia. }
  destruct (Np.index band r) as [rw | ] eqn:Er; [ | reflexivity].
  cbn [bind]. apply index_In in Er.
  pose proof (proj1 (Forall_forall _ _) Hcols rw Er) as Hrw. cbv beta in Hrw.
  destruct Hc' as [-> | ->]; [reflexivity | ].
  rewrite <- Hrw. apply index_wrap. lia.
Qed.

(** X2.  A pixel index counted from the end names the same pixel: row
    [r - 3] is row [r] and column [c - 3] is column [c], so the tables are
    the same. *)
Theorem spectrum_table_negative_index (G : Np.Generator) (os_entropy : Z)
  (r c : Z) :
  (0 <= r < 3)%Z -> (0 <= c < 3)%Z ->
  spectrum_table (raster G os_entropy) (r - 3) c =
    spectrum_table (raster G os_entropy) r c /\
  spectrum_table (raster G os_entropy) r (c - 3) =
    spectrum_table (raster G os_entropy) r c /\
  spectrum_table (raster G os_entropy) (r - 3) (c - 3) =
    spectrum_table (raster G os_entropy) r c.
Proof.
  intros Hr Hc.
  pose proof (raster_shape G os_entropy) as Hs.
  unfold spectrum_table.
  rewrite (slice_pixel_wrap N_BANDS ROWS COLS _ r c (r - 3) c Hs Hr Hc)
    by (auto; right; reflexivity).
  rewrite (slice_pixel_wrap N_BANDS ROWS COLS _ r c r (c - 3) Hs Hr Hc)
    by (auto; right; reflexivity).
  rewrite (slice_pixel_wrap N_BANDS ROWS COLS _ r c (r - 3) (c - 3) Hs Hr Hc)
    by (right; reflexivity).
  repeat split.
Qed.

(** The script's pixel, addressed as (-2, -1). *)
Lemma spectrum_table_negative_index_witness :
  spectrum_table (raster square_wave 0) (1 - 3) 2 =
    spectrum_table (raster square_wave 0) 1 2 /\
  spectrum_table (raster square_wave 0) 1 (2 - 3) =
    spectrum_table (raster square_wave 0) 1 2 /\
  spectrum_table (raster square_wave 0) (1 - 3) (2 - 3) =
    spectrum_table (raster square_wave 0) 1 2.
Proof.
  apply (spectrum_table_negative_index square_wave 0 1 2); lia.
Defined.

(** ** The rows of the table *)

(** X3.  At every pixel of the raster the table lists the bands of the
    registry in their order, each with its wavelength, and the reflectance of
    row number [b] is the raster's value of band [b] at that pixel. *)
Theorem spectrum_table_rows (G : Np.Generator) (os_entropy : Z) (r c : Z) :
  (-3 <= r < 3)%Z -> (-3 <= c < 3)%Z ->
  exists d,
    spectrum_table (raster G os_entropy) r c = Some d /\
    map Pd.Band d = BANDS /\
    map Pd.Wavelength_nm d = WAVELENGTH_NM /\
    forall b, nth_error (map Pd.Reflectance d) b
              = pixel_value (raster G os_entropy) b r c.
Proof.
  intros Hr Hc.
  destruct (slice_pixel_in_range N_BANDS ROWS COLS (raster G os_entropy) r c)
    as (vs & Hvs & Hlen & Hnth);
    [apply raster_shape | exact Hr | exact Hc | ].
  destruct vs as [ | v0 [ | v1 [ | v2 [ | v3 [ | v4 [ | v5 [ | v6 t]]]]]]];
    try discriminate Hlen.
  exists (table_of [v0; v1; v2; v3; v4; v5]).
  split; [unfold spectrum_table; rewrite Hvs; reflexivity | ].
  split; [reflexivity | ]. split; [reflexivity | ].
  intros b. rewrite <- Hnth. reflexivity.
Qed.

(** The script's pixel, under the [square_wave] generator. *)
Lemma spectrum_table_rows_witness :
  exists d,
    spectrum_table (raster square_wave 0) 1 2 = Some d /\
    map Pd.Band d = BANDS /\
    map Pd.Wavelength_nm d = WAVELENGTH_NM /\
    forall b, nth_error (map Pd.Reflectance d) b
              = pixel_value (raster square_wave 0) b 1 2.
Proof.
  apply (spectrum_table_rows square_wave 0 1 2); lia.
Defined.

(** ** A table without the two bands *)

Lemma iloc0_loc_none (d : Pd.DataFrame) (name : string) :
  Pd.iloc0 (Pd.loc_reflectance d name) = None <-> ~ In name (map Pd.Band d).
Proof.
  unfold Pd.iloc0, Pd.loc_reflectance.
  induction d as [ | h t IH]; simpl.
  - split; [intros _ H; exact H | reflexivity].
  - destruct (String.eqb (Pd.Band h) name) eqn:E; simpl.
    + apply String.eqb_eq in E. split; [discriminate | ].
      intros H. exfalso. apply H. left. exact E.
    + apply String.eqb_neq in E. rewrite IH. tauto.
Qed.

Lemma iloc0_loc_some (d : Pd.DataFrame) (name : string) (v : float) :
  Pd.iloc0 (Pd.loc_reflectance d name) = Some v ->
  exists row, In row d /\ Pd.Band row = name /\ Pd.Reflectance row = v.
Proof.
  unfold Pd.iloc0, Pd.loc_reflectance.
  induction d as [ | h t IH]; simpl; [discriminate | ].
  destruct (String.eqb (Pd.Band h) name) eqn:E; simpl.
  - apply String.eqb_eq in E. intros [= <-]. exists h. auto.
  - intros H. destruct (IH H) as (row & Hin & Hrow). exists row. auto.
Qed.

(** X4.  The index of a table raises exactly when the table has no row
    named NIR or no row named Red; when it is computed, it is the formula of
    the reflectances of a row named NIR and a row named Red. *)
Theorem ndvi_of_table_missing_band (d : Pd.DataFrame) :
  (ndvi_of_table d = None <->
   ~ In "NIR"%string (map Pd.Band d) \/ ~ In "Red"%string (map Pd.Band d)) /\
  (forall v, ndvi_of_table d = Some v ->
     exists n r, In n d /\ In r d /\
       Pd.Band n = "NIR"%string /\ Pd.Band r = "Red"%string /\
       v = ndvi_formula (Pd.Reflectance n) (Pd.Reflectance r)).
Proof.
  unfold ndvi_of_table. split; [split | ].
  - destruct (Pd.iloc0 (Pd.loc_reflectance d "NIR")) as [nir | ] eqn:En;
      cbn [bind].
    + destruct (Pd.iloc0 (Pd.loc_reflectance d "Red")) as [red | ] eqn:Er;
        cbn [bind]; [discriminate | ].
      intros _. right. apply iloc0_loc_none, Er.
    + intros _. left. apply iloc0_loc_none, En.
  - intros [H | H]; apply iloc0_loc_none in H; rewrite H; [reflexivity | ].
    destruct (Pd.iloc0 (Pd.loc_reflectance d "NIR")); reflexivity.
  - intros v.
    destruct (Pd.iloc0 (Pd.loc_reflectance d "NIR")) as [nir | ] eqn:En;
      cbn [bind]; [ | discriminate].
    destruct (Pd.iloc0 (Pd.loc_reflectance d "Red")) as [red | ] eqn:Er;
      cbn [bind]; [ | discriminate].
    intros [= <-].
    destruct (iloc0_loc_some d _ nir En) as (n & Hn & Bn & Rn).
    destruct (iloc0_loc_some d _ red Er) as (r & Hr & Br & Rr).
    exists n, r. rewrite Rn, Rr. auto 6.
Qed.

(** ** The value of every pixel *)

(** One draw of the generator, named. *)
Ltac draw_next :=
  match goal with
  | |- context [Np.normal1 ?G ?l ?s ?g] =>
      let x := fresh "x" in
      let g' := fresh "g" in
      destruct (Np.normal1 G l s g) as [x g']
  end.

(** The six iterations of the loop, unrolled: 54 draws, in order, each
    added to its base reflectance and gradient. *)
Lemma raster_filled_unrolled (G : Np.Generator) (os_entropy : Z) :
  raster_filled G os_entropy
  = map (fun b =>
           map (fun r =>
                  map (fun c => synthetic_value G os_entropy b r c)
                      (seq 0 COLS))
               (seq 0 ROWS))
        (seq 0 N_BANDS).
Proof.
  unfold synthetic_value, raster_filled, noise_stream.
  change (N_BANDS * ROWS * COLS) with 54.
  generalize (rng G os_entropy). intros g0.
  cbn [N_BANDS BANDS List.length seq fold_left].
  repeat (cbn [fill_band ROWS COLS Np.normal Np.normal_row fst snd];
          draw_next).
  reflexivity.
Qed.

(** X5.  Band [b], row [r], column [c] of the raster holds, before the
    clip, [BASE[b] + (r * 0.01 + c * 0.005) + noise], where the noise is
    sample number [9 * b + 3 * r + c] of the generator seeded with 42; after
    the clip it holds that value clipped to [0, 1]. *)
Theorem raster_pixel_formula (G : Np.Generator) (os_entropy : Z)
  (b r c : nat) :
  b < 6 -> r < 3 -> c < 3 ->
  pixel_value (raster_filled G os_entropy) b (Z.of_nat r) (Z.of_nat c)
    = Some (synthetic_value G os_entropy b r c) /\
  pixel_value (raster G os_entropy) b (Z.of_nat r) (Z.of_nat c)
    = Some (Np.clip1 0 1 (synthetic_value G os_entropy b r c)).
Proof.
  intros Hb Hr Hc. unfold raster. rewrite raster_filled_unrolled.
  destruct b as [ | [ | [ | [ | [ | [ | b]]]]]]; try lia;
    destruct r as [ | [ | [ | r]]]; try lia;
    destruct c as [ | [ | [ | c]]]; try lia;
    split; reflexivity.
Qed.

(** The NIR value of the script's pixel, under the [square_wave]
    generator. *)
Lemma raster_pixel_formula_witness :
  pixel_value (raster_filled square_wave 0) 3 (Z.of_nat 1) (Z.of_nat 2)
    = Some (synthetic_value square_wave 0 3 1 2) /\
  pixel_value (raster square_wave 0) 3 (Z.of_nat 1) (Z.of_nat 2)
    = Some (Np.clip1 0 1 (synthetic_value square_wave 0 3 1 2)).
Proof.
  apply (raster_pixel_formula square_wave 0 3 1 2); lia.
Defined.

(** ** A sample that is no number *)

Lemma is_nan_clip1 (v : float) : is_nan (Np.clip1 0 1 v) = is_nan v.
Proof.
  unfold Np.clip1, Np.clip_max, Np.clip_min.
  destruct (is_nan v) eqn:En; [repeat (cbv iota; rewrite ?En); reflexivity | ].
  destruct (0 <? v)%float eqn:E0;
    [ | repeat (cbv iota; rewrite ?En, ?E0); reflexivity].
  destruct (v <? 1)%float eqn:E1;
    repeat (cbv iota; rewrite ?En, ?E0, ?E1); reflexivity.
Qed.

Lemma is_nan_add_finite (x s : float) :
  is_finite x = true -> is_nan (x + s) = is_nan s.
Proof.
  intros Hx. destruct (is_nan s) eqn:Es.
  - apply is_nan_true. rewrite FloatAxioms.add_spec.
    apply is_nan_true in Es. rewrite Es.
    destruct (Prim2SF x); reflexivity.
  - apply add_not_nan; assumption.
Qed.

Lemma synthetic_value_nan (G : Np.Generator) (os_entropy : Z) (b r c : nat) :
  b < 6 -> r < 3 -> c < 3 ->
  is_nan (Np.clip1 0 1 (synthetic_value G os_entropy b r c))
  = is_nan (nth (9 * b + 3 * r + c) (noise_stream G os_entropy) 0%float).
Proof.
  intros Hb Hr Hc. rewrite is_nan_clip1. unfold synthetic_value.
  apply is_nan_add_finite.
  destruct b as [ | [ | [ | [ | [ | [ | b]]]]]]; try lia;
    destruct r as [ | [ | [ | r]]]; try lia;
    destruct c as [ | [ | [ | c]]]; try lia; reflexivity.
Qed.

(** X6.  A value of the raster is a NaN exactly when the sample drawn for
    it is one: the clip passes a NaN through and repairs nothing else, an
    infinite sample being clipped to a number. *)
Theorem raster_nan_only_from_sample (G : Np.Generator) (os_entropy : Z)
  (b r c : nat) :
  b < 6 -> r < 3 -> c < 3 ->
  exists v,
    pixel_value (raster G os_entropy) b (Z.of_nat r) (Z.of_nat c) = Some v /\
    is_nan v
    = is_nan (nth (9 * b + 3 * r + c) (noise_stream G os_entropy) 0%float).
Proof.
  intros Hb Hr Hc.
  exists (Np.clip1 0 1 (synthetic_value G os_entropy b r c)). split.
  - unfold raster. rewrite raster_filled_unrolled.
    destruct b as [ | [ | [ | [ | [ | [ | b]]]]]]; try lia;
      destruct r as [ | [ | [ | r]]]; try lia;
      destruct c as [ | [ | [ | c]]]; try lia; reflexivity.
  - apply synthetic_value_nan; assumption.
Qed.

(** The NIR value of the script's pixel, under the [square_wave]
    generator. *)
Lemma raster_nan_only_from_sample_witness :
  exists v,
    pixel_value (raster square_wave 0) 3 (Z.of_nat 1) (Z.of_nat 2) = Some v /\
    is_nan v
    = is_nan (nth (9 * 3 + 3 * 1 + 2) (noise_stream square_wave 0) 0%float).
Proof.
  apply (raster_nan_only_from_sample square_wave 0 3 1 2); lia.
Defined.

(** ** One generator, seeded once *)

(** C5.  The generator is seeded once, with the integer 42, whatever entropy
    the operating system offers the run, and the loop takes all its noise
    from that one stream: element (b, r, c) gets sample [9 * b + 3 * r + c]
    of the 54 that follow the seed.  So two independent runs, each with a
    generator and an entropy of its own, whose generators reproduce the same
    samples from the seed 42, produce the same (6, 3, 3) array. *)
Theorem raster_deterministic (G1 G2 : Np.Generator) (run1 run2 : Z) :
  seeded_samples G1 42 54 = seeded_samples G2 42 54 ->
  rng G1 run1 = Np.seed_state G1 42 /\
  (forall b r c : nat, b < 6 -> r < 3 -> c < 3 ->
     pixel_value (raster_filled G1 run1) b (Z.of_nat r) (Z.of_nat c)
     = Some (nth b BASE 0
             + (Np.float_of_Z (Z.of_nat r) * 0.01
                + Np.float_of_Z (Z.of_nat c) * 0.005)
             + nth (9 * b + 3 * r + c) (seeded_samples G1 42 54) 0)%float) /\
  raster G1 run1 = raster G2 run2 /\
  has_shape 6 3 3 (raster G1 run1).
Proof.
  intros Hsame.
  assert (forall G run, noise_stream G run = seeded_samples G 42 54) as Hs
    by reflexivity.
  split; [reflexivity | ]. split.
  - intros b r c Hb Hr Hc. rewrite raster_filled_unrolled.
    unfold synthetic_value. rewrite Hs.
    destruct b as [ | [ | [ | [ | [ | [ | b]]]]]]; try lia;
      destruct r as [ | [ | [ | r]]]; try lia;
      destruct c as [ | [ | [ | c]]]; try lia; reflexivity.
  - split; [ | apply raster_shape].
    unfold raster. rewrite !raster_filled_unrolled. unfold synthetic_value.
    rewrite !Hs, Hsame. reflexivity.
Qed.

(** Two runs: one with the generator that counts its draws, one with the
    generator of two states; they hand out the same samples. *)
Lemma raster_deterministic_witness :
  rng square_wave_counter 7 = Np.seed_state square_wave_counter 42 /\
  (forall b r c : nat, b < 6 -> r < 3 -> c < 3 ->
     pixel_value (raster_filled square_wave_counter 7) b
       (Z.of_nat r) (Z.of_nat c)
     = Some (nth b BASE 0
             + (Np.float_of_Z (Z.of_nat r) * 0.01
                + Np.float_of_Z (Z.of_nat c) * 0.005)
             + nth (9 * b + 3 * r + c)
                   (seeded_samples square_wave_counter 42 54) 0)%float) /\
  raster square_wave_counter 7 = raster square_wave 11 /\
  has_shape 6 3 3 (raster square_wave_counter 7).
Proof.
  apply (raster_deterministic square_wave_counter square_wave 7 11).
  reflexivity.
Defined.

(** ** The raster as a function of the samples *)

(** X19.  The raster depends on the generator through its first 54 samples
    only: two generators, of whatever states, that hand out the same samples
    give the same array, before the clip and after. *)
Theorem raster_from_noise_stream (G1 G2 : Np.Generator) (run1 run2 : Z) :
  noise_stream G1 run1 = noise_stream G2 run2 ->
  raster_filled G1 run1 = raster_filled G2 run2 /\
  raster G1 run1 = raster G2 run2.
Proof.
  intros H.
  assert (raster_filled G1 run1 = raster_filled G2 run2) as E.
  { rewrite !raster_filled_unrolled. unfold synthetic_value. rewrite H.
    reflexivity. }
  split; [exact E | ]. unfold raster. rewrite E. reflexivity.
Qed.

(** The two square waves, one of two states, one counting its draws. *)
Lemma raster_from_noise_stream_witness :
  raster_filled square_wave 0 = raster_filled square_wave_counter 1 /\
  raster square_wave 0 = raster square_wave_counter 1.
Proof.
  apply (raster_from_noise_stream square_wave square_wave_counter 0 1).
  reflexivity.
Defined.

(** ** Clipping twice *)

Lemma clip1_idempotent (x : float) :
  Np.clip1 0 1 (Np.clip1 0 1 x) = Np.clip1 0 1 x.
Proof.
  unfold Np.clip1, Np.clip_max, Np.clip_min.
  destruct (is_nan x) eqn:En; [repeat (cbv iota; rewrite ?En); reflexivity | ].
  destruct (0 <? x)%float eqn:E0;
    [ | repeat (cbv iota; rewrite ?En, ?E0); reflexivity].
  destruct (x <? 1)%float eqn:E1;
    repeat (cbv iota; rewrite ?En, ?E0, ?E1); reflexivity.
Qed.

(** X7.  Clipping to [0, 1] is idempotent: an array already clipped is left
    as it is by a second clip, NaN elements included. *)
Theorem clip_idempotent (a : list grid) :
  Np.clip (Np.clip a 0 1) 0 1 = Np.clip a 0 1.
Proof.
  unfold Np.clip. rewrite map_map. apply map_ext. intros band.
  rewrite map_map. apply map_ext. intros r.
  rewrite map_map. apply map_ext. intros x. apply clip1_idempotent.
Qed.

(** ** Sorting any table *)

Lemma insert_last (r : Pd.Row) (d : Pd.DataFrame) :
  Forall (fun x => (Pd.Wavelength_nm x <= Pd.Wavelength_nm r)%Z) d ->
  Pd.insert r d = d ++ [r].
Proof.
  induction 1 as [ | h t Hh _ IH]; simpl; [reflexivity | ].
  replace (Pd.Wavelength_nm r <? Pd.Wavelength_nm h)%Z with false
    by (symmetry; apply Z.ltb_ge; exact Hh).
  rewrite IH. reflexivity.
Qed.

Lemma fold_insert_ascending (d acc : Pd.DataFrame) :
  ascending_by_wavelength (acc ++ d) ->
  fold_left (fun sorted r => Pd.insert r sorted) d acc = acc ++ d.
Proof.
  unfold ascending_by_wavelength. revert acc.
  induction d as [ | r t IH]; intros acc Hs; simpl.
  - rewrite app_nil_r. reflexivity.
  - assert (Forall (fun x => (Pd.Wavelength_nm x <= Pd.Wavelength_nm r)%Z) acc)
      as Hacc.
    { clear IH. induction acc as [ | a acc' IHa]; [constructor | ].
      simpl in Hs. inversion Hs as [ | ? ? Hs' Ha]; subst.
      constructor; [ | apply IHa, Hs'].
      pose proof (proj1 (Forall_forall _ _) Ha r) as H.
      specialize (H ltac:(apply in_or_app; right; left; reflexivity)).
      cbv beta in H. lia. }
    rewrite insert_last by exact Hacc.
    rewrite IH; rewrite <- app_assoc; [reflexivity | exact Hs].
Qed.

(** X8.  For every table the sort by wavelength returns the same rows,
    in ascending order of wavelength; a table that ascends strictly already
    is returned unchanged. *)
Theorem sort_values_spec (d : Pd.DataFrame) :
  Permutation (Pd.sort_values d) d /\
  StronglySorted key_le (Pd.sort_values d) /\
  (ascending_by_wavelength d -> Pd.sort_values d = d).
Proof.
  split; [apply sort_values_perm | ]. split; [apply sort_values_sorted | ].
  intros H. unfold Pd.sort_values. apply (fold_insert_ascending d []). exact H.
Qed.

(** ** The origin of the grid *)

Lemma finite_or_zero_of_float (x : float) :
  is_finite x = true -> finite_or_zero (Prim2SF x).
Proof.
  intros H. destruct (is_finite_true x H) as [Hn Hi].
  destruct (Prim2SF x) as [s | s | | s m e]; try exact I; [ | congruence].
  exact (Hi s eq_refl).
Qed.

Lemma SFeqb_refl (x : spec_float) :
  SFeqb x x = match x with S754_nan => false | _ => true end.
Proof.
  unfold SFeqb. destruct x as [s | s | | s m e]; try reflexivity.
  - destruct s; reflexivity.
  - rewrite SFcompare_refl by discriminate. reflexivity.
Qed.

(** Adding or subtracting a zero leaves a number where it is. *)
Lemma SF64add_zero_eqb (x : spec_float) (s : bool) :
  SFeqb (SF64add x (S754_zero s)) x
  = match x with S754_nan => false | _ => true end.
Proof.
  destruct x as [sx | sx | | sx m e]; try reflexivity.
  - destruct sx, s; reflexivity.
  - destruct sx; reflexivity.
  - apply SFeqb_refl.
Qed.

Lemma SF64sub_zero_eqb (x : spec_float) (s : bool) :
  SFeqb (SF64sub x (S754_zero s)) x
  = match x with S754_nan => false | _ => true end.
Proof.
  destruct x as [sx | sx | | sx m e]; try reflexivity.
  - destruct sx, s; reflexivity.
  - destruct sx; reflexivity.
  - apply SFeqb_refl.
Qed.

Lemma SF64mul_zero_finite (x : spec_float) :
  finite_or_zero x ->
  exists s, SF64mul (S754_zero false) x = S754_zero s.
Proof.
  destruct x as [s | s | | s m e]; try contradiction; intros _;
    eexists; reflexivity.
Qed.

Lemma is_nan_match (x : float) :
  match Prim2SF x with S754_nan => false | _ => true end = negb (is_nan x).
Proof.
  destruct (is_nan x) eqn:E.
  - apply is_nan_true in E. rewrite E. reflexivity.
  - apply is_nan_false in E. destruct (Prim2SF x); try reflexivity.
    congruence.
Qed.

(** X9.  Without centring, pixel (0, 0) maps to the origin of the grid:
    for finite resolutions the coordinates returned equal [x0] and [y0],
    whenever these are numbers. *)
Theorem rowcol_to_xy_origin (x0 y0 xres yres : float) :
  is_finite xres = true -> is_finite yres = true ->
  (fst (rowcol_to_xy 0 0 x0 y0 xres yres false) =? x0)%float
    = negb (is_nan x0) /\
  (snd (rowcol_to_xy 0 0 x0 y0 xres yres false) =? y0)%float
    = negb (is_nan y0).
Proof.
  intros Hx Hy. unfold rowcol_to_xy. cbn [fst snd].
  rewrite !FloatAxioms.eqb_spec, FloatAxioms.add_spec, FloatAxioms.sub_spec,
    !FloatAxioms.mul_spec, Prim2SF_zero.
  destruct (SF64mul_zero_finite _ (finite_or_zero_of_float xres Hx)) as [sx ->].
  destruct (SF64mul_zero_finite _ (finite_or_zero_of_float yres Hy)) as [sy ->].
  rewrite SF64add_zero_eqb, SF64sub_zero_eqb, !is_nan_match. auto.
Qed.

(** The georeference of the script. *)
Lemma rowcol_to_xy_origin_witness :
  (fst (rowcol_to_xy 0 0 X0 Y0 XRES YRES false) =? X0)%float
    = negb (is_nan X0) /\
  (snd (rowcol_to_xy 0 0 X0 Y0 XRES YRES false) =? Y0)%float
    = negb (is_nan Y0).
Proof.
  apply (rowcol_to_xy_origin X0 Y0 XRES YRES); reflexivity.
Defined.

(** ** The index under a swap of the two bands *)

Lemma binary_round_aux_opp (s : bool) (m e : Z) (l : location) :
  binary_round_aux prec emax (negb s) m e l
  = SFopp (binary_round_aux prec emax s m e l).
Proof.
  unfold binary_round_aux.
  destruct (shr_fexp prec emax m e l) as [mrs1 e1].
  destruct (shr_fexp prec emax _ e1 loc_Exact) as [mrs2 e2].
  destruct (shr_m mrs2); try reflexivity.
  destruct (e2 <=? emax - prec)%Z; reflexivity.
Qed.

Lemma binary_round_opp (s : bool) (m : positive) (e : Z) :
  binary_round prec emax (negb s) m e = SFopp (binary_round prec emax s m e).
Proof.
  unfold binary_round. destruct (shl_align m e _) as [mz ez].
  apply binary_round_aux_opp.
Qed.

Lemma binary_normalize_opp (m e : Z) :
  m <> 0%Z ->
  binary_normalize prec emax (- m) e false
  = SFopp (binary_normalize prec emax m e false).
Proof.
  destruct m as [ | p | p]; [congruence | | ]; intros _; simpl.
  - apply (binary_round_opp false).
  - apply (binary_round_opp true).
Qed.

Lemma SF64add_comm (x y : spec_float) : SF64add x y = SF64add y x.
Proof.
  destruct x as [sx | sx | | sx mx ex], y as [sy | sy | | sy my ey];
    try reflexivity; try (destruct sx, sy; reflexivity).
  unfold SF64add, SFadd. rewrite (Z.min_comm ey ex). f_equal. apply Z.add_comm.
Qed.

(** The two differences are opposite, or both the positive zero. *)
Lemma SF64sub_swap (x y : spec_float) :
  SF64sub y x = SFopp (SF64sub x y) \/
  (SF64sub x y = S754_zero false /\ SF64sub y x = S754_zero false).
Proof.
  destruct x as [sx | sx | | sx mx ex], y as [sy | sy | | sy my ey];
    try (left; reflexivity);
    try (destruct sx, sy; (left; reflexivity) || (right; split; reflexivity));
    try (destruct sx; left; reflexivity);
    try (destruct sy; left; reflexivity).
  unfold SF64sub, SFsub. rewrite (Z.min_comm ey ex).
  set (a := cond_Zopp sx (Zpos (fst (shl_align mx ex (Z.min ex ey))))).
  set (b := cond_Zopp sy (Zpos (fst (shl_align my ey (Z.min ex ey))))).
  destruct (Z.eq_dec (a - b) 0) as [E | E].
  - right. replace (b - a)%Z with 0%Z by lia. rewrite E. split; reflexivity.
  - left. replace (b - a)%Z with (- (a - b))%Z by lia.
    apply binary_normalize_opp, E.
Qed.

Lemma SF64div_opp_l (x y : spec_float) :
  SF64div (SFopp x) y = SFopp (SF64div x y).
Proof.
  destruct x as [sx | sx | | sx mx ex], y as [sy | sy | | sy my ey];
    try reflexivity; try (destruct sx, sy; reflexivity).
  unfold SF64div, SFdiv. cbn [SFopp].
  destruct (SFdiv_core_binary prec emax (Zpos mx) ex (Zpos my) ey)
    as [[mz ez] lz].
  replace (xorb (negb sx) sy) with (negb (xorb sx sy))
    by (destruct sx, sy; reflexivity).
  apply binary_round_aux_opp.
Qed.

Lemma SFeqb_opp_self (x : spec_float) :
  match x with S754_zero _ | S754_nan => True | _ => False end ->
  SFeqb x (SFopp x) = match x with S754_nan => false | _ => true end.
Proof. destruct x as [s | s | | s m e]; try contradiction; reflexivity. Qed.

Lemma SF64div_zero_l (y : spec_float) :
  match SF64div (S754_zero false) y with
  | S754_zero _ | S754_nan => True
  | _ => False
  end.
Proof. destruct y; exact I. Qed.

(** X10.  Swapping the two reflectances negates the index: unless the index
    is a NaN, [(red - nir) / (red + nir)] equals the opposite of
    [(nir - red) / (nir + red)]. *)
Theorem ndvi_swap_bands (nir red : float) :
  (ndvi_formula red nir =? - ndvi_formula nir red)%float
  = negb (is_nan (ndvi_formula nir red)).
Proof.
  rewrite <- is_nan_match.
  rewrite FloatAxioms.eqb_spec, FloatAxioms.opp_spec. unfold ndvi_formula.
  rewrite !FloatAxioms.div_spec, !FloatAxioms.sub_spec, !FloatAxioms.add_spec.
  rewrite (SF64add_comm (Prim2SF red) (Prim2SF nir)).
  set (D := SF64add (Prim2SF nir) (Prim2SF red)).
  destruct (SF64sub_swap (Prim2SF nir) (Prim2SF red)) as [-> | [-> ->]].
  - rewrite SF64div_opp_l, SFeqb_refl.
    destruct (SF64div (SF64sub (Prim2SF nir) (Prim2SF red)) D); reflexivity.
  - apply SFeqb_opp_self, SF64div_zero_l.
Qed.

(** ** The ends of the range *)

Lemma div_eucl_exact (a k : Z) :
  (0 < a)%Z -> Z.div_eucl (a * k) a = (k, 0%Z).
Proof.
  intros Ha.
  rewrite (surjective_pairing (Z.div_eucl (a * k) a)).
  change (fst (Z.div_eucl (a * k) a)) with (a * k / a)%Z.
  change (snd (Z.div_eucl (a * k) a)) with ((a * k) mod a)%Z.
  rewrite (Z.mul_comm a k), Z_div_mult by lia. rewrite Z_mod_mult.
  reflexivity.
Qed.

(** A finite number divided by itself is one, up to the sign. *)
Lemma SF64div_self (sx sy : bool) (m : positive) (e : Z) :
  SF64div (S754_finite sx m e) (S754_finite sy m e)
  = S754_finite (xorb sx sy) one_mantissa (-52).
Proof.
  unfold SF64div, SFdiv, SFdiv_core_binary. cbv zeta.
  replace (Zdigits2 (Zpos m) + e - (Zdigits2 (Zpos m) + e))%Z with 0%Z by lia.
  replace (e - e)%Z with 0%Z by lia.
  change (Z.min (fexp prec emax 0) 0) with (-53)%Z.
  change (0 - -53)%Z with 53%Z. cbv iota.
  rewrite Z.shiftl_mul_pow2 by lia.
  rewrite div_eucl_exact by lia.
  rewrite new_location_zero.
  destruct (xorb sx sy); vm_compute; reflexivity.
Qed.

(** The sum of a positive finite number with itself is positive. *)
Lemma SF64add_self_positive (m : positive) (e : Z) :
  bounded prec emax m e = true ->
  match SF64add (S754_finite false m e) (S754_finite false m e) with
  | S754_infinity false | S754_finite false _ _ => True
  | _ => False
  end.
Proof.
  intros Hb. unfold SF64add, SFadd. cbn [cond_Zopp]. rewrite Z.min_id.
  destruct (shl_align_spec m e e) as [_ Hm].
  rewrite Z.min_id, Z.sub_diag, Z.pow_0_r, Z.mul_1_r in Hm.
  set (p := fst (shl_align m e e)) in *.
  change (Zpos p + Zpos p)%Z with (Zpos (p + p)). cbn [binary_normalize].
  pose proof (binary_round_lower (p + p) e m e Hb ltac:(lia)) as H.
  rewrite Z.sub_diag, Z.pow_0_r, Z.mul_1_r in H. specialize (H ltac:(lia)).
  destruct (binary_round prec emax false (p + p) e) as [s | s | | s m2 e2];
    try contradiction.
  - destruct s; [contradiction | exact I].
  - destruct s; [contradiction | exact I].
Qed.

Lemma positive_finite_cases (x : float) :
  (0 <? x)%float = true -> is_finite x = true ->
  exists m e, Prim2SF x = S754_finite false m e /\
              bounded prec emax m e = true.
Proof.
  intros Hpos Hfin. pose proof (Prim2SF_valid x) as Hv.
  pose proof (is_finite_true x Hfin) as [_ Hi].
  rewrite FloatAxioms.ltb_spec, Prim2SF_zero in Hpos.
  destruct (Prim2SF x) as [s | s | | s m e]; try discriminate Hpos.
  - exfalso. exact (Hi s eq_refl).
  - destruct s; [discriminate Hpos | ]. exists m, e. auto.
Qed.

(** X11.  The ends and the middle of the range are reached exactly: for a
    positive finite reflectance [x], the index is 1 when the red reflectance
    is zero, -1 when the NIR reflectance is zero, and 0 when the two are
    equal. *)
Theorem ndvi_formula_endpoints (x z : float) :
  (0 <? x)%float = true -> is_finite x = true -> (z =? 0)%float = true ->
  ndvi_formula x z = 1%float /\
  ndvi_formula z x = (-1)%float /\
  ndvi_formula x x = 0%float.
Proof.
  intros Hpos Hfin Hz.
  destruct (positive_finite_cases x Hpos Hfin) as (m & e & Ex & Hb).
  destruct (eqb_zero z Hz) as [s Ez].
  unfold ndvi_formula. repeat split; apply Prim2SF_inj;
    rewrite FloatAxioms.div_spec, FloatAxioms.sub_spec, FloatAxioms.add_spec,
      ?Ex, ?Ez.
  - change (SF64sub (S754_finite false m e) (S754_zero s))
      with (S754_finite false m e).
    change (SF64add (S754_finite false m e) (S754_zero s))
      with (S754_finite false m e).
    rewrite SF64div_self, Prim2SF_one. reflexivity.
  - change (SF64sub (S754_zero s) (S754_finite false m e))
      with (S754_finite true m e).
    change (SF64add (S754_zero s) (S754_finite false m e))
      with (S754_finite false m e).
    rewrite SF64div_self, Prim2SF_minus_one. reflexivity.
  - assert (SF64sub (S754_finite false m e) (S754_finite false m e)
            = S754_zero false) as ->.
    { unfold SF64sub, SFsub. rewrite Z.sub_diag. reflexivity. }
    pose proof (SF64add_self_positive m e Hb) as H.
    rewrite Prim2SF_zero.
    destruct (SF64add (S754_finite false m e) (S754_finite false m e))
      as [s' | s' | | s' m' e']; try contradiction;
      destruct s'; try contradiction; reflexivity.
Qed.

(** The base reflectance of the NIR band. *)
Lemma ndvi_formula_endpoints_witness :
  ndvi_formula 0.46 0 = 1%float /\
  ndvi_formula 0 0.46 = (-1)%float /\
  ndvi_formula 0.46 0.46 = 0%float.
Proof.
  apply (ndvi_formula_endpoints 0.46 0); reflexivity.
Defined.

(** ** The order of the floats *)

Lemma SFleb_refl (x : spec_float) : x <> S754_nan -> SFleb x x = true.
Proof.
  intros H. unfold SFleb. rewrite SFcompare_refl by exact H. reflexivity.
Qed.

Lemma pos_compare_cases (p q : positive) :
  (Pos.compare_cont Eq p q = Lt /\ (p < q)%positive) \/
  (Pos.compare_cont Eq p q = Eq /\ p = q) \/
  (Pos.compare_cont Eq p q = Gt /\ (q < p)%positive).
Proof.
  change (Pos.compare_cont Eq p q) with (Pos.compare p q).
  destruct (Pos.compare_spec p q); auto.
Qed.

Lemma Z_compare_cases (a b : Z) :
  ((a ?= b)%Z = Lt /\ (a < b)%Z) \/
  ((a ?= b)%Z = Eq /\ a = b) \/
  ((a ?= b)%Z = Gt /\ (b < a)%Z).
Proof. destruct (Z.compare_spec a b); auto. Qed.

(** The comparisons of a goal, case by case. *)
Ltac order_cases :=
  repeat match goal with
  | |- context [Pos.compare_cont Eq ?p ?q] =>
      destruct (pos_compare_cases p q) as [[-> ?] | [[-> ?] | [-> ?]]]
  | H : context [Pos.compare_cont Eq ?p ?q] |- _ =>
      destruct (pos_compare_cases p q) as [[E ?] | [[E ?] | [E ?]]];
      rewrite E in *; clear E
  | |- context [(?a ?= ?b)%Z] =>
      destruct (Z_compare_cases a b) as [[-> ?] | [[-> ?] | [-> ?]]]
  | H : context [(?a ?= ?b)%Z] |- _ =>
      destruct (Z_compare_cases a b) as [[E ?] | [[E ?] | [E ?]]];
      rewrite E in *; clear E
  end.

Lemma SFleb_trans (x y z : spec_float) :
  SFleb x y = true -> SFleb y z = true -> SFleb x z = true.
Proof.
  unfold SFleb, SFcompare.
  destruct x as [sx | sx | | sx mx ex], y as [sy | sy | | sy my ey],
    z as [sz | sz | | sz mz ez];
    try discriminate; try reflexivity;
    try (destruct sx; try discriminate; try reflexivity);
    try (destruct sy; try discriminate; try reflexivity);
    try (destruct sz; try discriminate; try reflexivity).
  all: intros H1 H2; order_cases; subst; try discriminate; try reflexivity;
    try lia.
Qed.

Lemma SFleb_total (x y : spec_float) :
  x <> S754_nan -> y <> S754_nan -> SFleb x y = true \/ SFleb y x = true.
Proof.
  unfold SFleb, SFcompare.
  destruct x as [sx | sx | | sx mx ex], y as [sy | sy | | sy my ey];
    try congruence; intros _ _;
    try (destruct sx; auto; fail); try (destruct sy; auto; fail);
    try (destruct sx, sy; auto; fail); auto.
  destruct sx, sy; auto; order_cases; subst; auto; lia.
Qed.

Lemma SFleb_opp (x y : spec_float) :
  SFleb (SFopp y) (SFopp x) = SFleb x y.
Proof.
  unfold SFleb, SFcompare.
  destruct x as [sx | sx | | sx mx ex], y as [sy | sy | | sy my ey];
    try reflexivity;
    try (destruct sx; reflexivity); try (destruct sy; reflexivity);
    try (destruct sx, sy; reflexivity).
  destruct sx, sy; cbn [SFopp negb]; try reflexivity;
    order_cases; subst; try reflexivity; lia.
Qed.

Lemma SFltb_leb_trans (x y z : spec_float) :
  SFltb x y = true -> SFleb y z = true -> SFltb x z = true.
Proof.
  unfold SFltb, SFleb, SFcompare.
  destruct x as [sx | sx | | sx mx ex], y as [sy | sy | | sy my ey],
    z as [sz | sz | | sz mz ez];
    try discriminate; try reflexivity;
    try (destruct sx; try discriminate; try reflexivity);
    try (destruct sy; try discriminate; try reflexivity);
    try (destruct sz; try discriminate; try reflexivity).
  all: intros H1 H2; order_cases; subst; try discriminate; try reflexivity;
    try lia.
Qed.

Lemma SFleb_ltb_trans (x y z : spec_float) :
  SFleb x y = true -> SFltb y z = true -> SFltb x z = true.
Proof.
  unfold SFltb, SFleb, SFcompare.
  destruct x as [sx | sx | | sx mx ex], y as [sy | sy | | sy my ey],
    z as [sz | sz | | sz mz ez];
    try discriminate; try reflexivity;
    try (destruct sx; try discriminate; try reflexivity);
    try (destruct sy; try discriminate; try reflexivity);
    try (destruct sz; try discriminate; try reflexivity).
  all: intros H1 H2; order_cases; subst; try discriminate; try reflexivity;
    try lia.
Qed.

Lemma leb_trans (x y z : float) :
  (x <=? y)%float = true -> (y <=? z)%float = true -> (x <=? z)%float = true.
Proof. rewrite !FloatAxioms.leb_spec. apply SFleb_trans. Qed.

Lemma leb_refl (x : float) : is_nan x = false -> (x <=? x)%float = true.
Proof.
  intros H. rewrite FloatAxioms.leb_spec. apply SFleb_refl, is_nan_false, H.
Qed.

Lemma leb_total (x y : float) :
  is_nan x = false -> is_nan y = false ->
  (x <=? y)%float = true \/ (y <=? x)%float = true.
Proof.
  intros Hx Hy. rewrite !FloatAxioms.leb_spec.
  apply SFleb_total; apply is_nan_false; assumption.
Qed.

Lemma ltb_leb_trans (x y z : float) :
  (x <? y)%float = true -> (y <=? z)%float = true -> (x <? z)%float = true.
Proof.
  rewrite !FloatAxioms.ltb_spec, FloatAxioms.leb_spec. apply SFltb_leb_trans.
Qed.

Lemma leb_ltb_trans (x y z : float) :
  (x <=? y)%float = true -> (y <? z)%float = true -> (x <? z)%float = true.
Proof.
  rewrite !FloatAxioms.ltb_spec, FloatAxioms.leb_spec. apply SFleb_ltb_trans.
Qed.

Lemma ltb_not_nan_r (x y : float) : (x <? y)%float = true -> is_nan y = false.
Proof. intros H. eapply leb_not_nan_r, ltb_leb, H. Qed.

Lemma is_finite_not_nan (a : float) : is_finite a = true -> is_nan a = false.
Proof.
  unfold is_finite. rewrite negb_true_iff, orb_false_iff. intros [H _]. exact H.
Qed.

(** ** The extremes of a band *)

Lemma minimum_le (a b : float) :
  is_nan a = false -> is_nan b = false ->
  (Np.minimum a b <=? a)%float = true /\ (Np.minimum a b <=? b)%float = true.
Proof.
  intros Ha Hb. unfold Np.minimum. rewrite Ha, orb_false_r.
  destruct (a <=? b)%float eqn:E.
  - split; [apply leb_refl, Ha | exact E].
  - destruct (leb_total a b Ha Hb) as [H | H]; [congruence | ].
    split; [exact H | apply leb_refl, Hb].
Qed.

Lemma maximum_ge (a b : float) :
  is_nan a = false -> is_nan b = false ->
  (a <=? Np.maximum a b)%float = true /\ (b <=? Np.maximum a b)%float = true.
Proof.
  intros Ha Hb. unfold Np.maximum. rewrite Ha, orb_false_r.
  destruct (b <=? a)%float eqn:E.
  - split; [apply leb_refl, Ha | exact E].
  - destruct (leb_total a b Ha Hb) as [H | H]; [ | congruence].
    split; [exact H | apply leb_refl, Hb].
Qed.

Lemma fold_minimum_lower (xs : list float) (x : float) :
  Forall (fun v => is_nan v = false) (x :: xs) ->
  Forall (fun v => (fold_left Np.minimum xs x <=? v)%float = true) (x :: xs).
Proof.
  revert x. induction xs as [ | y ys IH]; intros x H; simpl.
  - inversion H; subst. constructor; [apply leb_refl; assumption | constructor].
  - inversion H as [ | ? ? Hx Hrest]; subst.
    inversion Hrest as [ | ? ? Hy Hys]; subst.
    destruct (minimum_le x y Hx Hy) as [Hmx Hmy].
    assert (is_nan (Np.minimum x y) = false) as Hm
      by (destruct (minimum_choice x y) as [-> | ->]; assumption).
    specialize (IH (Np.minimum x y) (Forall_cons _ Hm Hys)).
    inversion IH as [ | ? ? Hhead Htail]; subst.
    constructor; [eapply leb_trans; eassumption | ].
    constructor; [eapply leb_trans; eassumption | exact Htail].
Qed.

Lemma fold_maximum_upper (xs : list float) (x : float) :
  Forall (fun v => is_nan v = false) (x :: xs) ->
  Forall (fun v => (v <=? fold_left Np.maximum xs x)%float = true) (x :: xs).
Proof.
  revert x. induction xs as [ | y ys IH]; intros x H; simpl.
  - inversion H; subst. constructor; [apply leb_refl; assumption | constructor].
  - inversion H as [ | ? ? Hx Hrest]; subst.
    inversion Hrest as [ | ? ? Hy Hys]; subst.
    destruct (maximum_ge x y Hx Hy) as [Hmx Hmy].
    assert (is_nan (Np.maximum x y) = false) as Hm
      by (destruct (maximum_choice x y) as [-> | ->]; assumption).
    specialize (IH (Np.maximum x y) (Forall_cons _ Hm Hys)).
    inversion IH as [ | ? ? Hhead Htail]; subst.
    constructor; [eapply leb_trans; eassumption | ].
    constructor; [eapply leb_trans; eassumption | exact Htail].
Qed.

Lemma concat_Forall {A : Type} (P : A -> Prop) (g : list (list A)) :
  Forall (Forall P) g -> Forall P (concat g).
Proof.
  induction 1 as [ | r rs Hr _ IH]; simpl; [constructor | ].
  apply Forall_app. split; assumption.
Qed.

(** The minimum of a band of numbers is one of them, below all of them; the
    maximum is one of them, above all of them. *)
Lemma min_max_spec (band : grid) (mn mx : float) :
  Forall (Forall (fun v => is_nan v = false)) band ->
  Np.min band = Some mn -> Np.max band = Some mx ->
  In mn (concat band) /\ In mx (concat band) /\
  Forall (fun v => (mn <=? v)%float = true /\ (v <=? mx)%float = true)
         (concat band).
Proof.
  intros Hnan. apply concat_Forall in Hnan.
  unfold Np.min, Np.max, Np.reduce.
  destruct (concat band) as [ | x xs]; [discriminate | ].
  intros [= <-] [= <-].
  split; [apply (fold_left_choice Np.minimum minimum_choice) | ].
  split; [apply (fold_left_choice Np.maximum maximum_choice) | ].
  pose proof (fold_minimum_lower xs x Hnan) as Hlo.
  pose proof (fold_maximum_upper xs x Hnan) as Hhi.
  apply Forall_forall. intros v Hv. split.
  - exact (proj1 (Forall_forall _ _) Hlo v Hv).
  - exact (proj1 (Forall_forall _ _) Hhi v Hv).
Qed.

(** The steps of a computation that may raise, one after the other. *)
Ltac bind_cases :=
  repeat match goal with
  | |- context [bind ?e _] =>
      lazymatch e with
      | context [bind] => fail
      | _ => let E := fresh "E" in
             destruct e eqn:E; cbn [bind]; [ | discriminate]
      end
  end.

(** X12.  For an array without NaN, the statistics name the bands in the
    order of the registry, and the minimum and the maximum reported for a
    band are values of that band, the minimum below and the maximum above
    every value of the band; the mean reported is the mean of that band. *)
Theorem band_statistics_extremes (mean : grid -> float) (a : list grid)
  (stats : list BandStatistic) :
  all_elements (fun v => is_nan v = false) a ->
  band_statistics mean a = Some stats ->
  map stat_band stats = BANDS /\
  forall b st, nth_error stats b = Some st ->
    exists band, nth_error a b = Some band /\
      stat_mean st = mean band /\
      In (stat_min st) (concat band) /\ In (stat_max st) (concat band) /\
      (stat_min st <=? stat_max st)%float = true /\
      Forall (fun v => (stat_min st <=? v)%float = true /\
                       (v <=? stat_max st)%float = true) (concat band).
Proof.
  intros Hnan. unfold band_statistics.
  cbn [BANDS List.length seq combine mapM]. bind_cases.
  intros [= <-]. split; [reflexivity | ].
  assert (forall b band mn mx,
            nth_error a b = Some band -> Np.min band = Some mn ->
            Np.max band = Some mx ->
            In mn (concat band) /\ In mx (concat band) /\
            (mn <=? mx)%float = true /\
            Forall (fun v => (mn <=? v)%float = true /\
                             (v <=? mx)%float = true) (concat band)) as Hband.
  { intros b band mn mx Hb Hmn Hmx. apply nth_error_In in Hb.
    pose proof (proj1 (Forall_forall _ _) Hnan band Hb) as Hn.
    destruct (min_max_spec band mn mx Hn Hmn Hmx) as (H1 & H2 & H3).
    split; [exact H1 | ]. split; [exact H2 | ]. split; [ | exact H3].
    exact (proj2 (proj1 (Forall_forall _ _) H3 mn H1)). }
  intros b st Hst.
  do 6 (destruct b as [ | b];
        [injection Hst as <-; eexists; split; [eassumption | ];
         split; [reflexivity | ]; eapply Hband; eassumption | ]).
  destruct b; discriminate Hst.
Qed.

Lemma raster_not_nan (G : Np.Generator)
  (normal_not_nan :
     forall g, is_nan (fst (Np.normal1 G 0%float 0.002%float g)) = false)
  (os_entropy : Z) :
  all_elements (fun v => is_nan v = false) (raster G os_entropy).
Proof.
  pose proof (raster_all_in_unit G normal_not_nan os_entropy) as H.
  unfold all_elements in *.
  eapply Forall_impl; [ | exact H]. intros band Hband.
  eapply Forall_impl; [ | exact Hband]. intros r Hr.
  eapply Forall_impl; [ | exact Hr]. intros v Hv.
  unfold in_unit in Hv. apply andb_true_iff in Hv.
  eapply leb_not_nan_l, Hv.
Qed.

(** The raster of the [square_wave] generator, with the chained mean. *)
Lemma band_statistics_extremes_witness :
  map stat_band (statistics_of chain_mean (raster square_wave 0)) = BANDS /\
  forall b st,
    nth_error (statistics_of chain_mean (raster square_wave 0)) b = Some st ->
    exists band, nth_error (raster square_wave 0) b = Some band /\
      stat_mean st = chain_mean band /\
      In (stat_min st) (concat band) /\ In (stat_max st) (concat band) /\
      (stat_min st <=? stat_max st)%float = true /\
      Forall (fun v => (stat_min st <=? v)%float = true /\
                       (v <=? stat_max st)%float = true) (concat band).
Proof.
  apply (band_statistics_extremes chain_mean (raster square_wave 0)
           (statistics_of chain_mean (raster square_wave 0))).
  - apply raster_not_nan. intros [ | ]; reflexivity.
  - vm_compute. reflexivity.
Defined.

(** ** A band without a value *)

Ltac stat_step k :=
  let band := fresh "band" in
  let E := fresh "E" in
  let C := fresh "C" in
  destruct (nth_error _ k) as [band | ] eqn:E; cbn [bind];
  [ destruct (concat band) eqn:C; cbn [bind];
    [ intros _; exists k; split; [lia | right; exists band; auto] | ]
  | intros _; exists k; split; [lia | left; exact E] ].

Ltac bind_none :=
  cbn [bind];
  repeat match goal with
  | |- None = None => reflexivity
  | |- context [bind ?e _] =>
      lazymatch e with
      | context [bind] => fail
      | _ => destruct e; cbn [bind]
      end
  end.

(** X13.  The statistics loop raises exactly when one of the first 6 bands
    is missing from the array or has no element: the first is an index
    error, the second the error of a minimum over nothing. *)
Theorem band_statistics_error (mean : grid -> float) (a : list grid) :
  band_statistics mean a = None <->
  exists b, b < 6 /\
    (nth_error a b = None \/
     exists band, nth_error a b = Some band /\ concat band = []).
Proof.
  unfold band_statistics, Np.min, Np.max, Np.reduce.
  cbn [BANDS List.length seq combine mapM]. split.
  - stat_step 0. stat_step 1. stat_step 2. stat_step 3. stat_step 4.
    stat_step 5. discriminate.
  - intros (b & Hb & H).
    do 6 (destruct b as [ | b];
          [destruct H as [E | (band & E & C)]; rewrite E; cbn [bind];
           rewrite ?C; bind_none | ]).
    lia.
Qed.

(** ** Rounding is monotone *)

Section Monotone.

Local Open Scope Z_scope.

Lemma inbetween_between (m : Z) (l : location) (N D : Z) :
  inbetween m l N D -> between m l N D.
Proof.
  unfold inbetween, between. intros [HD H]. split; [exact HD | ].
  destruct l as [ | c].
  - subst. split; [lia | ]. intros Hl. congruence.
  - destruct H as [H _]. split; [lia | ]. intros _. lia.
Qed.

Lemma shr_1_inbetween (mrs : shr_record) (N D : Z) :
  0 <= shr_m mrs /\ inbetween (shr_m mrs) (loc_of_shr_record mrs) N D ->
  0 <= shr_m (shr_1 mrs) /\
  inbetween (shr_m (shr_1 mrs)) (loc_of_shr_record (shr_1 mrs)) N (2 * D).
Proof.
  unfold inbetween. destruct mrs as [m r s].
  assert (forall c a b, (a ?= b) = c ->
            match c with Eq => a = b | Lt => a < b | Gt => b < a end) as Hcmp.
  { intros c a b <-. destruct (Z.compare_spec a b); assumption. }
  assert (forall c a b,
            match c with Eq => a = b | Lt => a < b | Gt => b < a end ->
            (a ?= b) = c) as Hcmp'.
  { intros [ | | ] a b H;
      [apply Z.compare_eq_iff | apply Z.compare_lt_iff
      | apply Z.compare_gt_iff]; exact H. }
  destruct r, s; cbn [shr_m loc_of_shr_record]; intros (Hm & HD & H);
    [destruct H as [H Hc]; apply Hcmp in Hc .. | ];
    destruct m as [ | [p | p | ] | p];
    cbn [shr_1 shr_m loc_of_shr_record orb];
    try change (Zpos p~1) with (2 * Zpos p + 1) in *;
    try change (Zpos p~0) with (2 * Zpos p) in *;
    try lia;
    (split; [lia | split; [lia | ]]);
    try (split; [lia | apply Hcmp']); lia.
Qed.

Lemma shr_inbetween (mrs : shr_record) (e n : Z) (N D : Z) :
  0 <= shr_m mrs -> inbetween (shr_m mrs) (loc_of_shr_record mrs) N D ->
  inbetween (shr_m (fst (shr mrs e n)))
            (loc_of_shr_record (fst (shr mrs e n))) N (2 ^ Z.max 0 n * D).
Proof.
  intros Hm Hb. destruct n as [ | p | p]; unfold shr; cbn [fst snd].
  - change (Z.max 0 0) with 0. change (2 ^ 0) with 1. rewrite Z.mul_1_l.
    assumption.
  - change (Z.max 0 (Zpos p)) with (0 + Zpos p).
    apply (iter_pos_count shr_1
      (fun k r => 0 <= shr_m r /\
                  inbetween (shr_m r) (loc_of_shr_record r) N (2 ^ k * D))).
    + intros k a Hk Ha.
      replace (2 ^ (k + 1) * D) with (2 * (2 ^ k * D)).
      * apply shr_1_inbetween. exact Ha.
      * rewrite Z.pow_add_r by lia. change (2 ^ 1) with 2. lia.
    + lia.
    + change (2 ^ 0) with 1. rewrite Z.mul_1_l. split; assumption.
  - change (Z.max 0 (Zneg p)) with 0. change (2 ^ 0) with 1. rewrite Z.mul_1_l.
    assumption.
Qed.

Lemma inbetween_exact (m : Z) : inbetween m loc_Exact m 1.
Proof. unfold inbetween. split; lia. Qed.

(** Shifting an exact mantissa to its canonical exponent. *)
Lemma shr_fexp_exact (m e : Z) :
  0 <= m ->
  forall mrs e1, shr_fexp prec emax m e loc_Exact = (mrs, e1) ->
  e1 = Z.max e (fexp64 (Zdigits2 m + e)) /\
  0 <= shr_m mrs /\
  inbetween (shr_m mrs) (loc_of_shr_record mrs) m (2 ^ (e1 - e)).
Proof.
  intros Hm mrs e1 E.
  destruct (shr_fexp_between m e loc_Exact m 1 Hm (between_exact m) mrs e1 E)
    as (He1 & Hm1 & _).
  split; [exact He1 | ]. split; [exact Hm1 | ].
  unfold shr_fexp in E. rewrite fexp_fexp64 in E.
  pose proof (shr_inbetween (shr_record_of_loc m loc_Exact) e
                (fexp64 (Zdigits2 m + e) - e) m 1 Hm (inbetween_exact m)) as H.
  rewrite E in H. cbn [fst] in H. rewrite Z.mul_1_r in H.
  replace (e1 - e) with (Z.max 0 (fexp64 (Zdigits2 m + e) - e)) by lia.
  exact H.
Qed.

Lemma inbetween_unit (m : Z) (l : location) (N : Z) :
  inbetween m l N 1 -> m = N /\ l = loc_Exact.
Proof.
  unfold inbetween. intros [_ H]. destruct l as [ | c].
  - split; [lia | reflexivity].
  - destruct H as [H _]. lia.
Qed.

Lemma round_nearest_even_exact (m : Z) : round_nearest_even m loc_Exact = m.
Proof. reflexivity. Qed.

(** The second shift of a rounding does nothing to a mantissa of at most 53
    digits, and moves [2^53] to the next exponent. *)
Lemma shr_fexp_small (mr c : Z) :
  0 <= mr < 2 ^ 53 -> -1074 <= c ->
  forall mrs e2, shr_fexp prec emax mr c loc_Exact = (mrs, e2) ->
  shr_m mrs = mr /\ e2 = c.
Proof.
  intros Hmr Hc mrs e2 E.
  destruct (shr_fexp_exact mr c ltac:(lia) mrs e2 E) as (He2 & _ & Hb).
  assert (fexp64 (Zdigits2 mr + c) <= c) as Hle.
  { destruct (Z.eq_dec mr 0) as [-> | Hne].
    - change (Zdigits2 0) with 0. unfold fexp64. lia.
    - assert (Zdigits2 mr <= 53)
        by (apply Zdigits2_le_of_lt_pow; lia).
      unfold fexp64. lia. }
  assert (e2 = c) as -> by lia.
  rewrite Z.sub_diag in Hb. change (2 ^ 0) with 1 in Hb.
  apply inbetween_unit in Hb. split; [apply Hb | reflexivity].
Qed.

Lemma shr_fexp_carry (c : Z) :
  -1074 <= c ->
  forall mrs e2, shr_fexp prec emax (2 ^ 53) c loc_Exact = (mrs, e2) ->
  shr_m mrs = 2 ^ 52 /\ e2 = c + 1.
Proof.
  intros Hc mrs e2 E.
  destruct (shr_fexp_exact (2 ^ 53) c ltac:(lia) mrs e2 E) as (He2 & _ & Hb).
  change (Zdigits2 (2 ^ 53)) with 54 in He2.
  assert (e2 = c + 1) as -> by (unfold fexp64 in He2; lia).
  replace (c + 1 - c) with 1 in Hb by lia. change (2 ^ 1) with 2 in Hb.
  split; [ | reflexivity].
  unfold inbetween in Hb. destruct Hb as [_ Hb].
  destruct (loc_of_shr_record mrs) as [ | cmp].
  - change (2 ^ 53) with (2 ^ 52 * 2) in Hb. lia.
  - destruct Hb as [Hb _]. change (2 ^ 53) with (2 ^ 52 * 2) in Hb. lia.
Qed.

Lemma finalize_small (s : bool) (mr c : Z) :
  0 <= mr < 2 ^ 53 ->
  finalize s mr c
  = match mr with
    | 0 => S754_zero s
    | Zpos p => if c <=? 971 then S754_finite s p c else S754_infinity s
    | Zneg _ => S754_nan
    end.
Proof.
  intros H. unfold finalize.
  change (2 * Zpos one_mantissa) with (2 ^ 53).
  replace (mr <? 2 ^ 53) with true by (symmetry; apply Z.ltb_lt; lia).
  reflexivity.
Qed.

Lemma finalize_carry (s : bool) (c : Z) :
  finalize s (2 ^ 53) c
  = if c + 1 <=? 971 then S754_finite s one_mantissa (c + 1)
    else S754_infinity s.
Proof. reflexivity. Qed.

(** Rounding an exact positive mantissa, aligned at or below its canonical
    exponent: the mantissa is cut at that exponent, rounded to nearest even,
    and made a float. *)
Lemma binary_round_aux_exact_spec (s : bool) (m e : Z) :
  0 < m -> e <= fexp64 (Zdigits2 m + e) ->
  exists q l,
    inbetween q l m (2 ^ (fexp64 (Zdigits2 m + e) - e)) /\
    0 <= q < 2 ^ 53 /\
    (-1074 < fexp64 (Zdigits2 m + e) -> 2 ^ 52 <= q) /\
    binary_round_aux prec emax s m e loc_Exact
    = finalize s (round_nearest_even q l) (fexp64 (Zdigits2 m + e)).
Proof.
  intros Hm Hal. set (c := fexp64 (Zdigits2 m + e)) in *.
  assert (-1074 <= c) as Hc by (unfold c, fexp64; lia).
  pose proof (Zdigits2_bounds m Hm) as [Hdlo Hdhi].
  pose proof (Zdigits2_pos m Hm) as Hd.
  unfold binary_round_aux.
  destruct (shr_fexp prec emax m e loc_Exact) as [mrs1 e1] eqn:E1.
  destruct (shr_fexp_exact m e ltac:(lia) mrs1 e1 E1) as (He1 & Hq0 & Hb).
  fold c in He1. assert (e1 = c) as -> by lia.
  set (q := shr_m mrs1) in *. set (l := loc_of_shr_record mrs1) in *.
  pose proof (inbetween_between _ _ _ _ Hb) as (HD & [Hlo Hhi] & _).
  set (D := 2 ^ (c - e)) in *.
  assert (q < 2 ^ 53) as Hq53.
  { assert (2 ^ Zdigits2 m <= 2 ^ 53 * D) as Hp.
    { unfold D. rewrite <- Z.pow_add_r by lia.
      apply Z.pow_le_mono_r; [lia | ]. unfold c, fexp64. lia. }
    apply (Z.mul_lt_mono_pos_r D); lia. }
  assert (-1074 < c -> 2 ^ 52 <= q) as Hq52.
  { intros Hn.
    assert (2 ^ 52 * D <= 2 ^ (Zdigits2 m - 1)) as Hp.
    { unfold D. rewrite <- Z.pow_add_r by lia.
      apply Z.pow_le_mono_r; [lia | ]. unfold c, fexp64 in *. lia. }
    assert (2 ^ 52 * D < (q + 1) * D) as Hlt by lia.
    apply Z.mul_lt_mono_pos_r in Hlt; lia. }
  exists q, l. split; [exact Hb | ]. split; [lia | ]. split; [exact Hq52 | ].
  pose proof (round_nearest_even_range q l) as [[Hr1 Hr2] _].
  set (mr := round_nearest_even q l) in *.
  destruct (shr_fexp prec emax mr c loc_Exact) as [mrs2 e2] eqn:E2.
  change (emax - prec) with 971.
  destruct (Z.eq_dec mr (2 ^ 53)) as [Heq | Hne].
  - rewrite Heq in *.
    destruct (shr_fexp_carry c Hc mrs2 e2 E2) as [-> ->].
    rewrite finalize_carry. reflexivity.
  - destruct (shr_fexp_small mr c ltac:(lia) Hc mrs2 e2 E2) as [-> ->].
    rewrite finalize_small by lia. reflexivity.
Qed.

Lemma inbetween_scale (m : Z) (l : location) (N D K : Z) :
  inbetween m l N D -> 0 < K -> inbetween m l (N * K) (D * K).
Proof.
  unfold inbetween. intros [HD H] HK. split; [lia | ].
  destruct l as [ | c].
  - subst. ring.
  - destruct H as [[Hlo Hhi] Hc]. split; [split; nia | ].
    replace (2 * (N * K)) with (2 * N * K) by ring.
    replace ((2 * m + 1) * (D * K)) with ((2 * m + 1) * D * K) by ring.
    destruct c;
      [apply Z.compare_eq_iff in Hc; apply Z.compare_eq_iff
      | apply Z.compare_lt_iff in Hc; apply Z.compare_lt_iff
      | apply Z.compare_gt_iff in Hc; apply Z.compare_gt_iff].
    + rewrite Hc. reflexivity.
    + apply Z.mul_lt_mono_pos_r; assumption.
    + apply Z.mul_lt_mono_pos_r; assumption.
Qed.

Lemma round_nearest_even_mono (q1 q2 : Z) (l1 l2 : location) (N1 N2 D : Z) :
  inbetween q1 l1 N1 D -> inbetween q2 l2 N2 D -> N1 <= N2 ->
  round_nearest_even q1 l1 <= round_nearest_even q2 l2.
Proof.
  intros H1 H2 HN.
  pose proof (inbetween_between _ _ _ _ H1) as (HD & [Hlo1 Hhi1] & _).
  pose proof (inbetween_between _ _ _ _ H2) as (_ & [Hlo2 Hhi2] & _).
  pose proof (round_nearest_even_range q1 l1) as [[Ha1 Hb1] _].
  pose proof (round_nearest_even_range q2 l2) as [[Ha2 Hb2] _].
  destruct (Z.lt_trichotomy q1 q2) as [Hlt | [Heq | Hgt]]; [lia | | ].
  - subst q2. clear Ha1 Hb1 Ha2 Hb2.
    unfold inbetween in H1, H2. destruct H1 as [_ H1], H2 as [_ H2].
    set (h := (2 * q1 + 1) * D) in *.
    assert (2 * (q1 * D) < h) as Hh by (unfold h; lia).
    destruct l1 as [ | c1], l2 as [ | c2]; cbn [round_nearest_even].
    + lia.
    + destruct c2; try destruct (Z.even q1); lia.
    + destruct H1 as [H1 _]. lia.
    + destruct H1 as [_ H1], H2 as [_ H2].
      destruct c1, c2;
        first [apply -> Z.compare_lt_iff in H1
              | apply -> Z.compare_eq_iff in H1
              | apply -> Z.compare_gt_iff in H1];
        first [apply -> Z.compare_lt_iff in H2
              | apply -> Z.compare_eq_iff in H2
              | apply -> Z.compare_gt_iff in H2];
        try destruct (Z.even q1); lia.
  - exfalso.
    assert ((q2 + 1) * D <= q1 * D)
      by (apply Z.mul_le_mono_nonneg_r; lia).
    lia.
Qed.

Lemma finalize_mono (mr1 c1 mr2 c2 : Z) :
  0 <= mr1 <= 2 ^ 53 -> 0 <= mr2 <= 2 ^ 53 ->
  (c1 = c2 /\ mr1 <= mr2) \/ (c1 < c2 /\ 2 ^ 52 <= mr2) ->
  SFleb (finalize false mr1 c1) (finalize false mr2 c2) = true.
Proof.
  intros H1 H2 Hc.
  assert (Zpos one_mantissa = 2 ^ 52) as Hone by reflexivity.
  destruct (Z.eq_dec mr1 (2 ^ 53)) as [-> | N1];
    destruct (Z.eq_dec mr2 (2 ^ 53)) as [-> | N2];
    rewrite ?finalize_carry, ?(finalize_small false mr1),
      ?(finalize_small false mr2) by lia;
    try (destruct mr1 as [ | p1 | p1]; [ | | lia]);
    try (destruct mr2 as [ | p2 | p2]; [ | | lia]);
    repeat match goal with
    | |- context [(?a <=? 971)] =>
        let E := fresh "E" in
        destruct (a <=? 971) eqn:E;
        [apply Z.leb_le in E | apply Z.leb_gt in E]
    end;
    unfold SFleb, SFcompare; order_cases; try reflexivity; exfalso;
    set (om := one_mantissa) in *; clearbody om; lia.
Qed.

Lemma fexp64_mono (x y : Z) : x <= y -> fexp64 x <= fexp64 y.
Proof. unfold fexp64. lia. Qed.

Lemma binary_round_aux_mono (m1 e1 m2 e2 E0 : Z) :
  0 < m1 -> 0 < m2 ->
  e1 <= fexp64 (Zdigits2 m1 + e1) -> e2 <= fexp64 (Zdigits2 m2 + e2) ->
  E0 <= e1 -> E0 <= e2 ->
  m1 * 2 ^ (e1 - E0) <= m2 * 2 ^ (e2 - E0) ->
  SFleb (binary_round_aux prec emax false m1 e1 loc_Exact)
        (binary_round_aux prec emax false m2 e2 loc_Exact) = true.
Proof.
  intros Hm1 Hm2 Hal1 Hal2 HE1 HE2 Hle.
  destruct (binary_round_aux_exact_spec false m1 e1 Hm1 Hal1)
    as (q1 & l1 & Hb1 & Hq1 & _ & ->).
  destruct (binary_round_aux_exact_spec false m2 e2 Hm2 Hal2)
    as (q2 & l2 & Hb2 & Hq2 & Hn2 & ->).
  set (c1 := fexp64 (Zdigits2 m1 + e1)) in *.
  set (c2 := fexp64 (Zdigits2 m2 + e2)) in *.
  pose proof (pow2_pos (e1 - E0) ltac:(lia)) as HK1.
  pose proof (pow2_pos (e2 - E0) ltac:(lia)) as HK2.
  assert (Zdigits2 m1 + e1 <= Zdigits2 m2 + e2) as Hmag.
  { pose proof (Zdigits2_le_shifted (m1 * 2 ^ (e1 - E0)) (m2 * 2 ^ (e2 - E0)) 0
                  ltac:(lia) ltac:(lia) ltac:(lia)) as H.
    rewrite !Zdigits2_shift in H by lia.
    change (2 ^ 0) with 1 in H. specialize (H ltac:(lia)). lia. }
  assert (c1 <= c2) as Hc by (apply fexp64_mono, Hmag).
  assert (-1074 <= c1) as Hc1 by (unfold c1, fexp64; lia).
  pose proof (round_nearest_even_range q1 l1) as [[Ha1 Hb1'] _].
  pose proof (round_nearest_even_range q2 l2) as [[Ha2 Hb2'] _].
  apply finalize_mono; [lia | lia | ].
  destruct (Z.eq_dec c1 c2) as [Heq | Hne]; [left | right; split; lia].
  split; [exact Heq | ].
  apply (inbetween_scale _ _ _ _ (2 ^ (e1 - E0))) in Hb1; [ | exact HK1].
  apply (inbetween_scale _ _ _ _ (2 ^ (e2 - E0))) in Hb2; [ | exact HK2].
  rewrite <- Z.pow_add_r in Hb1, Hb2 by lia.
  replace (c1 - e1 + (e1 - E0)) with (c2 - E0) in Hb1 by lia.
  replace (c2 - e2 + (e2 - E0)) with (c2 - E0) in Hb2 by lia.
  exact (round_nearest_even_mono _ _ _ _ _ _ _ Hb1 Hb2 Hle).
Qed.

(** The same for a mantissa at any exponent, aligned by the rounding. *)
Lemma binary_round_aligned (s : bool) (m : positive) (e : Z) :
  exists mz ez,
    binary_round prec emax s m e = binary_round_aux prec emax s mz ez loc_Exact /\
    0 < mz /\ ez <= e /\ ez <= fexp64 (Zdigits2 mz + ez) /\
    mz = Zpos m * 2 ^ (e - ez) /\
    Zdigits2 mz + ez = Zdigits2 (Zpos m) + e /\
    ez = Z.min e (fexp64 (Zdigits2 (Zpos m) + e)).
Proof.
  unfold binary_round. rewrite fexp_fexp64.
  pose proof (shl_align_spec m e (fexp64 (Zpos (digits2_pos m) + e)))
    as [Hez Hmz].
  destruct (shl_align m e (fexp64 (Zpos (digits2_pos m) + e))) as [mz ez].
  cbn [fst snd] in Hez, Hmz.
  exists (Zpos mz), ez. split; [reflexivity | ].
  assert (ez <= e) as Hle by lia.
  assert (Zdigits2 (Zpos mz) + ez = Zdigits2 (Zpos m) + e) as Hd.
  { rewrite Hmz, Zdigits2_shift by lia. lia. }
  split; [lia | ]. split; [exact Hle | ]. split; [ | split].
  - rewrite Hd. change (Zdigits2 (Zpos m)) with (Zpos (digits2_pos m)). lia.
  - rewrite Hmz, Hez. reflexivity.
  - split; [exact Hd | exact Hez].
Qed.

Lemma binary_round_mono (m1 m2 : positive) (e1 e2 E0 : Z) :
  E0 <= e1 -> E0 <= e2 ->
  Zpos m1 * 2 ^ (e1 - E0) <= Zpos m2 * 2 ^ (e2 - E0) ->
  SFleb (binary_round prec emax false m1 e1)
        (binary_round prec emax false m2 e2) = true.
Proof.
  intros HE1 HE2 Hle.
  destruct (binary_round_aligned false m1 e1)
    as (z1 & f1 & -> & Hz1 & Hf1 & Hal1 & Hv1 & _ & _).
  destruct (binary_round_aligned false m2 e2)
    as (z2 & f2 & -> & Hz2 & Hf2 & Hal2 & Hv2 & _ & _).
  set (F := Z.min E0 (Z.min f1 f2)).
  apply (binary_round_aux_mono z1 f1 z2 f2 F); try assumption;
    try (unfold F; lia).
  rewrite Hv1, Hv2, <- !Z.mul_assoc, <- !Z.pow_add_r by (unfold F; lia).
  replace (e1 - f1 + (f1 - F)) with (e1 - E0 + (E0 - F)) by lia.
  replace (e2 - f2 + (f2 - F)) with (e2 - E0 + (E0 - F)) by lia.
  rewrite !Z.pow_add_r, !Z.mul_assoc by (unfold F; lia).
  apply Z.mul_le_mono_nonneg_r; [ | exact Hle].
  apply Z.pow_nonneg. lia.
Qed.

(** A float rounds to itself. *)
Lemma binary_round_canonical (s : bool) (m : positive) (e : Z) :
  bounded prec emax m e = true ->
  binary_round prec emax s m e = S754_finite s m e.
Proof.
  intros Hb. destruct (bounded_canonical m e Hb) as [Hcan Hmax].
  destruct (binary_round_aligned s m e)
    as (mz & ez & -> & Hz & Hez & Hal & Hv & Hd & Hmin).
  assert (ez = e) as -> by (rewrite Hcan in Hmin; lia).
  rewrite Z.sub_diag, Z.pow_0_r, Z.mul_1_r in Hv. subst mz.
  destruct (binary_round_aux_exact_spec s (Zpos m) e eq_refl ltac:(lia))
    as (q & l & Hb' & Hq & _ & ->).
  rewrite Hcan in *. rewrite Z.sub_diag, Z.pow_0_r in Hb'.
  apply inbetween_unit in Hb'. destruct Hb' as [-> ->].
  rewrite round_nearest_even_exact, finalize_small by lia.
  replace (e <=? 971) with true by (symmetry; apply Z.leb_le; exact Hmax).
  reflexivity.
Qed.

(** The sign of a rounded number is the sign it was given. *)
Lemma binary_round_sign (s : bool) (m : positive) (e : Z) :
  match binary_round prec emax s m e with
  | S754_zero s' | S754_infinity s' | S754_finite s' _ _ => s' = s
  | S754_nan => False
  end.
Proof.
  unfold binary_round. destruct (shl_align m e _) as [mz ez].
  pose proof (binary_round_aux_not_nan s (Zpos mz) ez loc_Exact ltac:(lia))
    as Hn.
  revert Hn. unfold binary_round_aux.
  destruct (shr_fexp prec emax (Zpos mz) ez loc_Exact) as [mrs1 e1].
  destruct (shr_fexp prec emax _ e1 loc_Exact) as [mrs2 e2].
  destruct (shr_m mrs2); try congruence; intros _; try reflexivity.
  destruct (e2 <=? emax - prec); reflexivity.
Qed.

Lemma SFleb_negative_nonnegative (x y : spec_float) :
  match x with
  | S754_zero _ | S754_infinity true | S754_finite true _ _ => True
  | _ => False
  end ->
  match y with
  | S754_zero _ | S754_infinity false | S754_finite false _ _ => True
  | _ => False
  end ->
  SFleb x y = true.
Proof.
  destruct x as [sx | [ | ] | | [ | ] mx ex]; try contradiction;
    destruct y as [sy | [ | ] | | [ | ] my ey]; try contradiction;
    reflexivity.
Qed.

(** Rounding a signed mantissa is monotone in the number it stands for. *)
Lemma binary_normalize_mono (M1 e1 M2 e2 E0 : Z) (z1 z2 : bool) :
  E0 <= e1 -> E0 <= e2 ->
  M1 * 2 ^ (e1 - E0) <= M2 * 2 ^ (e2 - E0) ->
  SFleb (binary_normalize prec emax M1 e1 z1)
        (binary_normalize prec emax M2 e2 z2) = true.
Proof.
  intros HE1 HE2 Hle.
  pose proof (pow2_pos (e1 - E0) ltac:(lia)) as HK1.
  pose proof (pow2_pos (e2 - E0) ltac:(lia)) as HK2.
  destruct M1 as [ | p1 | p1], M2 as [ | p2 | p2]; cbn [binary_normalize];
    try (exfalso; nia).
  - reflexivity.
  - apply SFleb_negative_nonnegative; [exact I | ].
    pose proof (binary_round_sign false p2 e2) as H.
    destruct (binary_round prec emax false p2 e2) as [s | s | | s m e];
      try contradiction; subst; exact I.
  - apply (binary_round_mono p1 p2 e1 e2 E0); assumption.
  - apply SFleb_negative_nonnegative; [ | exact I].
    pose proof (binary_round_sign true p1 e1) as H.
    destruct (binary_round prec emax true p1 e1) as [s | s | | s m e];
      try contradiction; subst; exact I.
  - apply SFleb_negative_nonnegative.
    + pose proof (binary_round_sign true p1 e1) as H.
      destruct (binary_round prec emax true p1 e1) as [s | s | | s m e];
        try contradiction; subst; exact I.
    + pose proof (binary_round_sign false p2 e2) as H.
      destruct (binary_round prec emax false p2 e2) as [s | s | | s m e];
        try contradiction; subst; exact I.
  - change true with (negb false).
    rewrite !binary_round_opp, SFleb_opp.
    apply (binary_round_mono p2 p1 e2 e1 E0); try assumption.
    change (Zneg p1) with (- Zpos p1) in Hle.
    change (Zneg p2) with (- Zpos p2) in Hle. lia.
Qed.

(** *** Sums and products as roundings of exact numbers *)

Lemma bounded_exponent (m : positive) (e : Z) :
  bounded prec emax m e = true ->
  -1074 <= e /\ Zdigits2 (Zpos m) <= 53 /\
  (-1074 < e -> Zdigits2 (Zpos m) = 53).
Proof.
  intros Hb. destruct (bounded_canonical m e Hb) as [Hcan _].
  unfold fexp64 in Hcan. lia.
Qed.

(** Floats of one sign are ordered as their exponents, then mantissas. *)
Lemma canonical_lt (m1 m2 : positive) (e1 e2 : Z) :
  bounded prec emax m1 e1 = true -> bounded prec emax m2 e2 = true ->
  e1 < e2 ->
  Zpos m1 * 2 ^ (e1 + 1074) < Zpos m2 * 2 ^ (e2 + 1074).
Proof.
  intros H1 H2 Hlt.
  destruct (bounded_exponent m1 e1 H1) as (He1 & Hd1 & _).
  destruct (bounded_exponent m2 e2 H2) as (He2 & _ & Hd2).
  specialize (Hd2 ltac:(lia)).
  pose proof (Zdigits2_bounds (Zpos m1) eq_refl) as [_ Hhi].
  pose proof (Zdigits2_bounds (Zpos m2) eq_refl) as [Hlo _].
  rewrite Hd2 in Hlo. change (2 ^ (53 - 1)) with (2 ^ 52) in Hlo.
  assert (Zpos m1 < 2 ^ 53) as Hm1.
  { eapply Z.lt_le_trans; [exact Hhi | ]. apply Z.pow_le_mono_r; lia. }
  pose proof (pow2_pos (e1 + 1074) ltac:(lia)) as HK1.
  assert (2 * 2 ^ (e1 + 1074) <= 2 ^ (e2 + 1074)) as HK.
  { replace (2 * 2 ^ (e1 + 1074)) with (2 ^ (e1 + 1 + 1074)).
    - apply Z.pow_le_mono_r; lia.
    - replace (e1 + 1 + 1074) with (1 + (e1 + 1074)) by lia.
      rewrite Z.pow_add_r by lia. reflexivity. }
  change (2 ^ 53) with (2 * 2 ^ 52) in Hm1.
  generalize dependent (2 ^ 52). intros B. intros.
  generalize dependent (2 ^ (e1 + 1074)). intros K1. intros.
  generalize dependent (2 ^ (e2 + 1074)). intros K2. intros.
  nia.
Qed.

Lemma SFleb_scaled (x1 x2 : spec_float) :
  valid_binary x1 = true -> valid_binary x2 = true ->
  finite_or_zero x1 -> finite_or_zero x2 ->
  SFleb x1 x2 = true -> scaled x1 <= scaled x2.
Proof.
  destruct x1 as [s1 | s1 | | s1 m1 e1]; try contradiction;
    destruct x2 as [s2 | s2 | | s2 m2 e2]; try contradiction;
    cbn [valid_binary scaled]; intros H1 H2 _ _.
  - lia.
  - destruct (bounded_exponent m2 e2 H2) as (He2 & _).
    pose proof (pow2_pos (e2 + 1074) ltac:(lia)).
    destruct s2; [discriminate | ]. cbn [cond_Zopp]. lia.
  - destruct (bounded_exponent m1 e1 H1) as (He1 & _).
    pose proof (pow2_pos (e1 + 1074) ltac:(lia)).
    destruct s1; [ | discriminate]. cbn [cond_Zopp]. lia.
  - destruct (bounded_exponent m1 e1 H1) as (He1 & _).
    destruct (bounded_exponent m2 e2 H2) as (He2 & _).
    pose proof (pow2_pos (e1 + 1074) ltac:(lia)).
    pose proof (pow2_pos (e2 + 1074) ltac:(lia)).
    unfold SFleb, SFcompare.
    destruct s1, s2; cbn [cond_Zopp]; intros Hle; try discriminate Hle;
      try lia.
    + destruct (Z_compare_cases e1 e2) as [[E He] | [[E He] | [E He]]];
        rewrite E in Hle; try discriminate Hle.
      * subst e2.
        destruct (pos_compare_cases m1 m2) as [[E' Hm] | [[E' Hm] | [E' Hm]]];
          rewrite E' in Hle; try discriminate Hle; nia.
      * pose proof (canonical_lt m2 m1 e2 e1 H2 H1 He). lia.
    + destruct (Z_compare_cases e1 e2) as [[E He] | [[E He] | [E He]]];
        rewrite E in Hle; try discriminate Hle.
      * pose proof (canonical_lt m1 m2 e1 e2 H1 H2 He). lia.
      * subst e2.
        destruct (pos_compare_cases m1 m2) as [[E' Hm] | [[E' Hm] | [E' Hm]]];
          rewrite E' in Hle; try discriminate Hle; nia.
Qed.

Lemma cond_Zopp_mul (s : bool) (a b : Z) :
  cond_Zopp s a * b = cond_Zopp s (a * b).
Proof. destruct s; cbn [cond_Zopp]; lia. Qed.

Lemma binary_normalize_canonical (s : bool) (m : positive) (e : Z) (z : bool) :
  bounded prec emax m e = true ->
  binary_normalize prec emax (cond_Zopp s (Zpos m)) e z = S754_finite s m e.
Proof.
  intros Hb. destruct s; cbn [cond_Zopp Z.opp binary_normalize];
    apply binary_round_canonical, Hb.
Qed.

(** A sum of finite numbers is the rounding of the exact sum. *)
Lemma SF64add_scaled (x y : spec_float) :
  valid_binary x = true -> valid_binary y = true ->
  finite_or_zero x -> finite_or_zero y ->
  exists M e z,
    SF64add x y = binary_normalize prec emax M e z /\ -1074 <= e /\
    M * 2 ^ (e + 1074) = scaled x + scaled y.
Proof.
  destruct x as [sx | sx | | sx mx ex]; try contradiction;
    destruct y as [sy | sy | | sy my ey]; try contradiction;
    cbn [valid_binary scaled]; intros Hx Hy _ _.
  - exists 0, 0.
    exists (match sx, sy with true, true => true | _, _ => false end).
    split; [destruct sx, sy; reflexivity | lia].
  - exists (cond_Zopp sy (Zpos my)), ey, false.
    rewrite binary_normalize_canonical by exact Hy.
    destruct (bounded_exponent my ey Hy) as (He & _).
    split; [reflexivity | lia].
  - exists (cond_Zopp sx (Zpos mx)), ex, false.
    rewrite binary_normalize_canonical by exact Hx.
    destruct (bounded_exponent mx ex Hx) as (He & _).
    split; [reflexivity | lia].
  - destruct (bounded_exponent mx ex Hx) as (Hex & _).
    destruct (bounded_exponent my ey Hy) as (Hey & _).
    unfold SF64add, SFadd. set (ez := Z.min ex ey).
    destruct (shl_align_spec mx ex ez) as [_ Hpa].
    destruct (shl_align_spec my ey ez) as [_ Hpb].
    replace (Z.min ex ez) with ez in Hpa by (unfold ez; lia).
    replace (Z.min ey ez) with ez in Hpb by (unfold ez; lia).
    eexists _, ez, false. split; [reflexivity | ].
    split; [unfold ez; lia | ].
    rewrite Hpa, Hpb, Z.mul_add_distr_r, !cond_Zopp_mul, <- !Z.mul_assoc,
      <- !Z.pow_add_r by (unfold ez; lia).
    replace (ex - ez + (ez + 1074)) with (ex + 1074) by lia.
    replace (ey - ez + (ez + 1074)) with (ey + 1074) by lia.
    rewrite <- !cond_Zopp_mul. reflexivity.
Qed.

Lemma SFleb_cases (x1 x2 : spec_float) :
  SFleb x1 x2 = true ->
  x1 = S754_infinity true \/ x2 = S754_infinity false \/
  (finite_or_zero x1 /\ finite_or_zero x2).
Proof.
  destruct x1 as [s1 | [ | ] | | s1 m1 e1]; try discriminate;
    destruct x2 as [s2 | [ | ] | | s2 m2 e2]; try discriminate;
    cbn [finite_or_zero]; auto.
Qed.

Lemma SFleb_infinity_l (y : spec_float) :
  y <> S754_nan -> SFleb (S754_infinity true) y = true.
Proof. destruct y as [s | [ | ] | | s m e]; try reflexivity; congruence. Qed.

Lemma SFleb_infinity_r (x : spec_float) :
  x <> S754_nan -> SFleb x (S754_infinity false) = true.
Proof.
  destruct x as [s | [ | ] | | s m e]; try reflexivity; congruence.
Qed.

Lemma SF64add_finite_not_nan (x y : spec_float) :
  x <> S754_nan -> finite_or_zero y -> SF64add x y <> S754_nan.
Proof.
  intros Hx Hy. rewrite SF64add_comm. apply SF64add_not_nan.
  - destruct y; try contradiction; discriminate.
  - exact Hx.
  - intros s. destruct y; try contradiction; discriminate.
Qed.

Lemma SFleb_not_nan (x y : spec_float) :
  SFleb x y = true -> x <> S754_nan /\ y <> S754_nan.
Proof.
  destruct x, y; try discriminate; intros _; split; discriminate.
Qed.

(** Adding a finite number is monotone. *)
Lemma SF64add_mono (x1 x2 y : spec_float) :
  valid_binary x1 = true -> valid_binary x2 = true -> valid_binary y = true ->
  finite_or_zero y -> SFleb x1 x2 = true ->
  SFleb (SF64add x1 y) (SF64add x2 y) = true.
Proof.
  intros H1 H2 Hy Hfy Hle.
  destruct (SFleb_not_nan _ _ Hle) as [Hn1 Hn2].
  destruct (SFleb_cases _ _ Hle) as [-> | [-> | [Hf1 Hf2]]].
  - replace (SF64add (S754_infinity true) y) with (S754_infinity true)
      by (destruct y; try contradiction; reflexivity).
    apply SFleb_infinity_l, SF64add_finite_not_nan; assumption.
  - replace (SF64add (S754_infinity false) y) with (S754_infinity false)
      by (destruct y; try contradiction; reflexivity).
    apply SFleb_infinity_r, SF64add_finite_not_nan; assumption.
  - destruct (SF64add_scaled x1 y H1 Hy Hf1 Hfy) as (M1 & e1 & z1 & -> & He1 & Hv1).
    destruct (SF64add_scaled x2 y H2 Hy Hf2 Hfy) as (M2 & e2 & z2 & -> & He2 & Hv2).
    apply (binary_normalize_mono M1 e1 M2 e2 (-1074)); try lia.
    replace (e1 - -1074) with (e1 + 1074) by lia.
    replace (e2 - -1074) with (e2 + 1074) by lia.
    pose proof (SFleb_scaled x1 x2 H1 H2 Hf1 Hf2 Hle). lia.
Qed.

Lemma SF64sub_add_opp (x y : spec_float) :
  SF64sub x y = SF64add x (SFopp y).
Proof.
  destruct x as [sx | sx | | sx mx ex], y as [sy | sy | | sy my ey];
    try reflexivity; destruct sx, sy; reflexivity.
Qed.

Lemma valid_binary_opp (x : spec_float) :
  valid_binary (SFopp x) = valid_binary x.
Proof. destruct x; reflexivity. Qed.

(** A product of finite numbers is the rounding of the exact product. *)
Lemma digits2_mul_lower (a b : positive) :
  Zdigits2 (Zpos a) + Zdigits2 (Zpos b) - 1 <= Zdigits2 (Zpos (a * b)).
Proof.
  pose proof (Zdigits2_bounds (Zpos a) eq_refl) as [Ha _].
  pose proof (Zdigits2_bounds (Zpos b) eq_refl) as [Hb _].
  pose proof (Zdigits2_pos (Zpos a) eq_refl) as Hda.
  pose proof (Zdigits2_pos (Zpos b) eq_refl) as Hdb.
  assert (Zdigits2 (Zpos a) - 1 + (Zdigits2 (Zpos b) - 1)
          < Zdigits2 (Zpos (a * b))); [ | lia].
  apply Zdigits2_gt_of_pow_le; [lia | ].
  rewrite Z.pow_add_r by lia. rewrite Pos2Z.inj_mul.
  apply Z.mul_le_mono_nonneg; try assumption; apply Z.pow_nonneg; lia.
Qed.

Lemma binary_round_of_aligned (s : bool) (m : positive) (e : Z) :
  e <= fexp64 (Zdigits2 (Zpos m) + e) ->
  binary_round_aux prec emax s (Zpos m) e loc_Exact
  = binary_round prec emax s m e.
Proof.
  intros Hal. unfold binary_round. rewrite fexp_fexp64.
  change (Zpos (digits2_pos m)) with (Zdigits2 (Zpos m)).
  unfold shl_align.
  destruct (fexp64 (Zdigits2 (Zpos m) + e) - e) as [ | d | d] eqn:E;
    try reflexivity. lia.
Qed.

Lemma SF64mul_scaled (x y : spec_float) :
  valid_binary x = true -> valid_binary y = true ->
  finite_or_zero x -> finite_or_zero y ->
  exists M e z,
    SF64mul x y = binary_normalize prec emax M e z /\ -2148 <= e /\
    M * 2 ^ (e + 2148) = scaled x * scaled y.
Proof.
  destruct x as [sx | sx | | sx mx ex]; try contradiction;
    destruct y as [sy | sy | | sy my ey]; try contradiction;
    cbn [valid_binary scaled]; intros Hx Hy _ _;
    try (exists 0, 0; eexists; split; [reflexivity | lia]).
  destruct (bounded_exponent mx ex Hx) as (Hex & Hdx & Hnx).
  destruct (bounded_exponent my ey Hy) as (Hey & Hdy & Hny).
  pose proof (Zdigits2_pos (Zpos mx) eq_refl) as Hpx.
  pose proof (Zdigits2_pos (Zpos my) eq_refl) as Hpy.
  pose proof (digits2_mul_lower mx my) as Hd.
  exists (cond_Zopp (xorb sx sy) (Zpos (mx * my))), (ex + ey), false.
  split; [ | split; [lia | ]].
  - unfold SF64mul, SFmul. rewrite binary_round_of_aligned.
    + destruct (xorb sx sy); reflexivity.
    + unfold fexp64. lia.
  - replace (ex + ey + 2148) with (ex + 1074 + (ey + 1074)) by lia.
    rewrite Z.pow_add_r by lia. rewrite Pos2Z.inj_mul.
    destruct sx, sy; cbn [xorb cond_Zopp]; ring.
Qed.

Lemma SF64mul_positive_not_nan (x : spec_float) (m : positive) (e : Z) :
  x <> S754_nan -> SF64mul x (S754_finite false m e) <> S754_nan.
Proof.
  intros Hx. destruct x as [s | s | | s mx ex]; try congruence;
    try discriminate.
  unfold SF64mul, SFmul. apply binary_round_aux_not_nan. lia.
Qed.

(** Multiplying by a positive finite number is monotone. *)
Lemma SF64mul_mono (x1 x2 : spec_float) (m : positive) (e : Z) :
  valid_binary x1 = true -> valid_binary x2 = true ->
  bounded prec emax m e = true -> SFleb x1 x2 = true ->
  SFleb (SF64mul x1 (S754_finite false m e))
        (SF64mul x2 (S754_finite false m e)) = true.
Proof.
  intros H1 H2 Hy Hle.
  destruct (SFleb_not_nan _ _ Hle) as [Hn1 Hn2].
  destruct (SFleb_cases _ _ Hle) as [-> | [-> | [Hf1 Hf2]]].
  - apply SFleb_infinity_l, SF64mul_positive_not_nan, Hn2.
  - apply SFleb_infinity_r, SF64mul_positive_not_nan, Hn1.
  - destruct (SF64mul_scaled x1 (S754_finite false m e) H1 Hy Hf1 I)
      as (M1 & e1 & z1 & -> & He1 & Hv1).
    destruct (SF64mul_scaled x2 (S754_finite false m e) H2 Hy Hf2 I)
      as (M2 & e2 & z2 & -> & He2 & Hv2).
    apply (binary_normalize_mono M1 e1 M2 e2 (-2148)); try lia.
    replace (e1 - -2148) with (e1 + 2148) by lia.
    replace (e2 - -2148) with (e2 + 2148) by lia.
    rewrite Hv1, Hv2.
    pose proof (SFleb_scaled x1 x2 H1 H2 Hf1 Hf2 Hle) as Hs.
    apply Z.mul_le_mono_nonneg_r; [ | exact Hs].
    destruct (bounded_exponent m e Hy) as (He & _).
    pose proof (pow2_pos (e + 1074) ltac:(lia)).
    cbn [scaled cond_Zopp]. lia.
Qed.

End Monotone.

(** ** Monotone arithmetic on the floats *)

Lemma add_le_mono_r (a b c : float) :
  is_finite c = true -> (a <=? b)%float = true ->
  (a + c <=? b + c)%float = true.
Proof.
  intros Hc. rewrite !FloatAxioms.leb_spec, !FloatAxioms.add_spec.
  apply SF64add_mono; try apply Prim2SF_valid.
  apply finite_or_zero_of_float, Hc.
Qed.

Lemma add_le_mono_l (a b c : float) :
  is_finite c = true -> (a <=? b)%float = true ->
  (c + a <=? c + b)%float = true.
Proof.
  intros Hc. rewrite !FloatAxioms.leb_spec, !FloatAxioms.add_spec.
  rewrite !(SF64add_comm (Prim2SF c)).
  apply SF64add_mono; try apply Prim2SF_valid.
  apply finite_or_zero_of_float, Hc.
Qed.

Lemma sub_le_anti_l (a b c : float) :
  is_finite c = true -> (a <=? b)%float = true ->
  (c - b <=? c - a)%float = true.
Proof.
  intros Hc. rewrite !FloatAxioms.leb_spec, !FloatAxioms.sub_spec.
  rewrite !SF64sub_add_opp, !(SF64add_comm (Prim2SF c)).
  intros Hle. apply SF64add_mono;
    rewrite ?valid_binary_opp; try apply Prim2SF_valid.
  - apply finite_or_zero_of_float, Hc.
  - rewrite SFleb_opp. exact Hle.
Qed.

Lemma mul_le_mono_pos_r (a b c : float) :
  is_finite c = true -> (0 <? c)%float = true -> (a <=? b)%float = true ->
  (a * c <=? b * c)%float = true.
Proof.
  intros Hc Hpos.
  destruct (positive_finite_cases c Hpos Hc) as (m & e & Ec & Hb).
  rewrite !FloatAxioms.leb_spec, !FloatAxioms.mul_spec, Ec.
  apply SF64mul_mono; try apply Prim2SF_valid. exact Hb.
Qed.

Lemma add_comm (a b : float) : (a + b = b + a)%float.
Proof.
  apply Prim2SF_inj. rewrite !FloatAxioms.add_spec. apply SF64add_comm.
Qed.

Lemma leb_add_zero (a : float) :
  is_nan a = false -> (a <=? a + 0)%float = true.
Proof.
  intros Ha. apply is_nan_false in Ha.
  rewrite FloatAxioms.leb_spec, FloatAxioms.add_spec, Prim2SF_zero.
  destruct (Prim2SF a) as [s | s | | s m e]; try congruence.
  - destruct s; reflexivity.
  - apply SFleb_refl. discriminate.
  - apply SFleb_refl. discriminate.
Qed.

(** ** The transform keeps the order of the pixels *)

(** X14.  For a finite origin and finite positive resolutions the transform
    is monotone, as binary64 arithmetic computes it: a larger column never
    gives a smaller x, a larger row never gives a larger y, centred or
    not. *)
Theorem rowcol_to_xy_monotone (row1 row2 col1 col2 x0 y0 xres yres : float)
  (center : bool) :
  is_finite x0 = true -> is_finite y0 = true ->
  is_finite xres = true -> is_finite yres = true ->
  (0 <? xres)%float = true -> (0 <? yres)%float = true ->
  (col1 <=? col2)%float = true -> (row1 <=? row2)%float = true ->
  (fst (rowcol_to_xy row1 col1 x0 y0 xres yres center)
   <=? fst (rowcol_to_xy row2 col2 x0 y0 xres yres center))%float = true /\
  (snd (rowcol_to_xy row2 col2 x0 y0 xres yres center)
   <=? snd (rowcol_to_xy row1 col1 x0 y0 xres yres center))%float = true.
Proof.
  intros Hx0 Hy0 Hxr Hyr Hxp Hyp Hcol Hrow.
  unfold rowcol_to_xy. destruct center; cbn [fst snd]; split.
  - apply add_le_mono_l; [exact Hx0 | ].
    apply mul_le_mono_pos_r; [exact Hxr | exact Hxp | ].
    apply add_le_mono_r; [reflexivity | exact Hcol].
  - apply sub_le_anti_l; [exact Hy0 | ].
    apply mul_le_mono_pos_r; [exact Hyr | exact Hyp | ].
    apply add_le_mono_r; [reflexivity | exact Hrow].
  - apply add_le_mono_l; [exact Hx0 | ].
    apply mul_le_mono_pos_r; [exact Hxr | exact Hxp | exact Hcol].
  - apply sub_le_anti_l; [exact Hy0 | ].
    apply mul_le_mono_pos_r; [exact Hyr | exact Hyp | exact Hrow].
Qed.

(** Two pixels of the script's grid. *)
Lemma rowcol_to_xy_monotone_witness :
  (fst (rowcol_to_xy 1 1 X0 Y0 XRES YRES true)
   <=? fst (rowcol_to_xy 2 2 X0 Y0 XRES YRES true))%float = true /\
  (snd (rowcol_to_xy 2 2 X0 Y0 XRES YRES true)
   <=? snd (rowcol_to_xy 1 1 X0 Y0 XRES YRES true))%float = true.
Proof.
  apply (rowcol_to_xy_monotone 1 2 1 2 X0 Y0 XRES YRES true); reflexivity.
Defined.

Lemma half_pixel_steps (a : float) :
  is_finite a = true ->
  (a <=? a + 0.5)%float = true /\ (a + 0.5 <=? a + 1)%float = true.
Proof.
  intros Ha. split.
  - eapply leb_trans; [apply leb_add_zero, is_finite_not_nan, Ha | ].
    apply add_le_mono_l; [exact Ha | reflexivity].
  - apply add_le_mono_l; [exact Ha | reflexivity].
Qed.

(** X15.  The centre of a pixel lies between its corners: for a finite
    origin, finite positive resolutions and a finite pixel index, the centred
    coordinates are between those of the pixel's upper-left corner and those
    of the next pixel's, in x and in y. *)
Theorem pixel_center_between_corners (row col x0 y0 xres yres : float) :
  is_finite x0 = true -> is_finite y0 = true ->
  is_finite xres = true -> is_finite yres = true ->
  (0 <? xres)%float = true -> (0 <? yres)%float = true ->
  is_finite row = true -> is_finite col = true ->
  let upper_left := rowcol_to_xy row col x0 y0 xres yres false in
  let centre := rowcol_to_xy row col x0 y0 xres yres true in
  let lower_right := rowcol_to_xy (row + 1) (col + 1) x0 y0 xres yres false in
  (fst upper_left <=? fst centre)%float = true /\
  (fst centre <=? fst lower_right)%float = true /\
  (snd lower_right <=? snd centre)%float = true /\
  (snd centre <=? snd upper_left)%float = true.
Proof.
  intros Hx0 Hy0 Hxr Hyr Hxp Hyp Hrow Hcol.
  destruct (half_pixel_steps row Hrow) as [Hr1 Hr2].
  destruct (half_pixel_steps col Hcol) as [Hc1 Hc2].
  cbv zeta. unfold rowcol_to_xy. cbn [fst snd]. repeat split.
  - apply add_le_mono_l; [exact Hx0 | ].
    apply mul_le_mono_pos_r; assumption.
  - apply add_le_mono_l; [exact Hx0 | ].
    apply mul_le_mono_pos_r; assumption.
  - apply sub_le_anti_l; [exact Hy0 | ].
    apply mul_le_mono_pos_r; assumption.
  - apply sub_le_anti_l; [exact Hy0 | ].
    apply mul_le_mono_pos_r; assumption.
Qed.

(** The script's pixel and georeference. *)
Lemma pixel_center_between_corners_witness :
  let upper_left := rowcol_to_xy 1 2 X0 Y0 XRES YRES false in
  let centre := rowcol_to_xy 1 2 X0 Y0 XRES YRES true in
  let lower_right := rowcol_to_xy (1 + 1) (2 + 1) X0 Y0 XRES YRES false in
  (fst upper_left <=? fst centre)%float = true /\
  (fst centre <=? fst lower_right)%float = true /\
  (snd lower_right <=? snd centre)%float = true /\
  (snd centre <=? snd upper_left)%float = true.
Proof.
  apply (pixel_center_between_corners 1 2 X0 Y0 XRES YRES); reflexivity.
Defined.

(** ** Every band is assigned once *)

Lemma set_nth_nth_error_other {A : Type} (i j : nat) (v : A) (l : list A) :
  i <> j -> nth_error (set_nth i v l) j = nth_error l j.
Proof.
  revert i j. induction l as [ | a t IH]; intros [ | i] [ | j] H; simpl;
    try reflexivity; try congruence.
  apply IH. congruence.
Qed.

Lemma fill_band_spec (G : Np.Generator) (g : Np.state G) (a : list grid)
  (b : nat) :
  fill_band G (g, a) b
  = (snd (Np.normal G 0%float 0.002%float ROWS COLS g),
     set_nth b (synthetic_band G b g) a).
Proof.
  unfold fill_band, synthetic_band.
  destruct (Np.normal G 0%float 0.002%float ROWS COLS g); reflexivity.
Qed.

Lemma fold_fill_band_bands (G : Np.Generator) (n k : nat) (g : Np.state G)
  (a : list grid) :
  List.length a = k + n ->
  forall b,
    (b < k -> nth_error (snd (fold_left (fill_band G) (seq k n) (g, a))) b
              = nth_error a b) /\
    (k <= b < k + n ->
     exists gb, nth_error (snd (fold_left (fill_band G) (seq k n) (g, a))) b
                = Some (synthetic_band G b gb)).
Proof.
  revert k g a. induction n as [ | n IH]; intros k g a Hlen b.
  - simpl. split; [reflexivity | lia].
  - cbn [seq fold_left]. rewrite fill_band_spec.
    set (g1 := snd (Np.normal G 0%float 0.002%float ROWS COLS g)).
    set (a1 := set_nth k (synthetic_band G k g) a).
    assert (List.length a1 = S k + n) as Hlen1
      by (unfold a1; rewrite set_nth_length; lia).
    destruct (IH (S k) g1 a1 Hlen1 b) as [Hlow Hhigh]. split.
    + intros Hb. rewrite Hlow by lia.
      apply set_nth_nth_error_other. lia.
    + intros Hb. destruct (Nat.eq_dec b k) as [-> | Hne].
      * exists g. rewrite Hlow by lia. apply set_nth_nth_error. lia.
      * apply Hhigh. lia.
Qed.

Lemma raster_filled_bands (G : Np.Generator) (os_entropy : Z) (b : nat) :
  b < N_BANDS ->
  exists gb, nth_error (raster_filled G os_entropy) b
             = Some (synthetic_band G b gb).
Proof.
  intros Hb. unfold raster_filled.
  apply (fold_fill_band_bands G N_BANDS 0); [ | lia].
  unfold Np.zeros3. apply repeat_length.
Qed.

(** ** Noise that the clip never meets *)

Lemma noise_keeps_inside (x s : float) :
  room_for_noise x = true -> small_noise s -> strictly_inside (x + s).
Proof.
  unfold room_for_noise, small_noise, strictly_inside.
  intros Hx [Hlo Hhi].
  apply andb_true_iff in Hx. destruct Hx as [Hx H1].
  apply andb_true_iff in Hx. destruct Hx as [Hfin H0]. split.
  - eapply ltb_leb_trans; [exact H0 | ].
    apply add_le_mono_l; assumption.
  - eapply leb_ltb_trans; [ | exact H1].
    apply add_le_mono_l; assumption.
Qed.

Lemma base_plus_grad_room (b : nat) :
  b < N_BANDS ->
  Forall (Forall (fun v => room_for_noise v = true))
         (Np.scalar_add (nth b BASE 0%float) grad).
Proof.
  intros Hb. apply forallb2_Forall.
  do 6 (destruct b as [ | b]; [vm_compute; reflexivity | ]).
  unfold N_BANDS in Hb. simpl in Hb. lia.
Qed.

Lemma clip1_inside (v : float) : strictly_inside v -> Np.clip1 0 1 v = v.
Proof.
  intros [H0 H1]. unfold Np.clip1, Np.clip_max, Np.clip_min.
  rewrite (ltb_not_nan_r _ _ H0), H0, (ltb_not_nan_r _ _ H0), H1.
  reflexivity.
Qed.

Lemma Forall_nth_error {A : Type} (P : A -> Prop) (l : list A) :
  (forall i x, nth_error l i = Some x -> P x) -> Forall P l.
Proof.
  intros H. apply Forall_forall. intros x Hin.
  destruct (In_nth_error l x Hin) as [i Hi]. exact (H i x Hi).
Qed.

Lemma map_fixed {A : Type} (f : A -> A) (l : list A) :
  Forall (fun x => f x = x) l -> map f l = l.
Proof.
  induction 1 as [ | x t Hx _ IH]; simpl; [reflexivity | ].
  rewrite Hx, IH. reflexivity.
Qed.

Lemma inside_in_unit (v : float) : strictly_inside v -> in_unit v = true.
Proof.
  intros [H0 H1]. unfold in_unit.
  rewrite (ltb_leb _ _ H0), (ltb_leb _ _ H1). reflexivity.
Qed.

Lemma sum_positive (a b : float) :
  strictly_inside a -> strictly_inside b -> (0 <? a + b)%float = true.
Proof.
  intros Ha Hb.
  destruct (in_unit_nonneg_finite a (inside_in_unit a Ha)) as [Ha0 _].
  destruct (in_unit_nonneg_finite b (inside_in_unit b Hb)) as [_ Hbf].
  destruct Hb as [Hb0 _].
  eapply ltb_leb_trans; [exact Hb0 | ].
  eapply leb_trans; [apply leb_add_zero, is_finite_not_nan, Hbf | ].
  rewrite (add_comm a b). apply add_le_mono_l; assumption.
Qed.

Section SmallNoise.

Variable G : Np.Generator.

(** Every sample lies in [-0.1, 0.5]: fifty standard deviations below the
    mean of the script's noise, and more above. *)
Hypothesis noise_small :
  forall g, small_noise (fst (Np.normal1 G 0%float 0.002%float g)).

Lemma synthetic_band_inside (b : nat) (g : Np.state G) :
  b < N_BANDS -> Forall (Forall strictly_inside) (synthetic_band G b g).
Proof.
  intros Hb. unfold synthetic_band, Np.grid_add.
  eapply map2_Forall;
    [ | apply base_plus_grad_room, Hb
      | apply (normal_Forall G 0%float 0.002%float small_noise noise_small)].
  intros r n Hr Hn. eapply map2_Forall; [ | exact Hr | exact Hn].
  intros x s Hx Hs. apply noise_keeps_inside; assumption.
Qed.

Lemma raster_filled_inside (os_entropy : Z) :
  all_elements strictly_inside (raster_filled G os_entropy).
Proof.
  unfold all_elements. apply Forall_nth_error. intros b band Hband.
  assert (b < N_BANDS) as Hb.
  { destruct (raster_filled_shape G os_entropy) as [Hlen _].
    rewrite <- Hlen. apply nth_error_Some. unfold grid in *. congruence. }
  destruct (raster_filled_bands G os_entropy b Hb) as [gb Hgb].
  pose proof (eq_trans (eq_sym Hband) Hgb) as E. injection E as ->.
  apply synthetic_band_inside, Hb.
Qed.

Lemma raster_unclipped (os_entropy : Z) :
  raster G os_entropy = raster_filled G os_entropy.
Proof.
  unfold raster, Np.clip. pose proof (raster_filled_inside os_entropy) as H.
  unfold all_elements in H.
  apply map_fixed. eapply Forall_impl; [ | exact H]. intros band Hband.
  apply map_fixed. eapply Forall_impl; [ | exact Hband]. intros r Hr.
  apply map_fixed. eapply Forall_impl; [ | exact Hr]. intros v Hv.
  apply clip1_inside, Hv.
Qed.

Lemma ndvi_of_inside_pixel (os_entropy : Z) (r c : Z) :
  (-3 <= r < 3)%Z -> (-3 <= c < 3)%Z ->
  exists d nir red,
    spectrum_table (raster G os_entropy) r c = Some d /\
    pixel_value (raster G os_entropy) 3 r c = Some nir /\
    pixel_value (raster G os_entropy) 2 r c = Some red /\
    ndvi_of_table d = Some (ndvi_formula nir red) /\
    (0 <? nir + red)%float = true /\
    (-1 <=? ndvi_formula nir red)%float = true /\
    (ndvi_formula nir red <=? 1)%float = true.
Proof.
  intros Hr Hc.
  destruct (slice_pixel_in_range N_BANDS ROWS COLS (raster G os_entropy) r c)
    as (vs & Hvs & Hlen & Hnth);
    [apply raster_shape | exact Hr | exact Hc | ].
  destruct vs as [ | v0 [ | v1 [ | v2 [ | v3 [ | v4 [ | v5 [ | v6 t]]]]]]];
    try discriminate Hlen.
  assert (all_elements strictly_inside (raster G os_entropy)) as Hin.
  { rewrite raster_unclipped. apply raster_filled_inside. }
  assert (strictly_inside v3) as H3.
  { apply (pixel_value_element _ _ 3 r c v3 Hin). rewrite <- Hnth. reflexivity. }
  assert (strictly_inside v2) as H2.
  { apply (pixel_value_element _ _ 2 r c v2 Hin). rewrite <- Hnth. reflexivity. }
  exists (table_of [v0; v1; v2; v3; v4; v5]), v3, v2.
  split; [unfold spectrum_table; rewrite Hvs; reflexivity | ].
  split; [rewrite <- Hnth; reflexivity | ].
  split; [rewrite <- Hnth; reflexivity | ].
  split; [reflexivity | ].
  pose proof (sum_positive v3 v2 H3 H2) as Hpos. split; [exact Hpos | ].
  destruct (in_unit_nonneg_finite v3 (inside_in_unit v3 H3)) as [Hn Hnf].
  destruct (in_unit_nonneg_finite v2 (inside_in_unit v2 H2)) as [Hr' Hrf].
  apply ndvi_formula_range; assumption.
Qed.

End SmallNoise.

(** X16.  When every noise sample lies in [-0.1, 0.5], the clip changes
    nothing: the raster is the array the loop filled, and every value lies
    strictly between 0 and 1. *)
Theorem clip_leaves_small_noise (G : Np.Generator)
  (noise_small :
     forall g, small_noise (fst (Np.normal1 G 0%float 0.002%float g)))
  (os_entropy : Z) :
  raster G os_entropy = raster_filled G os_entropy /\
  all_elements (fun v => (0 <? v)%float = true /\ (v <? 1)%float = true)
               (raster G os_entropy).
Proof.
  split; [apply raster_unclipped, noise_small | ].
  rewrite raster_unclipped by exact noise_small.
  apply raster_filled_inside, noise_small.
Qed.

(** The [square_wave] generator, whose samples are 0.003 and -0.0015. *)
Lemma clip_leaves_small_noise_witness :
  raster square_wave 0 = raster_filled square_wave 0 /\
  all_elements (fun v => (0 <? v)%float = true /\ (v <? 1)%float = true)
               (raster square_wave 0).
Proof.
  apply (clip_leaves_small_noise square_wave).
  intros [ | ]; split; reflexivity.
Defined.

(** X17.  When every noise sample lies in [-0.1, 0.5], the index is defined
    at every pixel of the raster: the NIR and Red values are found, their sum
    is positive, and the index lies in [-1, 1]; so the script's own index is
    a number of [-1, 1]. *)
Theorem ndvi_defined_for_small_noise (G : Np.Generator)
  (noise_small :
     forall g, small_noise (fst (Np.normal1 G 0%float 0.002%float g)))
  (os_entropy : Z) :
  (forall r c, (-3 <= r < 3)%Z -> (-3 <= c < 3)%Z ->
     exists d nir red,
       spectrum_table (raster G os_entropy) r c = Some d /\
       pixel_value (raster G os_entropy) 3 r c = Some nir /\
       pixel_value (raster G os_entropy) 2 r c = Some red /\
       ndvi_of_table d = Some (ndvi_formula nir red) /\
       (0 <? nir + red)%float = true /\
       (-1 <=? ndvi_formula nir red)%float = true /\
       (ndvi_formula nir red <=? 1)%float = true) /\
  exists v, ndvi G os_entropy = Some v /\
            (-1 <=? v)%float = true /\ (v <=? 1)%float = true.
Proof.
  split; [intros r c; apply ndvi_of_inside_pixel, noise_small | ].
  destruct (ndvi_of_inside_pixel G noise_small os_entropy row col)
    as (d & nir & red & Hd & _ & _ & Hv & _ & Hlo & Hhi);
    [unfold row; lia | unfold col; lia | ].
  exists (ndvi_formula nir red). split; [ | split; assumption].
  unfold ndvi, df. rewrite Hd. exact Hv.
Qed.

(** The [square_wave] generator. *)
Lemma ndvi_defined_for_small_noise_witness :
  (forall r c, (-3 <= r < 3)%Z -> (-3 <= c < 3)%Z ->
     exists d nir red,
       spectrum_table (raster square_wave 0) r c = Some d /\
       pixel_value (raster square_wave 0) 3 r c = Some nir /\
       pixel_value (raster square_wave 0) 2 r c = Some red /\
       ndvi_of_table d = Some (ndvi_formula nir red) /\
       (0 <? nir + red)%float = true /\
       (-1 <=? ndvi_formula nir red)%float = true /\
       (ndvi_formula nir red <=? 1)%float = true) /\
  exists v, ndvi square_wave 0 = Some v /\
            (-1 <=? v)%float = true /\ (v <=? 1)%float = true.
Proof.
  apply (ndvi_defined_for_small_noise square_wave).
  intros [ | ]; split; reflexivity.
Defined.

(** ** The sign of the index *)

Lemma binary_round_aux_sign (s : bool) (m e : Z) (l : location) :
  (0 <= m)%Z ->
  match binary_round_aux prec emax s m e l with
  | S754_zero s' | S754_infinity s' | S754_finite s' _ _ => s' = s
  | S754_nan => False
  end.
Proof.
  intros Hm. pose proof (binary_round_aux_not_nan s m e l Hm) as Hn.
  revert Hn. unfold binary_round_aux.
  destruct (shr_fexp prec emax m e l) as [mrs1 e1].
  destruct (shr_fexp prec emax _ e1 loc_Exact) as [mrs2 e2].
  destruct (shr_m mrs2); try congruence; intros _; try reflexivity.
  destruct (e2 <=? emax - prec)%Z; reflexivity.
Qed.

(** The quotient of two finite numbers has the product of their signs. *)
Lemma SF64div_finite_sign (sx sy : bool) (mx my : positive) (ex ey : Z) :
  match SF64div (S754_finite sx mx ex) (S754_finite sy my ey) with
  | S754_zero s | S754_infinity s | S754_finite s _ _ => s = xorb sx sy
  | S754_nan => False
  end.
Proof.
  unfold SF64div, SFdiv, SFdiv_core_binary. cbv zeta.
  set (m' := match (ex - ey - _)%Z with
             | 0%Z => Zpos mx
             | Zpos _ => Z.shiftl (Zpos mx) _
             | Zneg _ => 0%Z
             end).
  assert (0 <= m')%Z as Hm'.
  { unfold m'. destruct (ex - ey - _)%Z; try lia.
    apply Z.shiftl_nonneg. lia. }
  pose proof (Z_div_mod m' (Zpos my) eq_refl) as Hdiv.
  destruct (Z.div_eucl m' (Zpos my)) as [q r]. destruct Hdiv as [Hq Hr].
  apply binary_round_aux_sign. nia.
Qed.

Lemma SF64div_nonneg (x y : spec_float) :
  match x with S754_zero _ | S754_finite false _ _ => True | _ => False end ->
  match y with
  | S754_infinity false | S754_finite false _ _ => True
  | _ => False
  end ->
  SFleb (S754_zero false) (SF64div x y) = true.
Proof.
  destruct x as [sx | sx | | [ | ] mx ex]; try contradiction;
    destruct y as [sy | [ | ] | | [ | ] my ey]; try contradiction;
    intros _ _; try reflexivity.
  pose proof (SF64div_finite_sign false false mx my ex ey) as H.
  destruct (SF64div _ _) as [s | s | | s m e]; try contradiction;
    cbn [xorb] in H; subst; reflexivity.
Qed.

Lemma SF64div_nonpos (x y : spec_float) :
  match x with S754_zero _ | S754_finite true _ _ => True | _ => False end ->
  match y with
  | S754_infinity false | S754_finite false _ _ => True
  | _ => False
  end ->
  SFleb (SF64div x y) (S754_zero false) = true.
Proof.
  destruct x as [sx | sx | | [ | ] mx ex]; try contradiction;
    destruct y as [sy | [ | ] | | [ | ] my ey]; try contradiction;
    intros _ _; try reflexivity.
  pose proof (SF64div_finite_sign true false mx my ex ey) as H.
  destruct (SF64div _ _) as [s | s | | s m e]; try contradiction;
    cbn [xorb] in H; subst; reflexivity.
Qed.

Lemma sub_le_mono_r (a b c : float) :
  is_finite c = true -> (a <=? b)%float = true ->
  (a - c <=? b - c)%float = true.
Proof.
  intros Hc. rewrite !FloatAxioms.leb_spec, !FloatAxioms.sub_spec.
  rewrite !SF64sub_add_opp.
  apply SF64add_mono; rewrite ?valid_binary_opp; try apply Prim2SF_valid.
  pose proof (finite_or_zero_of_float c Hc) as H.
  destruct (Prim2SF c); try contradiction; exact I.
Qed.

(** The difference of a finite number with itself is the positive zero. *)
Lemma SF64sub_self (x : spec_float) :
  finite_or_zero x -> exists s, SF64sub x x = S754_zero s.
Proof.
  destruct x as [s | s | | s m e]; try contradiction; intros _.
  - destruct s; eexists; reflexivity.
  - exists false. unfold SF64sub, SFsub. rewrite Z.sub_diag. reflexivity.
Qed.

(** The difference of two non-negative finite numbers is finite. *)
Lemma SF64sub_nonneg_finite (x y : spec_float) :
  nonneg_finite x -> nonneg_finite y ->
  valid_binary x = true -> valid_binary y = true ->
  finite_or_zero (SF64sub x y).
Proof.
  intros Hx Hy Vx Vy.
  destruct x as [sx | sx | | [ | ] mx ex]; try contradiction;
    destruct y as [sy | sy | | [ | ] my ey]; try contradiction;
    try exact I; try (destruct sx, sy; exact I).
  cbn [valid_binary] in Vx, Vy.
  unfold SF64sub, SFsub. cbn [cond_Zopp].
  set (ez := Z.min ex ey).
  destruct (shl_align_spec mx ex ez) as [_ Hpa].
  destruct (shl_align_spec my ey ez) as [_ Hpb].
  replace (Z.min ex ez) with ez in Hpa by (unfold ez; lia).
  replace (Z.min ey ez) with ez in Hpb by (unfold ez; lia).
  set (pa := fst (shl_align mx ex ez)) in *.
  set (pb := fst (shl_align my ey ez)) in *.
  pose proof (pow2_pos (ex - ez) ltac:(unfold ez; lia)) as Hpea.
  pose proof (pow2_pos (ey - ez) ltac:(unfold ez; lia)) as Hpeb.
  destruct (Zpos pa - Zpos pb)%Z as [ | p | p] eqn:E; cbn [binary_normalize].
  - exact I.
  - pose proof (binary_round_upper false p ez mx ex Vx
                  ltac:(unfold ez; lia) ltac:(lia)) as H.
    destruct (binary_round prec emax false p ez); try contradiction; exact I.
  - pose proof (binary_round_upper true p ez my ey Vy
                  ltac:(unfold ez; lia) ltac:(lia)) as H.
    destruct (binary_round prec emax true p ez); try contradiction; exact I.
Qed.

Lemma positive_sum_cases (x : spec_float) :
  SFltb (S754_zero false) x = true ->
  match x with
  | S754_infinity false | S754_finite false _ _ => True
  | _ => False
  end.
Proof.
  destruct x as [s | [ | ] | | [ | ] m e]; try discriminate; intros _; exact I.
Qed.

(** X20.  The sign of the index follows the order of the two reflectances:
    for non-negative finite values with [nir + red > 0], the index is at
    least 0 when [red <= nir] and at most 0 when [nir <= red]. *)
Theorem ndvi_sign_follows_bands (nir red : float) :
  (0 <=? nir)%float = true -> is_finite nir = true ->
  (0 <=? red)%float = true -> is_finite red = true ->
  (0 <? nir + red)%float = true ->
  ((red <=? nir)%float = true ->
   (0 <=? ndvi_formula nir red)%float = true) /\
  ((nir <=? red)%float = true ->
   (ndvi_formula nir red <=? 0)%float = true).
Proof.
  intros Hn Hnf Hr Hrf Hpos.
  pose proof (SF64sub_nonneg_finite (Prim2SF nir) (Prim2SF red)
                (nonneg_finite_of_float nir Hn Hnf)
                (nonneg_finite_of_float red Hr Hrf)
                (Prim2SF_valid nir) (Prim2SF_valid red)) as Hd.
  destruct (SF64sub_self (Prim2SF red) (finite_or_zero_of_float red Hrf))
    as [s Hself].
  rewrite FloatAxioms.ltb_spec, FloatAxioms.add_spec, Prim2SF_zero in Hpos.
  apply positive_sum_cases in Hpos.
  unfold ndvi_formula.
  split; intros Hle;
    rewrite FloatAxioms.leb_spec, FloatAxioms.div_spec, FloatAxioms.sub_spec,
      FloatAxioms.add_spec, Prim2SF_zero.
  - apply (sub_le_mono_r red nir red Hrf) in Hle.
    rewrite FloatAxioms.leb_spec, !FloatAxioms.sub_spec, Hself in Hle.
    apply SF64div_nonneg; [ | exact Hpos].
    destruct (SF64sub (Prim2SF nir) (Prim2SF red)) as [sd | sd | | [ | ] md ed];
      try contradiction; try exact I. discriminate Hle.
  - apply (sub_le_mono_r nir red red Hrf) in Hle.
    rewrite FloatAxioms.leb_spec, !FloatAxioms.sub_spec, Hself in Hle.
    apply SF64div_nonpos; [ | exact Hpos].
    destruct (SF64sub (Prim2SF nir) (Prim2SF red)) as [sd | sd | | [ | ] md ed];
      try contradiction; try exact I. discriminate Hle.
Qed.

(** A vegetated pixel: NIR 0.488, Red 0.24. *)
Lemma ndvi_sign_follows_bands_witness :
  ((0.24 <=? 0.488)%float = true ->
   (0 <=? ndvi_formula 0.488 0.24)%float = true) /\
  ((0.488 <=? 0.24)%float = true ->
   (ndvi_formula 0.488 0.24 <=? 0)%float = true).
Proof.
  apply (ndvi_sign_follows_bands 0.488 0.24); reflexivity.
Defined.

(** ** The index at any pixel *)

(** A non-negative number that is not positive is a zero. *)
Lemma nonneg_not_positive (a : float) :
  (0 <=? a)%float = true -> (0 <? a)%float = false -> (a =? 0)%float = true.
Proof.
  rewrite FloatAxioms.leb_spec, FloatAxioms.ltb_spec, FloatAxioms.eqb_spec,
    Prim2SF_zero.
  destruct (Prim2SF a) as [s | s | | s m e]; try destruct s;
    cbn; congruence.
Qed.

(** Two non-negative numbers have a positive sum, or both are zeros. *)
Lemma sum_nonneg_cases (a b : float) :
  (0 <=? a)%float = true -> is_finite a = true ->
  (0 <=? b)%float = true -> is_finite b = true ->
  (0 <? a + b)%float = true \/
  ((a =? 0)%float = true /\ (b =? 0)%float = true).
Proof.
  intros Ha Hfa Hb Hfb.
  destruct (0 <? a)%float eqn:Pa.
  - left. apply (ltb_leb_trans 0 a (a + b) Pa).
    apply (leb_trans a (a + 0) (a + b)).
    + apply leb_add_zero, is_finite_not_nan, Hfa.
    + apply add_le_mono_l; assumption.
  - destruct (0 <? b)%float eqn:Pb.
    + left. apply (ltb_leb_trans 0 b (a + b) Pb).
      apply (leb_trans b (0 + b) (a + b)).
      * rewrite (add_comm 0 b). apply leb_add_zero, is_finite_not_nan, Hfb.
      * apply add_le_mono_r; assumption.
    + right. split; apply nonneg_not_positive; assumption.
Qed.

(** Zero over zero: the index of two zero reflectances is a NaN. *)
Lemma ndvi_formula_zero_zero (a b : float) :
  (a =? 0)%float = true -> (b =? 0)%float = true ->
  is_nan (ndvi_formula a b) = true.
Proof.
  intros Ha Hb.
  destruct (eqb_zero a Ha) as [sa Ea]. destruct (eqb_zero b Hb) as [sb Eb].
  apply is_nan_true. unfold ndvi_formula.
  rewrite FloatAxioms.div_spec, FloatAxioms.sub_spec, FloatAxioms.add_spec,
    Ea, Eb.
  destruct sa, sb; reflexivity.
Qed.

(** X18.  For a generator whose samples are not NaN, at every pixel of the
    raster the table is produced; its one NIR row and its one Red row hold
    [raster[3, r, c]] and [raster[2, r, c]], two values of [0, 1], and the
    index is (nir - red) / (nir + red) of these two.  It lies in [-1, 1] when
    [nir + red] is positive; otherwise both values are zero and the index is
    a NaN. *)
Lemma ndvi_of_raster_pixel (G : Np.Generator)
  (normal_not_nan :
     forall g, is_nan (fst (Np.normal1 G 0%float 0.002%float g)) = false)
  (os_entropy : Z) (r c : Z) :
  (-3 <= r < 3)%Z -> (-3 <= c < 3)%Z ->
  exists d nir red,
    spectrum_table (raster G os_entropy) r c = Some d /\
    pixel_value (raster G os_entropy) 3 r c = Some nir /\
    pixel_value (raster G os_entropy) 2 r c = Some red /\
    Pd.loc_reflectance d "NIR" = [nir] /\
    Pd.loc_reflectance d "Red" = [red] /\
    ndvi_of_table d = Some (ndvi_formula nir red) /\
    in_unit nir = true /\ in_unit red = true /\
    ((0 <? nir + red)%float = true ->
     (-1 <=? ndvi_formula nir red)%float = true /\
     (ndvi_formula nir red <=? 1)%float = true) /\
    ((0 <? nir + red)%float = false ->
     (nir =? 0)%float = true /\ (red =? 0)%float = true /\
     is_nan (ndvi_formula nir red) = true).
Proof.
  intros Hr Hc.
  destruct (slice_pixel_in_range N_BANDS ROWS COLS (raster G os_entropy) r c)
    as (vs & Hvs & Hlen & Hnth);
    [apply raster_shape | exact Hr | exact Hc | ].
  destruct vs as [ | v0 [ | v1 [ | v2 [ | v3 [ | v4 [ | v5 [ | v6 t]]]]]]];
    try discriminate Hlen.
  pose proof (raster_all_in_unit G normal_not_nan os_entropy) as Hunit.
  assert (in_unit v3 = true) as H3.
  { apply (pixel_value_element _ _ 3 r c v3 Hunit). rewrite <- Hnth.
    reflexivity. }
  assert (in_unit v2 = true) as H2.
  { apply (pixel_value_element _ _ 2 r c v2 Hunit). rewrite <- Hnth.
    reflexivity. }
  destruct (in_unit_nonneg_finite v3 H3) as [Hn Hnf].
  destruct (in_unit_nonneg_finite v2 H2) as [Hr' Hrf].
  exists (table_of [v0; v1; v2; v3; v4; v5]), v3, v2.
  split; [unfold spectrum_table; rewrite Hvs; reflexivity | ].
  split; [rewrite <- Hnth; reflexivity | ].
  split; [rewrite <- Hnth; reflexivity | ].
  split; [reflexivity | ]. split; [reflexivity | ]. split; [reflexivity | ].
  split; [exact H3 | ]. split; [exact H2 | ]. split.
  - intros Hpos. apply ndvi_formula_range; assumption.
  - intros Hzero.
    destruct (sum_nonneg_cases v3 v2 Hn Hnf Hr' Hrf) as [Hpos | [Z3 Z2]];
      [congruence | ].
    split; [exact Z3 | ]. split; [exact Z2 | ].
    apply ndvi_formula_zero_zero; assumption.
Qed.

(** The index at the script's pixel, under the [square_wave] generator. *)
Lemma ndvi_of_raster_pixel_witness :
  exists d nir red,
    spectrum_table (raster square_wave 0) 1 2 = Some d /\
    pixel_value (raster square_wave 0) 3 1 2 = Some nir /\
    pixel_value (raster square_wave 0) 2 1 2 = Some red /\
    Pd.loc_reflectance d "NIR" = [nir] /\
    Pd.loc_reflectance d "Red" = [red] /\
    ndvi_of_table d = Some (ndvi_formula nir red) /\
    in_unit nir = true /\ in_unit red = true /\
    ((0 <? nir + red)%float = true ->
     (-1 <=? ndvi_formula nir red)%float = true /\
     (ndvi_formula nir red <=? 1)%float = true) /\
    ((0 <? nir + red)%float = false ->
     (nir =? 0)%float = true /\ (red =? 0)%float = true /\
     is_nan (ndvi_formula nir red) = true).
Proof.
  apply (ndvi_of_raster_pixel square_wave); [ | lia | lia].
  intros [ | ]; reflexivity.
Defined.
